(** * Scene graph of streamlabs-obs: a shallow embedding of [ScenesService]

    The development follows the TypeScript sources.  [ScenesService]
    (createScene, removeScene, makeSceneActive, setSceneOrder and the getters)
    is embedded from its source.  The classes it calls into, [Scene] and
    [SceneItem], and the [SourcesService] registry are not among the source
    files; they are modelled from the specification and every such definition
    says so in its doc comment.

    Conventions of the embedding:
    - a JavaScript object used as a dictionary is a list of bindings kept in
      the order [Object.keys] enumerates them (array-index keys first, in
      ascending order, then the other keys in insertion order);
    - a JavaScript number is an exact rational ([Q]); NaN and the infinities
      are outside the model;
    - [null] and [undefined] are [None]; calling a method on them throws a
      [TypeError];
    - service methods run in the monad [M]: they thread the [World] (the
      store, the source registry, the emitted events) and may throw; what was
      mutated before a throw stays mutated;
    - property lookups only see own properties: scene ids that name members
      of [Object.prototype] are not modelled. *)

From Stdlib Require Import String Ascii List Bool Arith NArith ZArith QArith Qround.
From Stdlib Require Import Lia Lqa Relations Permutation DecimalString DecimalNat.
Import ListNotations.
Close Scope Q_scope.
Open Scope string_scope.
Open Scope list_scope.

(** ** JavaScript objects used as dictionaries *)

Module Dict.

Definition t (V : Type) := list (string * V).

Definition digit_of (c : ascii) : option N :=
  let n := N_of_ascii c in
  if ((48 <=? n) && (n <=? 57))%N then Some (n - 48)%N else None.

Fixpoint digits_value (s : string) (acc : N) : option N :=
  match s with
  | EmptyString => Some acc
  | String c r =>
      match digit_of c with
      | Some d => digits_value r (10 * acc + d)%N
      | None => None
      end
  end.

(** An array index is a canonical decimal numeral below 2^32 - 1. *)
Definition array_index (s : string) : option N :=
  match s with
  | EmptyString => None
  | String c r =>
      if (N_of_ascii c =? 48)%N
      then match r with EmptyString => Some 0%N | _ => None end
      else match digits_value s 0 with
           | Some n => if (n <? 4294967295)%N then Some n else None
           | None => None
           end
  end.

Section Ops.
Context {V : Type}.

Fixpoint get (d : t V) (k : string) : option V :=
  match d with
  | [] => None
  | (k', v) :: r => if String.eqb k' k then Some v else get r k
  end.

Fixpoint replace (k : string) (v : V) (d : t V) : t V :=
  match d with
  | [] => []
  | (k', v') :: r =>
      if String.eqb k' k then (k', v) :: r else (k', v') :: replace k v r
  end.

Fixpoint insert_index (n : N) (k : string) (v : V) (d : t V) : t V :=
  match d with
  | [] => [(k, v)]
  | (k', v') :: r =>
      match array_index k' with
      | Some m =>
          if (m <? n)%N then (k', v') :: insert_index n k v r
          else (k, v) :: d
      | None => (k, v) :: d
      end
  end.

(** [obj[k] = v] (and [Vue.set(obj, k, v)]): an existing key keeps its
    place, a new key goes where [Object.keys] will list it. *)
Definition set (d : t V) (k : string) (v : V) : t V :=
  match get d k with
  | Some _ => replace k v d
  | None =>
      match array_index k with
      | Some n => insert_index n k v d
      | None => d ++ [(k, v)]
      end
  end.

(** [delete obj[k]] (and [Vue.delete(obj, k)]). *)
Definition delete (d : t V) (k : string) : t V :=
  filter (fun kv => negb (String.eqb (fst kv) k)) d.

(** [Object.keys(obj)]. *)
Definition keys (d : t V) : list string := map fst d.

End Ops.

End Dict.

(** ** JavaScript numbers and strings *)

(** Truthiness of a string: only the empty string is falsy. *)
Definition truthy (s : string) : bool := negb (String.eqb s "").

(** [a || b] on a string that may be [undefined]. *)
Definition or_else (a : option string) (b : string) : string :=
  match a with
  | Some s => if truthy s then s else b
  | None => b
  end.

(** Truncation toward zero, the quotient behind JavaScript's [%]. *)
Definition js_trunc (q : Q) : Z :=
  if Qle_bool 0%Q q then Qfloor q else Qceiling q.

(** [a % b] for finite [a] and finite non-zero [b]: the result has the sign
    of the dividend. *)
Definition js_rem (a b : Q) : Q :=
  (a - b * inject_Z (js_trunc (a / b)))%Q.

(** [Math.round]: the nearest integer, ties toward +infinity. *)
Definition Math_round (q : Q) : Z := Qfloor (q + (1 # 2))%Q.

(** [Math.max] on two finite numbers. *)
Definition Math_max (a b : Q) : Q := if Qle_bool a b then b else a.

(** [lodash.without(array, value)]. *)
Definition without (l : list string) (v : string) : list string :=
  filter (fun k => negb (String.eqb k v)) l.

Definition dquote : string := String (ascii_of_nat 34) EmptyString.
Definition backslash : string := String (ascii_of_nat 92) EmptyString.

(** [JSON.stringify] of a string of printable characters: the quote and the
    backslash are escaped. *)
Fixpoint json_escape (s : string) : string :=
  match s with
  | EmptyString => EmptyString
  | String c r =>
      let n := nat_of_ascii c in
      if ((n =? 34) || (n =? 92))%nat
      then (backslash ++ String c (json_escape r))%string
      else String c (json_escape r)
  end.

Definition JSON_stringify_singleton (s : string) : string :=
  ("[" ++ dquote ++ json_escape s ++ dquote ++ "]")%string.

(** ** Data model *)

(** Modelled from the spec: the transform of an item, "position (x,y), scale
    (sx,sy), rotation (degrees ...), crop (top,bottom,left,right ...)".  The
    declarations of the item, folder and transform types are not among the
    sources. *)
Module IVec2.
Record t := mk { x : Q; y : Q }.
End IVec2.

Module ICrop.
Record t := mk { top : Q; bottom : Q; left : Q; right : Q }.
End ICrop.

Module ITransform.
Record t := mk {
  position : IVec2.t;
  scale : IVec2.t;
  crop : ICrop.t;
  rotation : Q
}.
End ITransform.

(** Modelled from the spec: what [SceneItem.getSettings] hands over and
    [setSettings] takes, the transform and the visibility and lock flags. *)
Module ISceneItemSettings.
Record t := mk { transform : ITransform.t; visible : bool; locked : bool }.
End ISceneItemSettings.

(** Modelled from the spec: an Item, "id, ..., reference to a Source id, a
    Transform, visibility flag, lock flag, parent folder id (optional)"; the
    owning scene is the one whose node list holds it. *)
Module ISceneItem.
Record t := mk {
  sceneItemId : string;
  sourceId : string;
  settings : ISceneItemSettings.t;
  parentId : option string
}.
End ISceneItem.

(** Modelled from the spec: a Folder, "id, ..., display name, ordered list
    of child node ids, parent folder id (optional)". *)
Module ISceneItemFolder.
Record t := mk {
  id : string;
  name : string;
  childrenIds : list string;
  parentId : option string
}.
End ISceneItemFolder.

(** Modelled from the spec: a scene node is an item or a folder. *)
Inductive TSceneNode :=
| Item (i : ISceneItem.t)
| Folder (f : ISceneItemFolder.t).

(** The record [ADD_SCENE] stores for a scene. *)
Module IScene.
Record t := mk {
  id : string;
  name : string;
  resourceId : string;
  nodes : list TSceneNode
}.
End IScene.

(** [IScenesState], as [initialState] has it. *)
Module IScenesState.
Record t := mk {
  activeSceneId : string;
  displayOrder : list string;
  scenes : Dict.t IScene.t
}.
End IScenesState.

(** The options [createScene] reads. *)
Module ISceneCreateOptions.
Record t := mk {
  duplicateSourcesFromScene : option string;
  sceneId : option string;
  makeActive : bool
}.
(** The default [options = {}]. *)
Definition empty : t := mk None None false.
End ISceneCreateOptions.

(** Modelled from the spec: the entries of the source registry (the
    [SourcesService] and its [ISource] are not among the sources): an id, a
    display name and a type tag, ["scene"] for a scene used as a source. *)
Module ISource.
Record t := mk { sourceId : string; name : string; type : string }.
End ISource.

(** The payloads of the six subjects of [ScenesService]. *)
Inductive Event :=
| sceneAdded (s : option IScene.t)
| sceneRemoved (s : option IScene.t)
| sceneSwitched (s : option IScene.t)
| itemAdded (sceneId : string) (i : ISceneItem.t)
| itemRemoved (sceneId : string) (i : ISceneItem.t)
| itemUpdated (sceneId : string) (i : ISceneItem.t).

(** Everything the services read and write: the store of [ScenesService],
    the registry of [SourcesService], the values pushed on the subjects
    (oldest first), the [alert] boxes shown, and the main process's
    [getUniqueId], an unknown function of the number of calls made. *)
Record World := mkWorld {
  state : IScenesState.t;
  sources : Dict.t ISource.t;
  events : list Event;
  alerts : list string;
  uniqueIds : nat -> string;
  uniqueIdCalls : nat
}.

(** [ScenesService.initialState]. *)
Definition initialState : IScenesState.t :=
  IScenesState.mk "" [] [].

Definition initialWorld (ids : nat -> string) : World :=
  mkWorld initialState [] [] [] ids 0.

(** ** The monad of service methods *)

(** A call returns a value or throws; the only error the modelled code
    throws is the [TypeError] of a method call on [null]. *)
Inductive JsError := TypeError.

Inductive Completion (A : Type) :=
| Return (a : A)
| Throw (e : JsError).
Arguments Return {A} a.
Arguments Throw {A} e.

Definition M (A : Type) := World -> World * Completion A.

Definition ret {A} (a : A) : M A := fun w => (w, Return a).

Definition throw {A} (e : JsError) : M A := fun w => (w, Throw e).

Definition bind {A B} (m : M A) (f : A -> M B) : M B :=
  fun w =>
    match m w with
    | (w1, Return a) => f a w1
    | (w1, Throw e) => (w1, Throw e)
    end.

Notation "x <- m ;; k" := (bind m (fun x => k))
  (at level 61, m at next level, right associativity).
Notation "m ;;; k" := (bind m (fun _ => k))
  (at level 61, right associativity).

(** [array.forEach(f)]. *)
Fixpoint forEach {A} (l : list A) (f : A -> M unit) : M unit :=
  match l with
  | [] => ret tt
  | a :: r => f a ;;; forEach r f
  end.

(** [this.state], and a mutation of it. *)
Definition getState : M IScenesState.t := fun w => (w, Return (state w)).

Definition modifyState (f : IScenesState.t -> IScenesState.t) : M unit :=
  fun w =>
    (mkWorld (f (state w)) (sources w) (events w) (alerts w)
       (uniqueIds w) (uniqueIdCalls w), Return tt).

(** [subject.next(payload)]. *)
Definition emit (e : Event) : M unit :=
  fun w =>
    (mkWorld (state w) (sources w) (events w ++ [e]) (alerts w)
       (uniqueIds w) (uniqueIdCalls w), Return tt).

(** [alert(msg)]. *)
Definition alert (msg : string) : M unit :=
  fun w =>
    (mkWorld (state w) (sources w) (events w) (alerts w ++ [msg])
       (uniqueIds w) (uniqueIdCalls w), Return tt).

(** [ipcRenderer.sendSync('getUniqueId')]. *)
Definition getUniqueId : M string :=
  fun w =>
    (mkWorld (state w) (sources w) (events w) (alerts w)
       (uniqueIds w) (S (uniqueIdCalls w)),
     Return (uniqueIds w (uniqueIdCalls w))).

(** A method call on a value that may be [null]. *)
Definition deref {A} (o : option A) : M A :=
  match o with
  | Some a => ret a
  | None => throw TypeError
  end.

(** ** The source registry *)

(** Modelled from the spec: the Source Registry "tracks source entities by
    id; owns their settings and type; does not know about scenes".
    [SourcesService] is not among the sources; [addSource] records the entry
    under its id. *)
Module SourcesService.

(** Modelled from the spec: the registry entry of an id, [null] when the id
    is unknown ([SourcesService.getSource] is not among the sources). *)
Definition getSource (w : World) (sourceId : string) : option ISource.t :=
  Dict.get (sources w) sourceId.

(** Modelled from the spec: registering a source under its id
    ([SourcesService.addSource] is not among the sources). *)
Definition addSource (sourceId name type : string) : M unit :=
  fun w =>
    (mkWorld (state w)
       (Dict.set (sources w) sourceId (ISource.mk sourceId name type))
       (events w) (alerts w) (uniqueIds w) (uniqueIdCalls w), Return tt).

(** Modelled from the spec: whether [sourceId] is registered as a
    scene-type source, the "nested-scene" capability tag. *)
Definition isScene (w : World) (sourceId : string) : bool :=
  match getSource w sourceId with
  | Some src => String.eqb (ISource.type src) "scene"
  | None => false
  end.

End SourcesService.

(** ** Node lists *)

(** The node lists are those of the spec's data model; the functions on
    them below serve the methods of [Scene] and [SceneItem], which are
    modelled from the spec. *)

Definition isItemWithId (itemId : string) (n : TSceneNode) : bool :=
  match n with
  | Item i => String.eqb (ISceneItem.sceneItemId i) itemId
  | Folder _ => false
  end.

(** The items of a node list, in the order of the list. *)
Definition itemsOf (nodes : list TSceneNode) : list ISceneItem.t :=
  flat_map (fun n => match n with Item i => [i] | Folder _ => [] end) nodes.

(** The item of that id, if the list has one. *)
Definition findItem (nodes : list TSceneNode) (itemId : string)
  : option ISceneItem.t :=
  find (fun i => String.eqb (ISceneItem.sceneItemId i) itemId) (itemsOf nodes).

(** The node list with the item of that id rewritten by [f]. *)
Definition updateItem (itemId : string) (f : ISceneItem.t -> ISceneItem.t)
    (nodes : list TSceneNode) : list TSceneNode :=
  map (fun n =>
         match n with
         | Item i =>
             if String.eqb (ISceneItem.sceneItemId i) itemId
             then Item (f i) else n
         | Folder _ => n
         end) nodes.

(** A folder without [itemId] among its children. *)
Definition stripChild (itemId : string) (n : TSceneNode) : TSceneNode :=
  match n with
  | Item _ => n
  | Folder f =>
      Folder (ISceneItemFolder.mk (ISceneItemFolder.id f)
                (ISceneItemFolder.name f)
                (without (ISceneItemFolder.childrenIds f) itemId)
                (ISceneItemFolder.parentId f))
  end.

(** Modelled from the spec: the node list without the item [itemId],
    "removes the node from its scene's list (and from its parent folder's
    child list if nested)". *)
Definition dropItem (itemId : string) (nodes : list TSceneNode)
  : list TSceneNode :=
  map (stripChild itemId)
      (filter (fun n => negb (isItemWithId itemId n)) nodes).

(** The scene record with another node list. *)
Definition setNodes (s : IScene.t) (nodes : list TSceneNode) : IScene.t :=
  IScene.mk (IScene.id s) (IScene.name s) (IScene.resourceId s) nodes.

(** [state.scenes[sceneId].nodes = f(state.scenes[sceneId].nodes)]. *)
Definition mapNodes (sceneId : string)
    (f : list TSceneNode -> list TSceneNode) (st : IScenesState.t)
  : IScenesState.t :=
  match Dict.get (IScenesState.scenes st) sceneId with
  | Some s =>
      IScenesState.mk (IScenesState.activeSceneId st)
        (IScenesState.displayOrder st)
        (Dict.set (IScenesState.scenes st) sceneId (setNodes s (f (IScene.nodes s))))
  | None => st
  end.

(** [state.scenes[sceneId].nodes], empty when the store has no such
    scene. *)
Definition nodesOf (st : IScenesState.t) (sceneId : string)
  : list TSceneNode :=
  match Dict.get (IScenesState.scenes st) sceneId with
  | Some s => IScene.nodes s
  | None => []
  end.

(** ** Transform normalisation *)

(** Modelled from the spec: "rotation is always stored post-normalization
    (value mod 360, mapped into [0,360))", by the formula
    [((r % 360) + 360) % 360]. *)
Definition normalizeRotation (r : Q) : Q :=
  js_rem (js_rem r 360 + 360)%Q 360.

(** Modelled from the spec: "each crop field is independently clamped to
    >= 0 and rounded to the nearest integer at write time". *)
Definition normalizeCropField (v : Q) : Q :=
  inject_Z (Math_round (Math_max 0 v)).

(** A transform patch: every field may be omitted, and so may every field
    of the crop. *)
Module IPartialCrop.
Record t := mk {
  top : option Q; bottom : option Q; left : option Q; right : option Q
}.
End IPartialCrop.

Module IPartialTransform.
Record t := mk {
  position : option IVec2.t;
  scale : option IVec2.t;
  crop : option IPartialCrop.t;
  rotation : option Q
}.
Definition empty : t := mk None None None None.
End IPartialTransform.

(** Modelled from the spec: the patch as it is written, its rotation and
    its crop fields normalised, each field on its own. *)
Definition normalizePatch (p : IPartialTransform.t) : IPartialTransform.t :=
  IPartialTransform.mk
    (IPartialTransform.position p)
    (IPartialTransform.scale p)
    (option_map
       (fun c =>
          IPartialCrop.mk
            (option_map normalizeCropField (IPartialCrop.top c))
            (option_map normalizeCropField (IPartialCrop.bottom c))
            (option_map normalizeCropField (IPartialCrop.left c))
            (option_map normalizeCropField (IPartialCrop.right c)))
       (IPartialTransform.crop p))
    (option_map normalizeRotation (IPartialTransform.rotation p)).

(** A field of a patch, or the stored value when the patch omits it. *)
Definition pick {A} (patch : option A) (old : A) : A :=
  match patch with Some a => a | None => old end.

(** Modelled from the spec: the crop after a patch, field by field. *)
Definition mergeCrop (old : ICrop.t) (p : option IPartialCrop.t) : ICrop.t :=
  match p with
  | None => old
  | Some c =>
      ICrop.mk (pick (IPartialCrop.top c) (ICrop.top old))
               (pick (IPartialCrop.bottom c) (ICrop.bottom old))
               (pick (IPartialCrop.left c) (ICrop.left old))
               (pick (IPartialCrop.right c) (ICrop.right old))
  end.

(** Modelled from the spec: [setTransform] "merges provided fields ...;
    omitted fields are left unchanged". *)
Definition mergeTransform (old : ITransform.t) (p : IPartialTransform.t)
  : ITransform.t :=
  ITransform.mk (pick (IPartialTransform.position p) (ITransform.position old))
                (pick (IPartialTransform.scale p) (ITransform.scale old))
                (mergeCrop (ITransform.crop old) (IPartialTransform.crop p))
                (pick (IPartialTransform.rotation p) (ITransform.rotation old)).

(** The settings of an item just added.  The spec leaves them open; they
    only show in the examples. *)
Definition defaultTransform : ITransform.t :=
  ITransform.mk (IVec2.mk 0 0) (IVec2.mk 1 1) (ICrop.mk 0 0 0 0) 0.

Definition defaultSettings : ISceneItemSettings.t :=
  ISceneItemSettings.mk defaultTransform true false.

(** A settings patch, and the patch that carries every field of given
    settings. *)
Module IPartialSettings.
Record t := mk {
  transform : option IPartialTransform.t;
  visible : option bool;
  locked : option bool
}.
End IPartialSettings.

(** The patch that carries every field of a transform. *)
Definition fullTransformPatch (t : ITransform.t) : IPartialTransform.t :=
  let c := ITransform.crop t in
  IPartialTransform.mk
    (Some (ITransform.position t)) (Some (ITransform.scale t))
    (Some (IPartialCrop.mk (Some (ICrop.top c)) (Some (ICrop.bottom c))
                           (Some (ICrop.left c)) (Some (ICrop.right c))))
    (Some (ITransform.rotation t)).

(** [item.getSettings()] as the argument of [setSettings]. *)
Definition fullPatch (s : ISceneItemSettings.t) : IPartialSettings.t :=
  IPartialSettings.mk
    (Some (fullTransformPatch (ISceneItemSettings.transform s)))
    (Some (ISceneItemSettings.visible s))
    (Some (ISceneItemSettings.locked s)).

(** Modelled from the spec: what a settings patch stores.  The fields of
    the patch are normalised when they are written, the others are kept. *)
Definition applySettings (p : IPartialSettings.t) (old : ISceneItemSettings.t)
  : ISceneItemSettings.t :=
  ISceneItemSettings.mk
    (match IPartialSettings.transform p with
     | Some tp =>
         mergeTransform (ISceneItemSettings.transform old) (normalizePatch tp)
     | None => ISceneItemSettings.transform old
     end)
    (pick (IPartialSettings.visible p) (ISceneItemSettings.visible old))
    (pick (IPartialSettings.locked p) (ISceneItemSettings.locked old)).

(** The item with other settings. *)
Definition withSettings (s : ISceneItemSettings.t) (i : ISceneItem.t)
  : ISceneItem.t :=
  ISceneItem.mk (ISceneItem.sceneItemId i) (ISceneItem.sourceId i) s
    (ISceneItem.parentId i).

(** ** The classes [Scene] and [SceneItem] *)

(** A [Scene] object is a handle on the scene of its id, a [SceneItem]
    object a handle on an item of a scene together with the model it was
    built from. *)
Module SceneItem.
Record t := mk { sceneId : string; model : ISceneItem.t }.
Definition sceneItemId (i : t) : string := ISceneItem.sceneItemId (model i).
Definition sourceId (i : t) : string := ISceneItem.sourceId (model i).
End SceneItem.

(** The world as it is, for the guards that read the store and the
    registry together. *)
Definition getWorld : M World := fun w => (w, Return w).

Module Scene.

(** Modelled from the spec: [Scene.getItems] (the class [Scene] is not
    among the sources) lists the items of the scene's node list in the
    order of the list; with [addSource] putting a new node first this is
    the "most-recently-added first" read order. *)
Definition getItems (scene : string) : M (list SceneItem.t) :=
  st <- getState ;;
  ret (map (SceneItem.mk scene) (itemsOf (nodesOf st scene))).

(** Modelled from the spec: [Scene.getModel], the record the store holds
    for the scene now. *)
Definition getModel (scene : string) : M (option IScene.t) :=
  st <- getState ;;
  ret (Dict.get (IScenesState.scenes st) scene).

(** Modelled from the spec: the walk of [addSource], "walk the candidate
    source's own node list transitively ... [looking for] the target scene
    id".  The walk descends through the items whose source is a scene;
    [fuel] bounds its depth. *)
Fixpoint hasNestedScene (fuel : nat) (w : World) (scene target : string)
  : bool :=
  match fuel with
  | O => false
  | S n =>
      existsb
        (fun i =>
           SourcesService.isScene w (ISceneItem.sourceId i)
           && (String.eqb (ISceneItem.sourceId i) target
               || hasNestedScene n w (ISceneItem.sourceId i) target))
        (itemsOf (nodesOf (state w) scene))
  end.

(** Modelled from the spec: the guard of [addSource].  An unknown source
    is refused; a scene-type source is refused when it is the target scene
    itself (direct self-embedding) or when the target appears in the walk
    from it (indirect cycle).  The walk is as deep as there are scenes. *)
Definition canAddSource (w : World) (scene sourceId : string) : bool :=
  match SourcesService.getSource w sourceId with
  | None => false
  | Some src =>
      if String.eqb (ISource.type src) "scene"
      then negb (String.eqb sourceId scene
                 || hasNestedScene
                      (length (IScenesState.scenes (state w))) w
                      sourceId scene)
      else true
  end.

(** Modelled from the spec: [addSource(sceneId, sourceId) -> Item |
    refusal].  A refusal is [null] and applies nothing; otherwise a new
    item with a fresh id and default settings is put first in the node list
    and item-added is emitted. *)
Definition addSource (scene sourceId : string) : M (option SceneItem.t) :=
  w <- getWorld ;;
  match Dict.get (IScenesState.scenes (state w)) scene with
  | None => ret None
  | Some _ =>
      if canAddSource w scene sourceId then
        itemId <- getUniqueId ;;
        let item := ISceneItem.mk itemId sourceId defaultSettings None in
        modifyState (mapNodes scene (fun nodes => Item item :: nodes)) ;;;
        emit (itemAdded scene item) ;;;
        ret (Some (SceneItem.mk scene item))
      else ret None
  end.

(** Modelled from the spec: [removeItem(sceneItemId)] "removes the node
    from its scene's list (and from its parent folder's child list if
    nested); the referenced Source is not deleted"; it emits item-removed.
    An unknown id changes nothing. *)
Definition removeItem (scene itemId : string) : M unit :=
  st <- getState ;;
  match findItem (nodesOf st scene) itemId with
  | None => ret tt
  | Some item =>
      modifyState (mapNodes scene (dropItem itemId)) ;;;
      emit (itemRemoved scene item)
  end.

(** Modelled from the spec: [createAndAddSource(name, type)] registers a
    new source of that name and type under a fresh id and adds it to the
    scene. *)
Definition createAndAddSource (scene name type : string)
  : M (option SceneItem.t) :=
  uid <- getUniqueId ;;
  let sourceId := (type ++ "_" ++ uid)%string in
  SourcesService.addSource sourceId name type ;;;
  addSource scene sourceId.

End Scene.

Module SceneItemApi.

(** Modelled from the spec: [SceneItem.getModel], the item a handle stands
    for, as the store has it now. *)
Definition getModel (i : SceneItem.t) : M (option ISceneItem.t) :=
  st <- getState ;;
  ret (findItem (nodesOf st (SceneItem.sceneId i)) (SceneItem.sceneItemId i)).

(** Modelled from the spec: [SceneItem.getSettings], the settings of the
    model the handle was built from. *)
Definition getSettings (i : SceneItem.t) : ISceneItemSettings.t :=
  ISceneItem.settings (SceneItem.model i).

(** Modelled from the spec: a settings patch is merged into the stored
    settings, normalised as it is written, and item-updated is emitted
    once.  A handle on an item that is gone changes nothing. *)
Definition setSettings (i : SceneItem.t) (p : IPartialSettings.t) : M unit :=
  st <- getState ;;
  let scene := SceneItem.sceneId i in
  let itemId := SceneItem.sceneItemId i in
  match findItem (nodesOf st scene) itemId with
  | None => ret tt
  | Some old =>
      let new := withSettings (applySettings p (ISceneItem.settings old)) old in
      modifyState (mapNodes scene (updateItem itemId (fun _ => new))) ;;;
      emit (itemUpdated scene new)
  end.

(** Modelled from the spec: [setTransform(patch)]. *)
Definition setTransform (i : SceneItem.t) (p : IPartialTransform.t) : M unit :=
  setSettings i (IPartialSettings.mk (Some p) None None).

(** Modelled from the spec: "[setVisibility(bool)], [setLocked(bool)]: flag
    toggles; emit item-updated". *)
Definition setVisibility (i : SceneItem.t) (b : bool) : M unit :=
  setSettings i (IPartialSettings.mk None (Some b) None).

(** Modelled from the spec: see [setVisibility]. *)
Definition setLocked (i : SceneItem.t) (b : bool) : M unit :=
  setSettings i (IPartialSettings.mk None None (Some b)).

End SceneItemApi.

(** ** [ScenesService] *)

(** The record [ADD_SCENE] stores for a new scene. *)
Definition freshScene (id name : string) : IScene.t :=
  IScene.mk id name ("Scene" ++ JSON_stringify_singleton id)%string [].

Module ScenesService.

(** [ADD_SCENE(id, name)]. *)
Definition ADD_SCENE (id name : string) : M unit :=
  modifyState (fun st =>
    IScenesState.mk
      (if truthy (IScenesState.activeSceneId st)
       then IScenesState.activeSceneId st else id)
      (IScenesState.displayOrder st ++ [id])
      (Dict.set (IScenesState.scenes st) id (freshScene id name))).

(** [REMOVE_SCENE(id)]. *)
Definition REMOVE_SCENE (id : string) : M unit :=
  modifyState (fun st =>
    IScenesState.mk (IScenesState.activeSceneId st)
      (without (IScenesState.displayOrder st) id)
      (Dict.delete (IScenesState.scenes st) id)).

(** [MAKE_SCENE_ACTIVE(id)]. *)
Definition MAKE_SCENE_ACTIVE (id : string) : M unit :=
  modifyState (fun st =>
    IScenesState.mk id (IScenesState.displayOrder st)
      (IScenesState.scenes st)).

(** [SET_SCENE_ORDER(order)]. *)
Definition SET_SCENE_ORDER (order : list string) : M unit :=
  modifyState (fun st =>
    IScenesState.mk (IScenesState.activeSceneId st) order
      (IScenesState.scenes st)).

(** [this.state.scenes[id]]: the object the store holds for the scene, or
    [undefined]. *)
Definition sceneOfState (id : string) : M (option IScene.t) :=
  st <- getState ;;
  ret (Dict.get (IScenesState.scenes st) id).

(** [getScene(id)]: [null] when the store has no such scene, else a
    [Scene] handle. *)
Definition getScene (id : string) : M (option string) :=
  st <- getState ;;
  ret (match Dict.get (IScenesState.scenes st) id with
       | None => None
       | Some _ => Some id
       end).

(** The loop of [getSceneByName]: the last scene of that name in
    [Object.keys] order. *)
Definition foundScene (st : IScenesState.t) (name : string)
  : option IScene.t :=
  fold_left
    (fun found id =>
       match Dict.get (IScenesState.scenes st) id with
       | Some scene =>
           if String.eqb (IScene.name scene) name then Some scene else found
       | None => found
       end)
    (Dict.keys (IScenesState.scenes st)) None.

(** [getSceneByName(name)]. *)
Definition getSceneByName (name : string) : M (option string) :=
  st <- getState ;;
  match foundScene st name with
  | Some scene => getScene (IScene.id scene)
  | None => ret None
  end.

(** The getter [scenes]: a handle, or [null], per entry of the display
    order. *)
Definition scenes : M (list (option string)) :=
  st <- getState ;;
  ret (map (fun id =>
              match Dict.get (IScenesState.scenes st) id with
              | None => None
              | Some _ => Some id
              end)
           (IScenesState.displayOrder st)).

(** [getSceneItems()]: the items of every scene of the display order;
    [getItems] on a [null] entry throws. *)
Fixpoint collectItems (l : list (option string)) : M (list SceneItem.t) :=
  match l with
  | [] => ret []
  | scene :: r =>
      s <- deref scene ;;
      items <- Scene.getItems s ;;
      rest <- collectItems r ;;
      ret (items ++ rest)
  end.

(** [getSceneItems()]. *)
Definition getSceneItems : M (list SceneItem.t) :=
  l <- scenes ;; collectItems l.

(** [makeSceneActive(id)].  The hand-over to the transitions service has
    no effect on the store. *)
Definition makeSceneActive (id : string) : M bool :=
  scene <- getScene id ;;
  match scene with
  | None => ret false
  | Some s =>
      MAKE_SCENE_ACTIVE id ;;;
      model <- Scene.getModel s ;;
      emit (sceneSwitched model) ;;;
      ret true
  end.

(** [setSceneOrder(order)]. *)
Definition setSceneOrder (order : list string) : M unit :=
  SET_SCENE_ORDER order.

(** The body of the [forEach] of [createScene]. *)
Definition duplicateItem (newScene : option string) (item : SceneItem.t)
  : M unit :=
  s <- deref newScene ;;
  newItem <- Scene.addSource s (SceneItem.sourceId item) ;;
  i <- deref newItem ;;
  SceneItemApi.setSettings i (fullPatch (SceneItemApi.getSettings item)).

(** [createScene(name, options)]. *)
Definition createScene (name : string) (options : ISceneCreateOptions.t)
  : M (option string) :=
  id <- match ISceneCreateOptions.sceneId options with
        | Some s =>
            if truthy s then ret s
            else (uid <- getUniqueId ;; ret ("scene_" ++ uid)%string)
        | None => uid <- getUniqueId ;; ret ("scene_" ++ uid)%string
        end ;;
  ADD_SCENE id name ;;;
  SourcesService.addSource id name "scene" ;;;
  match ISceneCreateOptions.duplicateSourcesFromScene options with
  | Some template =>
      if truthy template then
        oldScene <- getSceneByName template ;;
        newScene <- getScene id ;;
        old <- deref oldScene ;;
        items <- Scene.getItems old ;;
        forEach (rev items) (duplicateItem newScene)
      else ret tt
  | None => ret tt
  end ;;;
  model <- sceneOfState id ;;
  emit (sceneAdded model) ;;;
  (if ISceneCreateOptions.makeActive options
   then makeSceneActive id ;;; ret tt else ret tt) ;;;
  getSceneByName name.

(** The body of the first [forEach] of [removeScene]. *)
Definition removeOwnItem (scene : string) (sceneItem : SceneItem.t) : M unit :=
  Scene.removeItem scene (SceneItem.sceneItemId sceneItem).

(** The body of the second [forEach] of [removeScene]: an item whose source
    is the scene is removed from the scene that owns it. *)
Definition removeReference (scene : string) (sceneItem : SceneItem.t) : M unit :=
  if negb (String.eqb (SceneItem.sourceId sceneItem) scene) then ret tt
  else
    owner <- getScene (SceneItem.sceneId sceneItem) ;;
    o <- deref owner ;;
    Scene.removeItem o (SceneItem.sceneItemId sceneItem).

(** [removeScene(id, force)].  The source binds [sceneModel] to the object
    the store holds for the scene before the loops; the removals of the
    items mutate that same object, so what is emitted and returned at the
    end is the object as the loops left it, read here just before the store
    lets go of it. *)
Definition removeScene (id : string) (force : bool)
  : M (option IScene.t) :=
  st <- getState ;;
  if negb force && (length (Dict.keys (IScenesState.scenes st)) <? 2)%nat
  then alert "There needs to be at least one scene." ;;; ret None
  else
    scene <- getScene id ;;
    s <- deref scene ;;
    items <- Scene.getItems s ;;
    forEach items (removeOwnItem s) ;;;
    allItems <- getSceneItems ;;
    forEach allItems (removeReference s) ;;;
    sceneModel <- sceneOfState id ;;
    REMOVE_SCENE id ;;;
    st' <- getState ;;
    (if String.eqb (IScenesState.activeSceneId st') id then
       match Dict.keys (IScenesState.scenes st') with
       | k :: _ => if truthy k then makeSceneActive k ;;; ret tt else ret tt
       | [] => ret tt
       end
     else ret tt) ;;;
    emit (sceneRemoved sceneModel) ;;;
    ret sceneModel.

(** [getModel()]. *)
Definition getModel : M IScenesState.t := getState.

(** [getScenes()]. *)
Definition getScenes : M (list (option string)) := scenes.

(** The getter [activeSceneId]. *)
Definition activeSceneId : M string :=
  st <- getState ;; ret (IScenesState.activeSceneId st).

(** The getter [activeScene]. *)
Definition activeScene : M (option string) :=
  st <- getState ;; getScene (IScenesState.activeSceneId st).

(** The loop of [getSourceScenes]: a scene is pushed when it has an item of
    the source; [getItems] on a [null] entry of [this.scenes] throws. *)
Fixpoint collectSourceScenes (sourceId : string) (l : list (option string))
    (resultScenes : list string) : M (list string) :=
  match l with
  | [] => ret resultScenes
  | scene :: r =>
      s <- deref scene ;;
      all <- Scene.getItems s ;;
      let items :=
        filter (fun sceneItem => String.eqb (SceneItem.sourceId sceneItem) sourceId)
               all in
      collectSourceScenes sourceId r
        (if (0 <? length items)%nat then resultScenes ++ [s] else resultScenes)
  end.

(** [getSourceScenes(sourceId)]. *)
Definition getSourceScenes (sourceId : string) : M (list string) :=
  l <- scenes ;; collectSourceScenes sourceId l [].

End ScenesService.

(** ** Worlds to run the services on *)

(** A [getUniqueId] that counts in decimal. *)
Definition decimalIds (n : nat) : string :=
  NilEmpty.string_of_uint (Nat.to_uint n).

(** The world a computation leaves, and how it completes. *)
Definition run {A} (m : M A) (w : World) : World := fst (m w).

Definition result {A} (m : M A) (w : World) : Completion A := snd (m w).

(** The world of the application once its default scene exists. *)
Definition defaultWorld : World :=
  run (ScenesService.createScene "Scene" ISceneCreateOptions.empty)
      (initialWorld decimalIds).

(** [Object.keys(state.scenes).length]. *)
Definition sceneCount (w : World) : nat :=
  length (Dict.keys (IScenesState.scenes (state w))).


(** The id [createScene] gives the new scene: [options.sceneId] when it is
    truthy, else ['scene_'] and the next unique id. *)
Definition newSceneId (options : ISceneCreateOptions.t) (w : World) : string :=
  or_else (ISceneCreateOptions.sceneId options)
          ("scene_" ++ uniqueIds w (uniqueIdCalls w))%string.


(** The patches of the transform tests. *)
Definition rotationPatch (r : Q) : IPartialTransform.t :=
  IPartialTransform.mk None None None (Some r).


Definition transformOf (i : ISceneItem.t) : ITransform.t :=
  ISceneItemSettings.transform (ISceneItem.settings i).

(** The default world with a colour source on its scene, and the handle of
    that item. *)
Definition colorWorld : World :=
  run (Scene.createAndAddSource "scene_0" "MyColorSource" "color_source")
      defaultWorld.

Definition colorItem : SceneItem.t :=
  SceneItem.mk "scene_0"
    (ISceneItem.mk "2" "color_source_1" defaultSettings None).




(** [item['name']]: an item shows the name of its source. *)
Definition itemName (w : World) (i : SceneItem.t) : option string :=
  option_map ISource.name (SourcesService.getSource w (SceneItem.sourceId i)).

(** The item [addSource] makes for a source. *)
Definition newItem (w : World) (sourceId : string) : ISceneItem.t :=
  ISceneItem.mk (uniqueIds w (uniqueIdCalls w)) sourceId defaultSettings None.


(** The scenario of the scene-items test: two images added in turn. *)
Definition addTwoImages (scene : string) : M unit :=
  Scene.createAndAddSource scene "Image1" "image_source" ;;;
  Scene.createAndAddSource scene "Image2" "image_source" ;;;
  ret tt.

(** The world in which [createAndAddSource] adds its source to the scene. *)
Definition withNewSource (w : World) (name type : string) : World :=
  mkWorld (state w)
    (Dict.set (sources w) (type ++ "_" ++ uniqueIds w (uniqueIdCalls w))%string
       (ISource.mk (type ++ "_" ++ uniqueIds w (uniqueIdCalls w))%string
          name type))
    (events w) (alerts w) (uniqueIds w) (S (uniqueIdCalls w)).


(** ** The nesting relation *)

(** Scene [a] has an item whose source is the scene-type source [b]. *)
Definition nests (w : World) (a b : string) : Prop :=
  exists i,
    In i (itemsOf (nodesOf (state w) a))
    /\ ISceneItem.sourceId i = b
    /\ SourcesService.isScene w b = true.

(** [b] is reachable from [a] through "node references nested scene". *)
Definition contains (w : World) : string -> string -> Prop :=
  clos_trans string (nests w).

(** No scene is reachable from itself. *)
Definition acyclic (w : World) : Prop := forall a, ~ contains w a a.

(** A nesting path from [a] to [b], with the scenes it leaves from. *)
Inductive chain (w : World) : string -> list string -> string -> Prop :=
| chain_one a b : nests w a b -> chain w a [a] b
| chain_step a b l c : nests w a b -> chain w b l c -> chain w a (a :: l) c.

(** A sequence of [addSource] calls, each a scene and a source id. *)
Definition addSources (calls : list (string * string)) : M unit :=
  forEach calls (fun c => Scene.addSource (fst c) (snd c) ;;; ret tt).


(** The world of the nested-scenes test: scenes A, B and C next to the
    default scene, and the calls the test makes. *)
Definition nestedWorld : World :=
  run (ScenesService.createScene "SceneA" ISceneCreateOptions.empty ;;;
       ScenesService.createScene "SceneB" ISceneCreateOptions.empty ;;;
       ScenesService.createScene "SceneC" ISceneCreateOptions.empty)
      defaultWorld.

Definition nestingCalls : list (string * string) :=
  [("scene_1", "scene_2"); ("scene_3", "scene_1")].

(** No scene of the store has an item. *)
Definition withoutItems (w : World) : bool :=
  forallb (fun kv => match itemsOf (IScene.nodes (snd kv)) with
                     | [] => true
                     | _ => false
                     end)
          (IScenesState.scenes (state w)).


(** ** Removing a scene: the store it expects and what it removes *)

(** The node list without the items of the given ids, dropped in turn. *)
Definition dropItems (itemIds : list string) (nodes : list TSceneNode)
  : list TSceneNode :=
  fold_left (fun ns itemId => dropItem itemId ns) itemIds nodes.

Definition itemIds (items : list ISceneItem.t) : list string :=
  map ISceneItem.sceneItemId items.

(** The item references the scene [id] as its source. *)
Definition references (id : string) (i : ISceneItem.t) : bool :=
  String.eqb (ISceneItem.sourceId i) id.

(** The items of the other scenes that reference [id], scene by scene in
    display order. *)
Definition referencingItems (id : string) (st : IScenesState.t)
  : list SceneItem.t :=
  flat_map
    (fun k =>
       if String.eqb k id then []
       else map (SceneItem.mk k)
                (filter (references id) (itemsOf (nodesOf st k))))
    (IScenesState.displayOrder st).

(** A store as the services keep it: the display order lists every scene
    once, the items of a scene have distinct ids, and no scene has the empty
    id. *)
Definition consistent (w : World) : Prop :=
  let st := state w in
  NoDup (IScenesState.displayOrder st)
  /\ (forall k, In k (IScenesState.displayOrder st)
                <-> In k (Dict.keys (IScenesState.scenes st)))
  /\ (forall k sc, Dict.get (IScenesState.scenes st) k = Some sc ->
                   NoDup (itemIds (itemsOf (IScene.nodes sc))))
  /\ ~ In "" (Dict.keys (IScenesState.scenes st)).

Definition mem (k : string) (l : list string) : bool :=
  existsb (String.eqb k) l.

Fixpoint nodupb (l : list string) : bool :=
  match l with
  | [] => true
  | k :: r => negb (mem k r) && nodupb r
  end.

(** A check that decides [consistent]. *)
Definition consistentb (w : World) : bool :=
  let st := state w in
  let order := IScenesState.displayOrder st in
  let keys := Dict.keys (IScenesState.scenes st) in
  nodupb order
  && forallb (fun k => mem k keys) order
  && forallb (fun k => mem k order) keys
  && forallb (fun kv => nodupb (itemIds (itemsOf (IScene.nodes (snd kv)))))
             (IScenesState.scenes st)
  && negb (mem "" keys).

(** The event a removal of the item pushes. *)
Definition removedEvent (i : SceneItem.t) : Event :=
  itemRemoved (SceneItem.sceneId i) (SceneItem.model i).


(** The world with a new store and more events emitted. *)
Definition advance (w : World) (st : IScenesState.t) (emitted : list Event)
  : World :=
  mkWorld st (sources w) (events w ++ emitted) (alerts w)
    (uniqueIds w) (uniqueIdCalls w).


(** What the second loop of [removeScene] leaves of scene [k]: the items
    that reference [id] are dropped. *)
Definition purgeScene (id k : string) (st : IScenesState.t) : IScenesState.t :=
  mapNodes k
    (dropItems (itemIds (filter (references id) (itemsOf (nodesOf st k))))) st.

Definition purge (id : string) (ks : list string) (st : IScenesState.t)
  : IScenesState.t :=
  fold_left (fun st k => purgeScene id k st) ks st.

(** The items of every scene of a list, as [getSceneItems] collects them. *)
Definition itemsIn (st : IScenesState.t) (ks : list string) : list SceneItem.t :=
  flat_map (fun k => map (SceneItem.mk k) (itemsOf (nodesOf st k))) ks.


(** The scene [id] once its own items are removed. *)
Definition emptied (s : IScene.t) : IScene.t :=
  setNodes s (dropItems (itemIds (itemsOf (IScene.nodes s))) (IScene.nodes s)).

(** The store after the two loops of [removeScene(id)]. *)
Definition swept (id : string) (st : IScenesState.t) : IScenesState.t :=
  purge id (IScenesState.displayOrder st)
    (mapNodes id (dropItems (itemIds (itemsOf (nodesOf st id)))) st).

(** The scene that takes over when the active scene [id] is removed: the
    first one [Object.keys] lists. *)
Definition successor (id : string) (st : IScenesState.t) : option string :=
  match Dict.keys (Dict.delete (IScenesState.scenes (swept id st)) id) with
  | k :: _ => Some k
  | [] => None
  end.

(** The store [removeScene(id)] leaves. *)
Definition afterRemoval (id : string) (st : IScenesState.t) : IScenesState.t :=
  IScenesState.mk
    (if String.eqb (IScenesState.activeSceneId st) id
     then match successor id st with
          | Some k => k
          | None => IScenesState.activeSceneId st
          end
     else IScenesState.activeSceneId st)
    (without (IScenesState.displayOrder st) id)
    (Dict.delete (IScenesState.scenes (swept id st)) id).

(** The scene-switched event of [removeScene(id)], if any. *)
Definition switchedEvents (id : string) (st : IScenesState.t) : list Event :=
  if String.eqb (IScenesState.activeSceneId st) id
  then match successor id st with
       | Some k =>
           [sceneSwitched
              (Dict.get (Dict.delete (IScenesState.scenes (swept id st)) id) k)]
       | None => []
       end
  else [].

(** Every event of [removeScene(id)] on a scene [s], in order. *)
Definition removalEvents (id : string) (s : IScene.t) (st : IScenesState.t)
  : list Event :=
  map removedEvent (map (SceneItem.mk id) (itemsOf (IScene.nodes s)))
  ++ map removedEvent (referencingItems id st)
  ++ switchedEvents id st
  ++ [sceneRemoved (Some (emptied s))].


(** The nested world after the calls of the test, with scene A active. *)
Definition cascadeWorld : World :=
  run (addSources nestingCalls ;;; ScenesService.makeSceneActive "scene_1")
      nestedWorld.

(** Scene A in that world: it holds scene B. *)
Definition cascadeSceneA : IScene.t :=
  setNodes (freshScene "scene_1" "SceneA")
    [Item (ISceneItem.mk "4" "scene_2" defaultSettings None)].


(** ** Duplicating a scene *)

(** The item the copy loop of [createScene] makes of a template item: a new
    id, the same source, the template's settings written through
    [setSettings]. *)
Definition duplicateOf (uid : string) (i : ISceneItem.t) : ISceneItem.t :=
  ISceneItem.mk uid (ISceneItem.sourceId i)
    (applySettings (fullPatch (ISceneItem.settings i)) defaultSettings) None.

(** The copies of a list of items, the [n]-th with the unique id of call
    [c + n]. *)
Fixpoint duplicates (ids : nat -> string) (c : nat) (l : list ISceneItem.t)
  : list ISceneItem.t :=
  match l with
  | [] => []
  | a :: r => duplicateOf (ids c) a :: duplicates ids (S c) r
  end.

(** Every item of every scene has a registered source. *)
Definition sourcesKnown (w : World) : Prop :=
  forall k i,
    In i (itemsOf (nodesOf (state w) k)) ->
    SourcesService.getSource w (ISceneItem.sourceId i) <> None.

(** [getUniqueId] never returns the same id twice. *)
Definition uniqueIdsDistinct (w : World) : Prop :=
  forall m n, uniqueIds w m = uniqueIds w n -> m = n.

(** No item of any scene has the source [id]. *)
Definition unreferenced (id : string) (w : World) : Prop :=
  forall k i,
    In i (itemsOf (nodesOf (state w) k)) -> ISceneItem.sourceId i <> id.

(** The options of a plain duplication. *)
Definition duplicateOptions (template : string) : ISceneCreateOptions.t :=
  ISceneCreateOptions.mk (Some template) None false.

(** The default world with the two images of the scene-items test. *)
Definition imagesWorld : World := run (addTwoImages "scene_0") defaultWorld.


(** The events of the copy loop: per template item, item-added for the new
    item and item-updated for its settings. *)
Fixpoint duplicateEvents (newScene : string) (ids : nat -> string) (c : nat)
    (l : list ISceneItem.t) : list Event :=
  match l with
  | [] => []
  | a :: r =>
      itemAdded newScene
        (ISceneItem.mk (ids c) (ISceneItem.sourceId a) defaultSettings None)
      :: itemUpdated newScene (duplicateOf (ids c) a)
      :: duplicateEvents newScene ids (S c) r
  end.


(** The scene of the default world once it holds the two images. *)
Definition imagesScene : IScene.t :=
  match Dict.get (IScenesState.scenes (state imagesWorld)) "scene_0" with
  | Some s => s
  | None => freshScene "scene_0" "Scene"
  end.

(** A check that decides [sourcesKnown]. *)
Definition sourcesKnownb (w : World) : bool :=
  forallb
    (fun kv =>
       forallb
         (fun i =>
            match SourcesService.getSource w (ISceneItem.sourceId i) with
            | Some _ => true
            | None => false
            end)
         (itemsOf (IScene.nodes (snd kv))))
    (IScenesState.scenes (state w)).


(** ** The active scene *)

Definition isSwitched (e : Event) : bool :=
  match e with
  | sceneSwitched _ => true
  | _ => false
  end.

(** A computation that leaves the active scene and the set of scenes alone
    and emits no scene-switched event, however it ends. *)
Definition quiet {A} (m : M A) : Prop :=
  forall w,
    IScenesState.activeSceneId (state (run m w))
    = IScenesState.activeSceneId (state w)
    /\ Dict.keys (IScenesState.scenes (state (run m w)))
       = Dict.keys (IScenesState.scenes (state w))
    /\ exists l, events (run m w) = events w ++ l
                 /\ forallb (fun e => negb (isSwitched e)) l = true.

(** The worlds the services reach from the initial store; a scene is only
    removed by force while another one is left. *)
Inductive reachable : World -> Prop :=
| reachable_initial ids : reachable (initialWorld ids)
| reachable_createScene w name options :
    reachable w -> reachable (run (ScenesService.createScene name options) w)
| reachable_removeScene w id force :
    reachable w ->
    (force = true -> (2 <= sceneCount w)%nat) ->
    reachable (run (ScenesService.removeScene id force) w)
| reachable_makeSceneActive w id :
    reachable w -> reachable (run (ScenesService.makeSceneActive id) w)
| reachable_setSceneOrder w order :
    reachable w -> reachable (run (ScenesService.setSceneOrder order) w)
| reachable_addSource w scene sourceId :
    reachable w -> reachable (run (Scene.addSource scene sourceId) w)
| reachable_createAndAddSource w scene name type :
    reachable w -> reachable (run (Scene.createAndAddSource scene name type) w)
| reachable_removeItem w scene itemId :
    reachable w -> reachable (run (Scene.removeItem scene itemId) w)
| reachable_setSettings w i p :
    reachable w -> reachable (run (SceneItemApi.setSettings i p) w).

(** What holds of the active scene in every reachable world: it is unset
    exactly while there is no scene. *)
Definition activeSet (w : World) : Prop :=
  let st := state w in
  NoDup (Dict.keys (IScenesState.scenes st))
  /\ ~ In "" (Dict.keys (IScenesState.scenes st))
  /\ (sceneCount w = 0%nat -> IScenesState.activeSceneId st = "")
  /\ (sceneCount w <> 0%nat -> IScenesState.activeSceneId st <> "").


(** Running [m] from a world where [P] holds ends, however it ends, in a
    world where [Q] holds. *)
Definition hoare {A} (P : World -> Prop) (m : M A) (Q : World -> Prop) : Prop :=
  forall w, P w -> Q (run m w).

(** [activeSet], with a second scene to fall back on. *)
Definition activeSetSpare (w : World) : Prop :=
  activeSet w /\ (2 <= sceneCount w)%nat.


(** [w'] has the active scene and the scenes of [base], and its events are
    those of [base] and then some that are no scene-switched. *)
Definition quietlyAfter (base w' : World) : Prop :=
  IScenesState.activeSceneId (state w') = IScenesState.activeSceneId (state base)
  /\ Dict.keys (IScenesState.scenes (state w'))
     = Dict.keys (IScenesState.scenes (state base))
  /\ exists l, events w' = events base ++ l
               /\ forallb (fun e => negb (isSwitched e)) l = true.


(** ** Stores as the mutations build them *)

(** Every scene record is stored under its own id, as [ADD_SCENE] stores
    it. *)
Definition wellKeyed (st : IScenesState.t) : Prop :=
  forall k s, Dict.get (IScenesState.scenes st) k = Some s -> IScene.id s = k.

(** A check that decides [wellKeyed] on a store without repeated keys. *)
Definition wellKeyedb (st : IScenesState.t) : bool :=
  forallb (fun kv => String.eqb (IScene.id (snd kv)) (fst kv))
          (IScenesState.scenes st).

(** The options of a creation without a template. *)
Definition plainOptions (sceneId : option string) (makeActive : bool)
  : ISceneCreateOptions.t :=
  ISceneCreateOptions.mk None sceneId makeActive.

(** The store [createScene(name, options)] leaves when no template is
    given: [ADD_SCENE], and [MAKE_SCENE_ACTIVE] on request. *)
Definition created (id name : string) (makeActive : bool) (st : IScenesState.t)
  : IScenesState.t :=
  IScenesState.mk
    (if makeActive then id
     else if truthy (IScenesState.activeSceneId st)
          then IScenesState.activeSceneId st else id)
    (IScenesState.displayOrder st ++ [id])
    (Dict.set (IScenesState.scenes st) id (freshScene id name)).

(** The events of that creation. *)
Definition createdEvents (id name : string) (makeActive : bool) : list Event :=
  sceneAdded (Some (freshScene id name))
  :: (if makeActive then [sceneSwitched (Some (freshScene id name))] else []).

(** The handle [getSceneByName] answers with on a store. *)
Definition handleByName (st : IScenesState.t) (name : string) : option string :=
  match ScenesService.foundScene st name with
  | Some scene =>
      match Dict.get (IScenesState.scenes st) (IScene.id scene) with
      | None => None
      | Some _ => Some (IScene.id scene)
      end
  | None => None
  end.

(** The scene [k] has an item of the source. *)
Definition usesSource (sourceId : string) (st : IScenesState.t) (k : string)
  : bool :=
  existsb (references sourceId) (itemsOf (nodesOf st k)).

(** The display order names only scenes of the store. *)
Definition orderStored (st : IScenesState.t) : Prop :=
  forall k, In k (IScenesState.displayOrder st) ->
            Dict.get (IScenesState.scenes st) k <> None.

(** The active scene is a scene of the store while there is one. *)
Definition activeStored (w : World) : Prop :=
  activeSet w
  /\ (sceneCount w <> 0%nat ->
      In (IScenesState.activeSceneId (state w))
         (Dict.keys (IScenesState.scenes (state w)))).

(** [activeStored], with a second scene to fall back on. *)
Definition activeStoredSpare (w : World) : Prop :=
  activeStored w /\ (2 <= sceneCount w)%nat.

(** The images world once the display order names a scene that is not
    there. *)
Definition ghostOrderWorld : World :=
  run (ScenesService.setSceneOrder ["scene_0"; "ghost"]) imagesWorld.


(** The scene [k] is stored as [sk] and the display order does not list
    it. *)
Definition unlisted (k : string) (sk : IScene.t) (w : World) : Prop :=
  Dict.get (IScenesState.scenes (state w)) k = Some sk
  /\ ~ In k (IScenesState.displayOrder (state w)).

(** The cascade world once scene C, which holds scene A, is left out of
    the display order. *)
Definition hiddenWorld : World :=
  run (ScenesService.setSceneOrder ["scene_0"; "scene_1"; "scene_2"])
      cascadeWorld.

(** Every scene record carries the id it is stored under and the resource
    id [ADD_SCENE] derives from it. *)
Definition stamped (w : World) : Prop :=
  forall k s,
    Dict.get (IScenesState.scenes (state w)) k = Some s ->
    IScene.id s = k
    /\ IScene.resourceId s = ("Scene" ++ JSON_stringify_singleton k)%string.




(** The store has at least [n] scenes, each under a key of its own. *)
Definition populated (n : nat) (w : World) : Prop :=
  NoDup (Dict.keys (IScenesState.scenes (state w))) /\ (n <= sceneCount w)%nat.


(** ** Node lists with folders *)

(** The folder without the ids [removed] in its child list. *)
Definition withoutChildren (removed : list string) (f : ISceneItemFolder.t)
  : ISceneItemFolder.t :=
  ISceneItemFolder.mk (ISceneItemFolder.id f) (ISceneItemFolder.name f)
    (filter (fun c => negb (mem c removed)) (ISceneItemFolder.childrenIds f))
    (ISceneItemFolder.parentId f).

(** What is left of a node list once the items of the ids [removed] are
    gone: the other items as they were, and every folder, with those ids
    taken out of its child list. *)
Definition leftNodes (removed : list string) (nodes : list TSceneNode)
  : list TSceneNode :=
  flat_map
    (fun n =>
       match n with
       | Item i =>
           if mem (ISceneItem.sceneItemId i) removed then [] else [Item i]
       | Folder f => [Folder (withoutChildren removed f)]
       end)
    nodes.

(** The node list with the item [itemId] put in a new folder. *)
Definition grouped (folderId itemId : string) (nodes : list TSceneNode)
  : list TSceneNode :=
  Folder (ISceneItemFolder.mk folderId "Group" [itemId] None)
  :: updateItem itemId
       (fun i => ISceneItem.mk (ISceneItem.sceneItemId i) (ISceneItem.sourceId i)
                   (ISceneItem.settings i) (Some folderId))
       nodes.

(** The cascade world with the item of scene A and the item of scene C each
    put in a folder. *)
Definition folderWorld : World :=
  mkWorld
    (mapNodes "scene_3" (grouped "g1" "5")
       (mapNodes "scene_1" (grouped "f1" "4") (state cascadeWorld)))
    (sources cascadeWorld) (events cascadeWorld) (alerts cascadeWorld)
    (uniqueIds cascadeWorld) (uniqueIdCalls cascadeWorld).

(** The store once [makeSceneActive(id)] has run on request. *)
Definition activated (makeActive : bool) (id : string) (st : IScenesState.t)
  : IScenesState.t :=
  if makeActive
  then IScenesState.mk id (IScenesState.displayOrder st) (IScenesState.scenes st)
  else st.

(** * Properties *)

Arguments String.append : simpl never.
Arguments freshScene : simpl never.

(** Runs the monadic plumbing of a goal. *)
Ltac msimpl :=
  repeat (progress (unfold bind, ret, throw, getState, getWorld, modifyState,
                      emit, alert, getUniqueId, deref; simpl)).

(** ** The monad *)

Lemma bind_Return {A B} (m : M A) (f : A -> M B) w w1 a :
  m w = (w1, Return a) -> bind m f w = f a w1.
Proof. intros H. unfold bind. now rewrite H. Qed.

Lemma forEach_app {A} (l1 l2 : list A) (f : A -> M unit) w :
  forEach (l1 ++ l2) f w = (forEach l1 f ;;; forEach l2 f) w.
Proof.
  revert w. induction l1 as [|a r IH]; intros w; simpl.
  - reflexivity.
  - unfold bind. destruct (f a w) as [w1 [[]|e]]; [|reflexivity].
    rewrite IH. reflexivity.
Qed.

(** ** Dictionaries *)

Section DictFacts.
Context {V : Type}.
Implicit Types (d : Dict.t V) (k : string) (v : V).

Lemma get_replace d k v k' :
  Dict.get (Dict.replace k v d) k' =
  if String.eqb k k'
  then match Dict.get d k with Some _ => Some v | None => None end
  else Dict.get d k'.
Proof.
  induction d as [|[k0 v0] r IH]; simpl.
  - now destruct (String.eqb k k').
  - destruct (String.eqb k0 k) eqn:E0; simpl.
    + apply String.eqb_eq in E0; subst k0.
      now destruct (String.eqb k k').
    + destruct (String.eqb k0 k') eqn:E1.
      * apply String.eqb_eq in E1; subst k0.
        rewrite String.eqb_sym in E0. now rewrite E0.
      * exact IH.
Qed.

Lemma get_app d1 d2 k :
  Dict.get (d1 ++ d2) k =
  match Dict.get d1 k with Some v => Some v | None => Dict.get d2 k end.
Proof.
  induction d1 as [|[k0 v0] r IH]; simpl; [reflexivity|].
  now destruct (String.eqb k0 k).
Qed.

(** A fresh key lands somewhere between the old bindings. *)
Lemma insert_index_split n k v d :
  exists d1 d2, d = d1 ++ d2 /\ Dict.insert_index n k v d = d1 ++ (k, v) :: d2.
Proof.
  induction d as [|[k0 v0] r IH]; simpl.
  - now exists [], [].
  - destruct (Dict.array_index k0) as [m|].
    + destruct (m <? n)%N.
      * destruct IH as (d1 & d2 & -> & ->).
        now exists ((k0, v0) :: d1), d2.
      * now exists [], ((k0, v0) :: r).
    + now exists [], ((k0, v0) :: r).
Qed.

Lemma set_fresh_split d k v :
  Dict.get d k = None ->
  exists d1 d2, d = d1 ++ d2 /\ Dict.set d k v = d1 ++ (k, v) :: d2.
Proof.
  intros H. unfold Dict.set. rewrite H.
  destruct (Dict.array_index k) as [n|].
  - apply insert_index_split.
  - exists d, []. now rewrite app_nil_r.
Qed.

Lemma get_set d k v k' :
  Dict.get (Dict.set d k v) k' =
  if String.eqb k k' then Some v else Dict.get d k'.
Proof.
  destruct (Dict.get d k) as [v0|] eqn:G.
  - unfold Dict.set. rewrite G, get_replace, G. reflexivity.
  - destruct (set_fresh_split d k v G) as (d1 & d2 & Hd & ->).
    subst d. rewrite get_app in G |- *. simpl.
    destruct (String.eqb k k') eqn:E.
    + apply String.eqb_eq in E; subst k'.
      destruct (Dict.get d1 k); [discriminate | reflexivity].
    + rewrite get_app. reflexivity.
Qed.

Lemma keys_replace d k v : Dict.keys (Dict.replace k v d) = Dict.keys d.
Proof.
  induction d as [|[k0 v0] r IH]; simpl; [reflexivity|].
  destruct (String.eqb k0 k); simpl; [reflexivity | now rewrite IH].
Qed.

Lemma get_In_keys d k v : Dict.get d k = Some v -> In k (Dict.keys d).
Proof.
  induction d as [|[k0 v0] r IH]; simpl; [discriminate|].
  destruct (String.eqb k0 k) eqn:E.
  - apply String.eqb_eq in E. now left.
  - intros H. right. now apply IH.
Qed.

Lemma get_None_not_In d k : Dict.get d k = None -> ~ In k (Dict.keys d).
Proof.
  induction d as [|[k0 v0] r IH]; simpl; [tauto|].
  destruct (String.eqb k0 k) eqn:E; [discriminate|].
  apply String.eqb_neq in E. intros H [H1|H1]; [easy | now apply IH].
Qed.

Lemma get_delete d k k' :
  Dict.get (Dict.delete d k) k' =
  if String.eqb k k' then None else Dict.get d k'.
Proof.
  induction d as [|[k0 v0] r IH]; simpl.
  - now destruct (String.eqb k k').
  - destruct (String.eqb k0 k) eqn:E0; simpl.
    + apply String.eqb_eq in E0; subst k0. rewrite IH.
      now destruct (String.eqb k k').
    + rewrite IH. destruct (String.eqb k0 k') eqn:E1; [|reflexivity].
      apply String.eqb_eq in E1; subst k0.
      rewrite String.eqb_sym in E0. now rewrite E0.
Qed.

End DictFacts.

(** ** Removing the last scene *)

(** C2. With exactly one scene, [removeScene(id)] without [force] mutates
    nothing: the store (scene count, every node list, display order, active
    scene) and the source registry are as before, no event is emitted (so no
    scene-removed), and the caller gets [undefined]; the only effect is the
    alert box. *)
Theorem removeScene_last_scene_refused (w : World) (id : string) :
  sceneCount w = 1%nat ->
  result (ScenesService.removeScene id false) w = Return None
  /\ state (run (ScenesService.removeScene id false) w) = state w
  /\ sceneCount (run (ScenesService.removeScene id false) w) = 1%nat
  /\ events (run (ScenesService.removeScene id false) w) = events w
  /\ sources (run (ScenesService.removeScene id false) w) = sources w
  /\ alerts (run (ScenesService.removeScene id false) w) =
     alerts w ++ ["There needs to be at least one scene."].
Proof.
  intros H. unfold result, run, sceneCount in *.
  unfold ScenesService.removeScene, bind, getState. simpl.
  rewrite H. simpl. repeat split; assumption.
Qed.

Lemma removeScene_last_scene_refused_witness :
  sceneCount defaultWorld = 1%nat
  /\ result (ScenesService.removeScene "scene_0" false) defaultWorld
     = Return None
  /\ state (run (ScenesService.removeScene "scene_0" false) defaultWorld)
     = state defaultWorld
  /\ events (run (ScenesService.removeScene "scene_0" false) defaultWorld)
     = events defaultWorld.
Proof.
  destruct (removeScene_last_scene_refused defaultWorld "scene_0" eq_refl)
    as (Hres & Hstate & _ & Hevents & _).
  split; [reflexivity|]. split; [exact Hres|]. split; [exact Hstate|].
  exact Hevents.
Defined.

(** ** Reordering the scenes *)

(** C3, as the code has it. [setSceneOrder(ids)] validates nothing: whatever
    [ids] is, permutation of the scene ids or not, it becomes the display
    order; the scenes, the active scene, the registry and the events are
    untouched. *)
Theorem setSceneOrder_replaces_unconditionally (w : World) (ids : list string) :
  result (ScenesService.setSceneOrder ids) w = Return tt
  /\ IScenesState.displayOrder (state (run (ScenesService.setSceneOrder ids) w))
     = ids
  /\ IScenesState.scenes (state (run (ScenesService.setSceneOrder ids) w))
     = IScenesState.scenes (state w)
  /\ IScenesState.activeSceneId (state (run (ScenesService.setSceneOrder ids) w))
     = IScenesState.activeSceneId (state w)
  /\ events (run (ScenesService.setSceneOrder ids) w) = events w
  /\ sources (run (ScenesService.setSceneOrder ids) w) = sources w.
Proof. repeat split. Qed.

(** C3 fails as stated: on the default world, whose only scene is
    ["scene_0"], the order [["ghost"]] is no permutation of the scene ids, and
    yet it is stored. *)
Lemma setSceneOrder_accepts_non_permutation :
  ~ Permutation ["ghost"] (Dict.keys (IScenesState.scenes (state defaultWorld)))
  /\ ~ Permutation ["ghost"] (IScenesState.displayOrder (state defaultWorld))
  /\ IScenesState.displayOrder
       (state (run (ScenesService.setSceneOrder ["ghost"]) defaultWorld))
     <> IScenesState.displayOrder (state defaultWorld).
Proof.
  repeat split.
  - intros P. apply Permutation_length_1 in P. discriminate.
  - intros P. apply Permutation_length_1 in P. discriminate.
  - discriminate.
Qed.

(** ** Creating a scene *)

Lemma foundScene_last (st : IScenesState.t) (d : Dict.t IScene.t)
    (id name : string) (s : IScene.t) :
  IScenesState.scenes st = d ++ [(id, s)] ->
  Dict.get d id = None ->
  IScene.name s = name ->
  ScenesService.foundScene st name = Some s.
Proof.
  intros Hs Hd Hn. unfold ScenesService.foundScene, Dict.keys.
  rewrite Hs, map_app, fold_left_app. simpl.
  rewrite get_app, Hd. simpl. rewrite String.eqb_refl, Hn, String.eqb_refl.
  reflexivity.
Qed.

(** [createScene(name)] with the default options and a new id: the scene is
    stored last, registered as a source, announced, and returned. *)
Lemma createScene_plain (w : World) (name : string) :
  let id := newSceneId ISceneCreateOptions.empty w in
  let st := state w in
  Dict.get (IScenesState.scenes st) id = None ->
  ScenesService.createScene name ISceneCreateOptions.empty w =
  (mkWorld
     (IScenesState.mk
        (if truthy (IScenesState.activeSceneId st)
         then IScenesState.activeSceneId st else id)
        (IScenesState.displayOrder st ++ [id])
        (IScenesState.scenes st ++ [(id, freshScene id name)]))
     (Dict.set (sources w) id (ISource.mk id name "scene"))
     (events w ++ [sceneAdded (Some (freshScene id name))])
     (alerts w) (uniqueIds w) (S (uniqueIdCalls w)),
   Return (Some id)).
Proof.
  intros id st Hfresh. subst st.
  unfold newSceneId in id. simpl in id. subst id.
  unfold ScenesService.createScene, ScenesService.ADD_SCENE,
    SourcesService.addSource, ScenesService.sceneOfState, ScenesService.getSceneByName,
    ScenesService.getScene.
  msimpl.
  set (id := ("scene_" ++ _)%string) in *.
  assert (Hset : Dict.set (IScenesState.scenes (state w)) id (freshScene id name)
                 = IScenesState.scenes (state w) ++ [(id, freshScene id name)]).
  { unfold Dict.set. rewrite Hfresh. subst id. reflexivity. }
  rewrite Hset.
  rewrite get_app, Hfresh. simpl. rewrite String.eqb_refl.
  erewrite foundScene_last; [| reflexivity | exact Hfresh | reflexivity].
  simpl. rewrite get_app, Hfresh. simpl. rewrite String.eqb_refl.
  reflexivity.
Qed.

(** C4, as the code has it. [createScene] does not look at the name: with
    the empty name (default options, a new id) it registers a scene of that
    name, emits scene-added for it and returns its handle, not [null]; the
    check for an empty name is left to the caller. *)
Theorem createScene_empty_name_creates (w : World) :
  let id := newSceneId ISceneCreateOptions.empty w in
  let w' := run (ScenesService.createScene "" ISceneCreateOptions.empty) w in
  Dict.get (IScenesState.scenes (state w)) id = None ->
  result (ScenesService.createScene "" ISceneCreateOptions.empty) w
  = Return (Some id)
  /\ Dict.get (IScenesState.scenes (state w')) id = Some (freshScene id "")
  /\ sceneCount w' = S (sceneCount w)
  /\ events w' = events w ++ [sceneAdded (Some (freshScene id ""))].
Proof.
  intros id w' Hfresh. subst w'. unfold result, run, sceneCount.
  rewrite (createScene_plain w "" Hfresh). simpl. fold id.
  repeat split.
  - rewrite get_app, Hfresh. simpl. now rewrite String.eqb_refl.
  - unfold Dict.keys. rewrite !length_map, length_app. simpl. lia.
Qed.

Lemma createScene_empty_name_creates_witness :
  Dict.get (IScenesState.scenes (state defaultWorld))
    (newSceneId ISceneCreateOptions.empty defaultWorld) = None
  /\ result (ScenesService.createScene "" ISceneCreateOptions.empty) defaultWorld
     = Return (Some "scene_1")
  /\ events (run (ScenesService.createScene "" ISceneCreateOptions.empty)
               defaultWorld)
     = events defaultWorld ++ [sceneAdded (Some (freshScene "scene_1" ""))].
Proof.
  pose proof (createScene_empty_name_creates defaultWorld eq_refl) as H.
  split; [reflexivity|]. split; [apply H | apply H].
Defined.

(** C4 fails as stated: on the initial world [createScene('')] returns a
    scene handle, the store has one more scene, and scene-added is emitted. *)
Lemma createScene_empty_name_not_refused :
  let w := initialWorld decimalIds in
  let m := ScenesService.createScene "" ISceneCreateOptions.empty in
  result m w = Return (Some "scene_0")
  /\ sceneCount w = 0%nat /\ sceneCount (run m w) = 1%nat
  /\ events (run m w) = [sceneAdded (Some (freshScene "scene_0" ""))].
Proof. repeat split. Qed.

(** ** Node lists and item updates *)

Lemma nodesOf_mapNodes_same st scene f sc :
  Dict.get (IScenesState.scenes st) scene = Some sc ->
  nodesOf (mapNodes scene f st) scene = f (nodesOf st scene).
Proof.
  intros H. unfold nodesOf, mapNodes. rewrite H. simpl.
  now rewrite get_set, String.eqb_refl.
Qed.

Lemma nodesOf_mapNodes_other st scene f scene' :
  scene <> scene' ->
  nodesOf (mapNodes scene f st) scene' = nodesOf st scene'.
Proof.
  intros H. unfold nodesOf, mapNodes.
  destruct (Dict.get (IScenesState.scenes st) scene); [|reflexivity].
  simpl. rewrite get_set. apply String.eqb_neq in H. now rewrite H.
Qed.

Lemma findItem_scene_exists st scene itemId i :
  findItem (nodesOf st scene) itemId = Some i ->
  exists sc, Dict.get (IScenesState.scenes st) scene = Some sc.
Proof.
  unfold nodesOf. destruct (Dict.get (IScenesState.scenes st) scene) as [sc|].
  - intros _. now exists sc.
  - discriminate.
Qed.

Lemma findItem_updateItem_same nodes itemId old new :
  findItem nodes itemId = Some old ->
  ISceneItem.sceneItemId new = itemId ->
  findItem (updateItem itemId (fun _ => new) nodes) itemId = Some new.
Proof.
  unfold findItem. intros H Hid.
  induction nodes as [|[i|f] r IH]; simpl in *.
  - discriminate.
  - destruct (String.eqb (ISceneItem.sceneItemId i) itemId) eqn:E; simpl.
    + now rewrite Hid, String.eqb_refl.
    + rewrite E. now apply IH.
  - now apply IH.
Qed.

(** What [setSettings] does to an item that is there. *)
Lemma setSettings_found w i p old :
  findItem (nodesOf (state w) (SceneItem.sceneId i)) (SceneItem.sceneItemId i)
  = Some old ->
  let new := withSettings (applySettings p (ISceneItem.settings old)) old in
  SceneItemApi.setSettings i p w =
  (mkWorld
     (mapNodes (SceneItem.sceneId i)
        (updateItem (SceneItem.sceneItemId i) (fun _ => new)) (state w))
     (sources w) (events w ++ [itemUpdated (SceneItem.sceneId i) new])
     (alerts w) (uniqueIds w) (uniqueIdCalls w),
   Return tt).
Proof.
  intros H new. unfold SceneItemApi.setSettings. msimpl. rewrite H.
  reflexivity.
Qed.

Lemma findItem_id nodes itemId i :
  findItem nodes itemId = Some i -> ISceneItem.sceneItemId i = itemId.
Proof.
  unfold findItem. intros H. apply find_some in H.
  now apply String.eqb_eq.
Qed.

(** Reading an item back after [setSettings]. *)
Lemma getModel_setSettings w i p old :
  findItem (nodesOf (state w) (SceneItem.sceneId i)) (SceneItem.sceneItemId i)
  = Some old ->
  result (SceneItemApi.getModel i) (run (SceneItemApi.setSettings i p) w)
  = Return (Some (withSettings (applySettings p (ISceneItem.settings old)) old)).
Proof.
  intros H. unfold result, run. rewrite (setSettings_found w i p old H).
  unfold SceneItemApi.getModel. msimpl.
  destruct (findItem_scene_exists _ _ _ _ H) as [sc Hsc].
  rewrite (nodesOf_mapNodes_same _ _ _ sc Hsc).
  erewrite findItem_updateItem_same; [reflexivity | exact H |].
  simpl. now apply findItem_id in H.
Qed.

(** ** Rotation *)

Lemma div360 (x : Q) : (x == 360 * (x / 360))%Q.
Proof. field. Qed.

Lemma js_rem_360_bounds (x : Q) :
  (-360 < js_rem x 360 /\ js_rem x 360 < 360)%Q.
Proof.
  unfold js_rem, js_trunc.
  pose proof (div360 x) as E. set (q := (x / 360)%Q) in *. clearbody q.
  destruct (Qle_bool 0 q) eqn:B.
  - pose proof (Qfloor_le q). pose proof (Qlt_floor q).
    rewrite inject_Z_plus in *. apply Qle_bool_iff in B.
    set (f := inject_Z (Qfloor q)) in *. clearbody f.
    change (inject_Z 1) with 1%Q in *. split; lra.
  - pose proof (Qle_ceiling q). pose proof (Qceiling_lt q).
    unfold Z.sub in *. rewrite inject_Z_plus, inject_Z_opp in *.
    set (f := inject_Z (Qceiling q)) in *. clearbody f.
    change (inject_Z 1) with 1%Q in *.
    assert (~ (0 <= q)%Q) by (intros C; apply Qle_bool_iff in C; congruence).
    split; lra.
Qed.

Lemma js_rem_360_nonneg (x : Q) :
  (0 <= x)%Q -> (0 <= js_rem x 360 /\ js_rem x 360 < 360)%Q.
Proof.
  intros Hx. unfold js_rem, js_trunc.
  pose proof (div360 x) as E. set (q := (x / 360)%Q) in *. clearbody q.
  assert (B : Qle_bool 0 q = true) by (apply Qle_bool_iff; lra).
  rewrite B.
  pose proof (Qfloor_le q). pose proof (Qlt_floor q).
  rewrite inject_Z_plus in *.
  set (f := inject_Z (Qfloor q)) in *. clearbody f.
  change (inject_Z 1) with 1%Q in *. split; lra.
Qed.

Lemma normalizeRotation_range (r : Q) :
  (0 <= normalizeRotation r /\ normalizeRotation r < 360)%Q.
Proof.
  unfold normalizeRotation. apply js_rem_360_nonneg.
  pose proof (js_rem_360_bounds r). lra.
Qed.

(** The normalised rotation differs from the given one by whole turns. *)
Lemma normalizeRotation_turns (r : Q) :
  exists k : Z, (normalizeRotation r == r - 360 * inject_Z k)%Q.
Proof.
  unfold normalizeRotation, js_rem.
  set (k1 := js_trunc (r / 360)).
  set (k2 := js_trunc ((r - 360 * inject_Z k1 + 360) / 360)).
  exists (k1 + k2 - 1)%Z. unfold Z.sub.
  rewrite !inject_Z_plus, inject_Z_opp. change (inject_Z 1) with 1%Q. ring.
Qed.

(** On an integer the normalised rotation is the mathematical [mod 360]. *)
Lemma normalizeRotation_integer (z : Z) :
  (normalizeRotation (inject_Z z) == inject_Z (z mod 360))%Q.
Proof.
  destruct (normalizeRotation_turns (inject_Z z)) as [k Hk].
  pose proof (normalizeRotation_range (inject_Z z)) as [H0 H1].
  rewrite Hk in H0, H1 |- *.
  change 360%Q with (inject_Z 360) in *. change 0%Q with (inject_Z 0) in H0.
  unfold Qminus in *.
  rewrite <- inject_Z_mult, <- inject_Z_opp, <- inject_Z_plus in H0, H1 |- *.
  rewrite <- Zle_Qle in H0. rewrite <- Zlt_Qlt in H1.
  apply inject_Z_injective.
  apply (Z.mod_unique z 360 k); lia.
Qed.

(** C7. For every rational [r], [setTransform({rotation: r})] on an item
    followed by a read of its model yields [((r % 360) + 360) % 360]; the
    stored rotation lies in [0, 360), and for an integer [r] it is
    [r mod 360]. *)
Theorem setTransform_rotation_normalized
    (w : World) (i : SceneItem.t) (r : Q) (old : ISceneItem.t) :
  findItem (nodesOf (state w) (SceneItem.sceneId i)) (SceneItem.sceneItemId i)
  = Some old ->
  exists new,
    result (SceneItemApi.getModel i)
      (run (SceneItemApi.setTransform i (rotationPatch r)) w)
    = Return (Some new)
    /\ ITransform.rotation (transformOf new) = js_rem (js_rem r 360 + 360)%Q 360
    /\ (0 <= ITransform.rotation (transformOf new))%Q
    /\ (ITransform.rotation (transformOf new) < 360)%Q
    /\ (forall z : Z, r = inject_Z z ->
        (ITransform.rotation (transformOf new) == inject_Z (z mod 360))%Q).
Proof.
  intros H. eexists. split.
  - unfold SceneItemApi.setTransform. apply (getModel_setSettings w i _ old H).
  - unfold transformOf. simpl. fold (normalizeRotation r).
    pose proof (normalizeRotation_range r) as [H0 H1].
    repeat split; try assumption.
    intros z ->. apply normalizeRotation_integer.
Qed.

Lemma setTransform_rotation_normalized_witness :
  findItem (nodesOf (state colorWorld) (SceneItem.sceneId colorItem))
    (SceneItem.sceneItemId colorItem) = Some (SceneItem.model colorItem)
  /\ exists new,
       result (SceneItemApi.getModel colorItem)
         (run (SceneItemApi.setTransform colorItem (rotationPatch 450))
            colorWorld)
       = Return (Some new)
       /\ ITransform.rotation (transformOf new) = 90%Q.
Proof.
  split; [reflexivity|].
  destruct (setTransform_rotation_normalized colorWorld colorItem 450
              (SceneItem.model colorItem) eq_refl) as (new & H1 & H2 & _).
  exists new. split; [exact H1 | rewrite H2; reflexivity].
Defined.

(** The second example of C7: -10 reads back as 350. *)
Example rotation_minus_10 :
  exists new,
    result (SceneItemApi.getModel colorItem)
      (run (SceneItemApi.setTransform colorItem (rotationPatch (-10)))
         colorWorld)
    = Return (Some new)
    /\ ITransform.rotation (transformOf new) = 350%Q.
Proof. eexists. split; reflexivity. Qed.

(** ** Crop *)





(** ** Adding a source to a scene *)

Lemma addSource_accepted w scene sourceId sc :
  Dict.get (IScenesState.scenes (state w)) scene = Some sc ->
  Scene.canAddSource w scene sourceId = true ->
  Scene.addSource scene sourceId w =
  (mkWorld
     (mapNodes scene (fun nodes => Item (newItem w sourceId) :: nodes) (state w))
     (sources w) (events w ++ [itemAdded scene (newItem w sourceId)])
     (alerts w) (uniqueIds w) (S (uniqueIdCalls w)),
   Return (Some (SceneItem.mk scene (newItem w sourceId)))).
Proof.
  intros Hs Hc. unfold Scene.addSource. msimpl. rewrite Hs, Hc. reflexivity.
Qed.

Lemma addSource_refused w scene sourceId :
  Scene.canAddSource w scene sourceId = false ->
  Scene.addSource scene sourceId w = (w, Return None).
Proof.
  intros Hc. unfold Scene.addSource. msimpl. rewrite Hc.
  now destruct (Dict.get (IScenesState.scenes (state w)) scene).
Qed.

Lemma addSource_unknown_scene w scene sourceId :
  Dict.get (IScenesState.scenes (state w)) scene = None ->
  Scene.addSource scene sourceId w = (w, Return None).
Proof.
  intros Hs. unfold Scene.addSource. msimpl. now rewrite Hs.
Qed.

(** [addSource] either applies nothing and returns [null], or adds one item
    in front. *)
Lemma addSource_cases w scene sourceId :
  Scene.addSource scene sourceId w = (w, Return None)
  \/ (exists sc,
        Dict.get (IScenesState.scenes (state w)) scene = Some sc
        /\ Scene.canAddSource w scene sourceId = true
        /\ Scene.addSource scene sourceId w =
           (mkWorld
              (mapNodes scene (fun nodes => Item (newItem w sourceId) :: nodes)
                 (state w))
              (sources w) (events w ++ [itemAdded scene (newItem w sourceId)])
              (alerts w) (uniqueIds w) (S (uniqueIdCalls w)),
            Return (Some (SceneItem.mk scene (newItem w sourceId))))).
Proof.
  destruct (Dict.get (IScenesState.scenes (state w)) scene) as [sc|] eqn:Hs.
  - destruct (Scene.canAddSource w scene sourceId) eqn:Hc.
    + right. exists sc. repeat split; try assumption.
      now apply addSource_accepted with sc.
    + left. now apply addSource_refused.
  - left. now apply addSource_unknown_scene.
Qed.

Lemma createAndAddSource_spec w scene name type sc :
  Dict.get (IScenesState.scenes (state w)) scene = Some sc ->
  String.eqb type "scene" = false ->
  let w1 := withNewSource w name type in
  let sourceId := (type ++ "_" ++ uniqueIds w (uniqueIdCalls w))%string in
  Scene.createAndAddSource scene name type w =
  (mkWorld
     (mapNodes scene (fun nodes => Item (newItem w1 sourceId) :: nodes) (state w))
     (sources w1) (events w ++ [itemAdded scene (newItem w1 sourceId)])
     (alerts w) (uniqueIds w) (S (S (uniqueIdCalls w))),
   Return (Some (SceneItem.mk scene (newItem w1 sourceId)))).
Proof.
  intros Hs Ht w1 sourceId.
  unfold Scene.createAndAddSource, SourcesService.addSource. msimpl.
  assert (Hc : Scene.canAddSource w1 scene sourceId = true).
  { unfold Scene.canAddSource, SourcesService.getSource. subst w1. simpl.
    fold sourceId. rewrite get_set, String.eqb_refl. simpl. now rewrite Ht. }
  exact (addSource_accepted w1 scene sourceId sc Hs Hc).
Qed.

(** C9. [getItems] lists a scene's items most-recently-added first: an item
    that [addSource] accepts is read back in front of the items that were
    there, and after "Image1" and then "Image2" are added to an empty scene
    (with two distinct fresh source ids) the names read [Image2, Image1]. *)
Theorem getItems_most_recent_first (w : World) (scene : string) (sc : IScene.t) :
  Dict.get (IScenesState.scenes (state w)) scene = Some sc ->
  (forall sourceId,
      Scene.canAddSource w scene sourceId = true ->
      exists new,
        result (Scene.addSource scene sourceId) w = Return (Some new)
        /\ result (Scene.getItems scene) (run (Scene.addSource scene sourceId) w)
           = Return (new :: map (SceneItem.mk scene) (itemsOf (IScene.nodes sc))))
  /\ (itemsOf (IScene.nodes sc) = [] ->
      uniqueIds w (uniqueIdCalls w) <> uniqueIds w (2 + uniqueIdCalls w) ->
      let w' := run (addTwoImages scene) w in
      exists image2 image1,
        result (Scene.getItems scene) w' = Return [image2; image1]
        /\ itemName w' image2 = Some "Image2"
        /\ itemName w' image1 = Some "Image1").
Proof.
  intros Hs. split.
  - intros sourceId Hc. eexists. unfold result, run.
    rewrite (addSource_accepted w scene sourceId sc Hs Hc). simpl. split.
    + reflexivity.
    + unfold Scene.getItems. msimpl.
      rewrite (nodesOf_mapNodes_same _ _ _ sc Hs). simpl.
      unfold nodesOf. now rewrite Hs.
  - intros Hempty Hids w'. subst w'.
    set (w1 := run (Scene.createAndAddSource scene "Image1" "image_source") w).
    set (sc1 := setNodes sc
                  (Item (newItem (withNewSource w "Image1" "image_source")
                           ("image_source" ++ "_"
                            ++ uniqueIds w (uniqueIdCalls w))%string)
                   :: IScene.nodes sc)).
    pose proof (createAndAddSource_spec w scene "Image1" "image_source" sc
                  Hs eq_refl) as H1. cbv zeta in H1.
    pose proof (f_equal fst H1) as Hw1. cbn [fst] in Hw1.
    change (fst (Scene.createAndAddSource scene "Image1" "image_source" w))
      with w1 in Hw1.
    assert (Hs1 : Dict.get (IScenesState.scenes (state w1)) scene = Some sc1).
    { rewrite Hw1. simpl. unfold mapNodes. rewrite Hs.
      simpl. now rewrite get_set, String.eqb_refl. }
    pose proof (createAndAddSource_spec w1 scene "Image2" "image_source" sc1
                  Hs1 eq_refl) as H2. cbv zeta in H2.
    assert (Hrun : addTwoImages scene w
                   = (run (Scene.createAndAddSource scene "Image2" "image_source")
                        w1, Return tt)).
    { unfold addTwoImages.
      rewrite (bind_Return _ _ _ _ _ H1), <- Hw1.
      rewrite (bind_Return _ _ _ _ _ H2). unfold run. now rewrite H2. }
    unfold run at 1 2 3. rewrite Hrun. simpl. unfold run. rewrite H2.
    do 2 eexists. unfold result, Scene.getItems. msimpl.
    rewrite (nodesOf_mapNodes_same _ _ _ _ Hs1). simpl.
    unfold nodesOf. rewrite Hs1. simpl. rewrite Hempty. simpl.
    split; [reflexivity|].
    unfold itemName, SourcesService.getSource, SceneItem.sourceId. simpl.
    rewrite !get_set, !String.eqb_refl. simpl. split; [reflexivity|].
    subst w1. unfold run. rewrite H1. simpl. rewrite get_set.
    destruct (String.eqb _ _) eqn:E.
    + exfalso. apply String.eqb_eq in E.
      apply Hids. symmetry. exact E.
    + now rewrite String.eqb_refl.
Qed.

Lemma getItems_most_recent_first_witness :
  Dict.get (IScenesState.scenes (state defaultWorld)) "scene_0"
  = Some (freshScene "scene_0" "Scene")
  /\ exists image2 image1,
       result (Scene.getItems "scene_0") (run (addTwoImages "scene_0") defaultWorld)
       = Return [image2; image1]
       /\ itemName (run (addTwoImages "scene_0") defaultWorld) image2
          = Some "Image2"
       /\ itemName (run (addTwoImages "scene_0") defaultWorld) image1
          = Some "Image1".
Proof.
  split; [reflexivity|].
  apply (proj2 (getItems_most_recent_first defaultWorld "scene_0"
                  (freshScene "scene_0" "Scene") eq_refl));
    [reflexivity | vm_compute; discriminate].
Defined.

(** ** Cycle freedom *)

Section Nesting.
Variable w : World.

Lemma contains_step a b : nests w a b -> contains w a b.
Proof. apply t_step. Qed.

Lemma contains_trans a b c : contains w a b -> contains w b c -> contains w a c.
Proof. apply t_trans. Qed.

(** The walk only finds what is nested. *)
Lemma hasNestedScene_sound fuel a t :
  Scene.hasNestedScene fuel w a t = true -> contains w a t.
Proof.
  revert a. induction fuel as [|n IH]; intros a; simpl; [discriminate|].
  intros H. apply existsb_exists in H. destruct H as (i & Hi & H).
  apply andb_prop in H. destruct H as [Hscene H].
  apply orb_prop in H. destruct H as [H|H].
  - apply String.eqb_eq in H. subst t. apply contains_step.
    exists i. now repeat split.
  - apply contains_trans with (ISceneItem.sourceId i).
    + apply contains_step. exists i. now repeat split.
    + now apply IH.
Qed.

(** The walk finds the end of every path that fits its depth. *)
Lemma hasNestedScene_chain a l t :
  chain w a l t ->
  forall fuel, (length l <= fuel)%nat -> Scene.hasNestedScene fuel w a t = true.
Proof.
  induction 1 as [a b (i & Hi & Hb & Hs) | a b l c (i & Hi & Hb & Hs) Hc IH];
    intros [|n] Hn; simpl in Hn; try lia; simpl;
    apply existsb_exists; exists i; (split; [exact Hi|]);
    rewrite Hb, Hs; simpl.
  - now rewrite String.eqb_refl.
  - rewrite (IH n) by lia. apply orb_true_r.
Qed.

Lemma contains_chain a t : contains w a t -> exists l, chain w a l t.
Proof.
  intros H. apply clos_trans_t1n in H.
  induction H as [a b H | a b c H _ [l IH]].
  - exists [a]. now constructor.
  - exists (a :: l). now apply chain_step with b.
Qed.

(** Every scene a path leaves from is its start or nested in it. *)
Lemma chain_In a l t x :
  chain w a l t -> In x l -> x = a \/ contains w a x.
Proof.
  induction 1 as [a b H | a b l c H Hc IH]; simpl.
  - intros [->|[]]. now left.
  - intros [->|Hx]; [now left|]. right.
    destruct (IH Hx) as [->|Hbx].
    + now apply contains_step.
    + apply contains_trans with b; [now apply contains_step | exact Hbx].
Qed.

Lemma chain_NoDup a l t : acyclic w -> chain w a l t -> NoDup l.
Proof.
  intros Hacyc. induction 1 as [a b H | a b l c H Hc IH].
  - constructor; [intros [] | constructor].
  - constructor; [|exact IH].
    intros Hin. apply (Hacyc a).
    destruct (chain_In _ _ _ _ Hc Hin) as [->|Hba].
    + now apply contains_step.
    + apply contains_trans with b; [now apply contains_step | exact Hba].
Qed.

Lemma nests_key a b :
  nests w a b -> In a (Dict.keys (IScenesState.scenes (state w))).
Proof.
  intros (i & Hi & _). unfold nodesOf in Hi.
  destruct (Dict.get (IScenesState.scenes (state w)) a) as [sc|] eqn:E.
  - now apply get_In_keys with sc.
  - destruct Hi.
Qed.

Lemma chain_keys a l t :
  chain w a l t -> incl l (Dict.keys (IScenesState.scenes (state w))).
Proof.
  induction 1 as [a b H | a b l c H Hc IH]; intros x Hx.
  - destruct Hx as [->|[]]. now apply nests_key with b.
  - destruct Hx as [->|Hx]; [now apply nests_key with b | now apply IH].
Qed.

(** In an acyclic world a walk as deep as there are scenes finds every
    nested scene. *)
Lemma hasNestedScene_complete a t :
  acyclic w -> contains w a t ->
  Scene.hasNestedScene (length (IScenesState.scenes (state w))) w a t = true.
Proof.
  intros Hacyc H. destruct (contains_chain _ _ H) as [l Hl].
  apply (hasNestedScene_chain _ _ _ Hl).
  rewrite <- (length_map fst (IScenesState.scenes (state w))).
  apply NoDup_incl_length.
  - now apply chain_NoDup with a t.
  - now apply chain_keys with a t.
Qed.

End Nesting.

Lemma itemsOf_cons_item i nodes : itemsOf (Item i :: nodes) = i :: itemsOf nodes.
Proof. reflexivity. Qed.

(** The guard on a scene-type source. *)
Lemma canAddSource_scene w scene sourceId :
  SourcesService.isScene w sourceId = true ->
  Scene.canAddSource w scene sourceId =
  negb (String.eqb sourceId scene
        || Scene.hasNestedScene (length (IScenesState.scenes (state w))) w
             sourceId scene).
Proof.
  unfold SourcesService.isScene, Scene.canAddSource.
  destruct (SourcesService.getSource w sourceId) as [src|]; [|discriminate].
  now intros ->.
Qed.

Section AddSourceStep.
Variables (w : World) (A S : string) (sc : IScene.t).
Hypothesis HA : Dict.get (IScenesState.scenes (state w)) A = Some sc.
Hypothesis Hcan : Scene.canAddSource w A S = true.

Let w' : World := run (Scene.addSource A S) w.

Lemma addSource_step_nodes x :
  nodesOf (state w') x =
  if String.eqb A x then Item (newItem w S) :: nodesOf (state w) A
  else nodesOf (state w) x.
Proof.
  subst w'. unfold run. rewrite (addSource_accepted w A S sc HA Hcan). simpl.
  destruct (String.eqb A x) eqn:E.
  - apply String.eqb_eq in E. subst x.
    now rewrite (nodesOf_mapNodes_same _ _ _ sc HA).
  - apply String.eqb_neq in E. now apply nodesOf_mapNodes_other.
Qed.

Lemma addSource_step_isScene x :
  SourcesService.isScene w' x = SourcesService.isScene w x.
Proof.
  subst w'. unfold run. now rewrite (addSource_accepted w A S sc HA Hcan).
Qed.

(** The only new nesting is the one just added. *)
Lemma addSource_step_nests x y :
  nests w' x y ->
  nests w x y \/ (x = A /\ y = S /\ SourcesService.isScene w S = true).
Proof.
  intros (i & Hi & Hy & Hs). rewrite addSource_step_isScene in Hs.
  rewrite addSource_step_nodes in Hi.
  destruct (String.eqb A x) eqn:E.
  - apply String.eqb_eq in E. subst x. rewrite itemsOf_cons_item in Hi.
    destruct Hi as [<-|Hi].
    + right. simpl in Hy. subst y. now repeat split.
    + left. exists i. now repeat split.
  - left. exists i. now repeat split.
Qed.

Lemma addSource_step_contains x y :
  contains w' x y ->
  contains w x y
  \/ (SourcesService.isScene w S = true
      /\ (x = A \/ contains w x A) /\ (y = S \/ contains w S y)).
Proof.
  induction 1 as [x y H | x y z _ IH1 _ IH2].
  - destruct (addSource_step_nests _ _ H) as [H'|(-> & -> & Hs)].
    + left. now apply contains_step.
    + right. repeat split; auto.
  - destruct IH1 as [H1|(Hs & Hx & Hy)], IH2 as [H2|(Hs' & Hy' & Hz)].
    + left. now apply contains_trans with y.
    + right. repeat split; auto.
      destruct Hy' as [->|Hy']; [now right|].
      right. now apply contains_trans with y.
    + right. repeat split; auto.
      destruct Hy as [->|Hy]; [now right|].
      right. now apply contains_trans with y.
    + right. repeat split; auto.
Qed.

Lemma addSource_step_acyclic : acyclic w -> acyclic w'.
Proof.
  intros Hacyc v Hv.
  destruct (addSource_step_contains _ _ Hv) as [H|(Hs & Hx & Hy)].
  - exact (Hacyc v H).
  - pose proof Hcan as Hc. rewrite (canAddSource_scene _ _ _ Hs) in Hc.
    apply negb_true_iff, orb_false_iff in Hc. destruct Hc as [Hne Hwalk].
    assert (HSA : S = A \/ contains w S A).
    { destruct Hx as [->|Hx], Hy as [Hy|Hy]; auto.
      - right. now subst.
      - right. now apply contains_trans with v. }
    destruct HSA as [->|HSA].
    + now rewrite String.eqb_refl in Hne.
    + rewrite (hasNestedScene_complete w S A Hacyc HSA) in Hwalk.
      discriminate.
Qed.

End AddSourceStep.

Lemma addSource_acyclic w scene sourceId :
  acyclic w -> acyclic (run (Scene.addSource scene sourceId) w).
Proof.
  intros Hacyc.
  destruct (addSource_cases w scene sourceId) as [H|(sc & Hs & Hc & _)].
  - unfold run. now rewrite H.
  - now apply addSource_step_acyclic with sc.
Qed.

Lemma addSources_acyclic calls w :
  acyclic w -> acyclic (run (addSources calls) w).
Proof.
  revert w. induction calls as [|[scene sourceId] r IH]; intros w Hacyc.
  - exact Hacyc.
  - pose proof (addSource_acyclic w scene sourceId Hacyc) as H1.
    unfold run, addSources in *. simpl.
    unfold bind at 1 2.
    destruct (Scene.addSource scene sourceId w) as [w1 [o|e]]; simpl in *.
    + now apply IH.
    + exact H1.
Qed.

(** C1. From an acyclic world, whatever sequence of [addSource] calls is
    made, no scene becomes reachable from itself through nested scenes; and
    in the world reached, adding a scene-type source [C] to a scene [A] that
    is [C] itself or is contained in [C] is refused: it returns [null] and the
    world, with every node list, is exactly as before. *)
Theorem addSource_cycle_freedom (w : World) (calls : list (string * string)) :
  acyclic w ->
  let w' := run (addSources calls) w in
  acyclic w'
  /\ (forall A C,
        SourcesService.isScene w' C = true ->
        C = A \/ contains w' C A ->
        Scene.addSource A C w' = (w', Return None)).
Proof.
  intros Hacyc w'. assert (Hacyc' : acyclic w') by now apply addSources_acyclic.
  split; [exact Hacyc'|].
  intros A C Hs H. apply addSource_refused.
  rewrite (canAddSource_scene _ _ _ Hs).
  destruct H as [->|H].
  - now rewrite String.eqb_refl.
  - rewrite (hasNestedScene_complete w' C A Hacyc' H).
    now rewrite orb_true_r.
Qed.

Lemma get_In {V} (d : Dict.t V) k v : Dict.get d k = Some v -> In (k, v) d.
Proof.
  induction d as [|[k0 v0] r IH]; simpl; [discriminate|].
  destruct (String.eqb k0 k) eqn:E.
  - apply String.eqb_eq in E. intros [= ->]. left. now subst.
  - intros H. right. now apply IH.
Qed.

Lemma contains_first w a b : contains w a b -> exists c, nests w a c.
Proof.
  intros H. apply clos_trans_t1n in H. destruct H as [b H | c b H _].
  - now exists b.
  - now exists c.
Qed.

Lemma withoutItems_acyclic w : withoutItems w = true -> acyclic w.
Proof.
  intros H a Ha.
  destruct (contains_first _ _ _ Ha) as (b & i & Hi & _). unfold nodesOf in Hi.
  destruct (Dict.get (IScenesState.scenes (state w)) a) as [sc|] eqn:E;
    [|destruct Hi].
  apply get_In in E. unfold withoutItems in H.
  rewrite forallb_forall in H. specialize (H _ E). simpl in H.
  revert Hi H. destruct (itemsOf (IScene.nodes sc)); simpl;
    [intros [] | discriminate].
Qed.

Lemma addSource_cycle_freedom_witness :
  acyclic nestedWorld
  /\ acyclic (run (addSources nestingCalls) nestedWorld)
  /\ Scene.addSource "scene_1" "scene_3" (run (addSources nestingCalls) nestedWorld)
     = (run (addSources nestingCalls) nestedWorld, Return None).
Proof.
  pose proof (addSource_cycle_freedom nestedWorld nestingCalls
                (withoutItems_acyclic nestedWorld eq_refl)) as [H1 H2].
  split; [exact (withoutItems_acyclic nestedWorld eq_refl)|].
  split; [exact H1|].
  apply H2; [vm_compute; reflexivity|]. right. apply t_step.
  exists (ISceneItem.mk "5" "scene_1" defaultSettings None).
  split; [vm_compute; left; reflexivity|].
  split; [reflexivity | vm_compute; reflexivity].
Defined.

(** ** Consistent stores *)

Lemma mem_In k l : mem k l = true <-> In k l.
Proof.
  unfold mem. rewrite existsb_exists. split.
  - intros (x & Hx & E). apply String.eqb_eq in E. now subst.
  - intros H. exists k. split; [exact H | apply String.eqb_refl].
Qed.

Lemma nodupb_NoDup l : nodupb l = true -> NoDup l.
Proof.
  induction l as [|k r IH]; simpl; [constructor|].
  intros H. apply andb_prop in H. destruct H as [H1 H2].
  constructor; [|now apply IH].
  intros Hin. apply mem_In in Hin. now rewrite Hin in H1.
Qed.

Lemma consistentb_sound w : consistentb w = true -> consistent w.
Proof.
  unfold consistentb, consistent. intros H.
  repeat (apply andb_prop in H; destruct H as [H ?]).
  rewrite forallb_forall in *.
  repeat split.
  - now apply nodupb_NoDup.
  - intros Hk. apply mem_In. auto.
  - intros Hk. apply mem_In. auto.
  - intros k sc Hg. apply get_In in Hg. apply nodupb_NoDup.
    match goal with Hf : forall x, In x (IScenesState.scenes _) -> _ |- _ =>
      exact (Hf _ Hg) end.
  - intros Hin. apply mem_In in Hin.
    match goal with Hn : negb _ = true |- _ => now rewrite Hin in Hn end.
Qed.

(** ** Worlds that advance *)

Lemma advance_advance w st1 e1 st2 e2 :
  advance (advance w st1 e1) st2 e2 = advance w st2 (e1 ++ e2).
Proof. unfold advance. simpl. now rewrite app_assoc. Qed.

Lemma advance_same w : advance w (state w) [] = w.
Proof. destruct w. unfold advance. simpl. now rewrite app_nil_r. Qed.

(** ** Dropping items from a node list *)

Lemma itemsOf_dropItem x nodes :
  itemsOf (dropItem x nodes) =
  filter (fun i => negb (String.eqb (ISceneItem.sceneItemId i) x)) (itemsOf nodes).
Proof.
  unfold dropItem, itemsOf.
  induction nodes as [|[i|f] r IH]; simpl; [reflexivity| |exact IH].
  destruct (String.eqb (ISceneItem.sceneItemId i) x); simpl; now rewrite IH.
Qed.

Lemma filter_all {A} (p : A -> bool) l :
  (forall a, In a l -> p a = true) -> filter p l = l.
Proof.
  induction l as [|a r IH]; simpl; intros H; [reflexivity|].
  rewrite (H a) by now left. f_equal. apply IH. auto.
Qed.

Lemma find_skip {A} (p : A -> bool) l1 l2 :
  (forall a, In a l1 -> p a = false) -> find p (l1 ++ l2) = find p l2.
Proof.
  induction l1 as [|a r IH]; simpl; intros H; [reflexivity|].
  rewrite (H a) by now left. apply IH. auto.
Qed.

Section DistinctIds.
Variables (kept r : list ISceneItem.t) (a : ISceneItem.t).
Hypothesis Hnd : NoDup (itemIds (kept ++ a :: r)).

Lemma distinct_rest : NoDup (itemIds (kept ++ r)).
Proof.
  unfold itemIds in *. rewrite map_app in *. simpl in Hnd.
  now apply NoDup_remove_1 in Hnd.
Qed.

Lemma distinct_other i :
  In i (kept ++ r) ->
  String.eqb (ISceneItem.sceneItemId i) (ISceneItem.sceneItemId a) = false.
Proof.
  intros Hi. apply String.eqb_neq. intros E.
  unfold itemIds in Hnd. rewrite map_app in Hnd. simpl in Hnd.
  apply NoDup_remove_2 in Hnd. apply Hnd. rewrite <- map_app, <- E.
  now apply in_map.
Qed.

Lemma distinct_find :
  find (fun i => String.eqb (ISceneItem.sceneItemId i) (ISceneItem.sceneItemId a))
       (kept ++ a :: r) = Some a.
Proof.
  rewrite find_skip.
  - simpl. now rewrite String.eqb_refl.
  - intros i Hi. apply distinct_other. apply in_or_app. now left.
Qed.

Lemma distinct_filter :
  filter (fun i => negb (String.eqb (ISceneItem.sceneItemId i)
                                    (ISceneItem.sceneItemId a)))
         (kept ++ a :: r) = kept ++ r.
Proof.
  rewrite filter_app. simpl. rewrite String.eqb_refl. simpl.
  rewrite !filter_all; [reflexivity | |];
    intros i Hi; rewrite distinct_other; auto; apply in_or_app; auto.
Qed.

End DistinctIds.

(** ** Rewriting the node list of a scene *)

Lemma replace_same {V} (d : Dict.t V) k v :
  Dict.get d k = Some v -> Dict.replace k v d = d.
Proof.
  induction d as [|[k0 v0] r IH]; simpl; [reflexivity|].
  destruct (String.eqb k0 k) eqn:E.
  - now intros [= ->].
  - intros H. now rewrite IH.
Qed.

Lemma replace_replace {V} (d : Dict.t V) k v v' :
  Dict.replace k v' (Dict.replace k v d) = Dict.replace k v' d.
Proof.
  induction d as [|[k0 v0] r IH]; simpl; [reflexivity|].
  destruct (String.eqb k0 k) eqn:E; simpl; rewrite E; [reflexivity|].
  now rewrite IH.
Qed.

Lemma set_present {V} (d : Dict.t V) k v v0 :
  Dict.get d k = Some v0 -> Dict.set d k v = Dict.replace k v d.
Proof. intros H. unfold Dict.set. now rewrite H. Qed.

Lemma mapNodes_present st k f sc :
  Dict.get (IScenesState.scenes st) k = Some sc ->
  mapNodes k f st =
  IScenesState.mk (IScenesState.activeSceneId st) (IScenesState.displayOrder st)
    (Dict.replace k (setNodes sc (f (IScene.nodes sc))) (IScenesState.scenes st)).
Proof.
  intros H. unfold mapNodes. rewrite H. now rewrite (set_present _ _ _ sc H).
Qed.

Lemma get_mapNodes st k f k' :
  Dict.get (IScenesState.scenes (mapNodes k f st)) k' =
  if String.eqb k k'
  then option_map (fun sc => setNodes sc (f (IScene.nodes sc)))
                  (Dict.get (IScenesState.scenes st) k)
  else Dict.get (IScenesState.scenes st) k'.
Proof.
  unfold mapNodes.
  destruct (Dict.get (IScenesState.scenes st) k) as [sc|] eqn:E; simpl.
  - now rewrite get_set.
  - destruct (String.eqb k k') eqn:E'; [|reflexivity].
    apply String.eqb_eq in E'. now subst.
Qed.

Lemma mapNodes_frame st k f :
  IScenesState.activeSceneId (mapNodes k f st) = IScenesState.activeSceneId st
  /\ IScenesState.displayOrder (mapNodes k f st) = IScenesState.displayOrder st
  /\ Dict.keys (IScenesState.scenes (mapNodes k f st))
     = Dict.keys (IScenesState.scenes st).
Proof.
  unfold mapNodes.
  destruct (Dict.get (IScenesState.scenes st) k) as [sc|] eqn:E; simpl; auto.
  repeat split. rewrite (set_present _ _ _ sc E). apply keys_replace.
Qed.

Lemma mapNodes_mapNodes st k f g :
  mapNodes k f (mapNodes k g st) = mapNodes k (fun n => f (g n)) st.
Proof.
  destruct (Dict.get (IScenesState.scenes st) k) as [sc|] eqn:E.
  - rewrite (mapNodes_present st k g sc E).
    rewrite (mapNodes_present st k _ sc E).
    erewrite mapNodes_present.
    2:{ simpl. rewrite get_replace, String.eqb_refl, E. reflexivity. }
    simpl. now rewrite replace_replace.
  - unfold mapNodes at 2 3. rewrite E. unfold mapNodes. now rewrite E.
Qed.

Lemma mapNodes_id st k :
  mapNodes k (fun n => n) st = st.
Proof.
  destruct (Dict.get (IScenesState.scenes st) k) as [sc|] eqn:E.
  - rewrite (mapNodes_present st k _ sc E).
    replace (setNodes sc (IScene.nodes sc)) with sc by now destruct sc.
    rewrite (replace_same _ _ _ E). now destruct st.
  - unfold mapNodes. now rewrite E.
Qed.

(** ** Removing items *)

Lemma removeItem_found w k itemId i :
  findItem (nodesOf (state w) k) itemId = Some i ->
  Scene.removeItem k itemId w =
  (advance w (mapNodes k (dropItem itemId) (state w)) [itemRemoved k i],
   Return tt).
Proof. intros H. unfold Scene.removeItem. msimpl. now rewrite H. Qed.

Lemma removeItem_missing w k itemId :
  findItem (nodesOf (state w) k) itemId = None ->
  Scene.removeItem k itemId w = (w, Return tt).
Proof. intros H. unfold Scene.removeItem. msimpl. now rewrite H. Qed.

Lemma nodesOf_get st k sc :
  Dict.get (IScenesState.scenes st) k = Some sc -> nodesOf st k = IScene.nodes sc.
Proof. intros H. unfold nodesOf. now rewrite H. Qed.

(** A loop over the items of one scene whose body removes the items chosen
    by [p]: the chosen items go, in the order of the loop, each with its
    item-removed event. *)
Section Sweep.
Variables (k : string) (p : ISceneItem.t -> bool) (body : SceneItem.t -> M unit).
Hypothesis Hbody :
  forall i w sc,
    Dict.get (IScenesState.scenes (state w)) k = Some sc ->
    body (SceneItem.mk k i) w =
    if p i then Scene.removeItem k (ISceneItem.sceneItemId i) w
    else (w, Return tt).

Lemma sweep L :
  forall kept w sc,
    Dict.get (IScenesState.scenes (state w)) k = Some sc ->
    itemsOf (IScene.nodes sc) = kept ++ L ->
    NoDup (itemIds (kept ++ L)) ->
    forEach (map (SceneItem.mk k) L) body w =
    (advance w (mapNodes k (dropItems (itemIds (filter p L))) (state w))
       (map (itemRemoved k) (filter p L)),
     Return tt).
Proof.
  induction L as [|a r IH]; intros kept w sc Hsc Hitems Hnd; simpl.
  - unfold dropItems. simpl. rewrite mapNodes_id, advance_same. reflexivity.
  - unfold bind. rewrite (Hbody a w sc Hsc).
    destruct (p a) eqn:Hp.
    + rewrite (removeItem_found w k _ a).
      2:{ rewrite (nodesOf_get _ _ _ Hsc). unfold findItem. rewrite Hitems.
          now apply distinct_find. }
      erewrite (IH kept).
      * rewrite advance_advance. simpl. rewrite mapNodes_mapNodes. reflexivity.
      * simpl. rewrite get_mapNodes, String.eqb_refl, Hsc. reflexivity.
      * simpl. rewrite itemsOf_dropItem, Hitems. now apply distinct_filter.
      * now apply distinct_rest with a.
    + apply (IH (kept ++ [a]) w sc Hsc); rewrite <- app_assoc; assumption.
Qed.

End Sweep.

Lemma removeReference_body id k i w sc :
  Dict.get (IScenesState.scenes (state w)) k = Some sc ->
  ScenesService.removeReference id (SceneItem.mk k i) w =
  if references id i then Scene.removeItem k (ISceneItem.sceneItemId i) w
  else (w, Return tt).
Proof.
  intros H. unfold ScenesService.removeReference, references,
    SceneItem.sourceId, SceneItem.sceneId, SceneItem.sceneItemId. simpl.
  destruct (String.eqb (ISceneItem.sourceId i) id); simpl; [|reflexivity].
  unfold ScenesService.getScene. msimpl. now rewrite H.
Qed.

(** The second loop of [removeScene], scene by scene. *)
Lemma purge_loop id ks :
  NoDup ks ->
  forall st0 w,
    (forall k, In k ks -> nodesOf st0 k = nodesOf (state w) k) ->
    (forall k, In k ks ->
       exists sc, Dict.get (IScenesState.scenes (state w)) k = Some sc
                  /\ NoDup (itemIds (itemsOf (IScene.nodes sc)))) ->
    forEach (itemsIn st0 ks) (ScenesService.removeReference id) w =
    (advance w (purge id ks (state w))
       (map removedEvent
          (flat_map (fun k => map (SceneItem.mk k)
                                  (filter (references id) (itemsOf (nodesOf st0 k))))
                    ks)),
     Return tt).
Proof.
  induction 1 as [|k ks Hk Hnd IH]; intros st0 w Hsame Hex.
  - simpl. now rewrite advance_same.
  - unfold itemsIn. simpl. rewrite forEach_app.
    destruct (Hex k (or_introl eq_refl)) as (sc & Hsc & Hids).
    assert (Hk0 : nodesOf st0 k = IScene.nodes sc).
    { rewrite (Hsame k (or_introl eq_refl)). now apply nodesOf_get. }
    erewrite bind_Return.
    2:{ rewrite Hk0.
        apply (sweep k (references id) (ScenesService.removeReference id)
                 (removeReference_body id k) _ [] w sc Hsc); [reflexivity|].
        exact Hids. }
    fold (itemsIn st0 ks). rewrite IH.
    + rewrite advance_advance. simpl.
      rewrite map_app. unfold purgeScene.
      rewrite (nodesOf_get _ _ _ Hsc), Hk0.
      f_equal. f_equal. f_equal.
      rewrite map_map. reflexivity.
    + intros k' Hk'. simpl. rewrite nodesOf_mapNodes_other.
      * apply Hsame. now right.
      * intros ->. contradiction.
    + intros k' Hk'. simpl. rewrite get_mapNodes.
      destruct (String.eqb k k') eqn:E.
      * apply String.eqb_eq in E. subst. contradiction.
      * apply Hex. now right.
Qed.

(** ** What the loops of [removeScene] leave behind *)

Lemma purge_frame id ks : forall st,
  IScenesState.activeSceneId (purge id ks st) = IScenesState.activeSceneId st
  /\ IScenesState.displayOrder (purge id ks st) = IScenesState.displayOrder st
  /\ Dict.keys (IScenesState.scenes (purge id ks st))
     = Dict.keys (IScenesState.scenes st).
Proof.
  induction ks as [|k ks IH]; intros st; simpl; [auto|].
  destruct (IH (purgeScene id k st)) as (H1 & H2 & H3).
  destruct (mapNodes_frame st k
              (dropItems (itemIds (filter (references id)
                                          (itemsOf (nodesOf st k))))))
    as (F1 & F2 & F3).
  unfold purge in *. simpl. unfold purgeScene in *.
  rewrite H1, H2, H3. auto.
Qed.

Lemma get_purge_other id ks k : forall st,
  ~ In k ks ->
  Dict.get (IScenesState.scenes (purge id ks st)) k
  = Dict.get (IScenesState.scenes st) k.
Proof.
  induction ks as [|k0 ks IH]; intros st Hk; simpl; [reflexivity|].
  unfold purge in *. simpl. rewrite IH by (intros H; apply Hk; now right).
  unfold purgeScene. rewrite get_mapNodes.
  destruct (String.eqb k0 k) eqn:E; [|reflexivity].
  apply String.eqb_eq in E. subst. exfalso. apply Hk. now left.
Qed.

Lemma get_purge id ks k : forall st sc,
  NoDup ks -> In k ks ->
  Dict.get (IScenesState.scenes st) k = Some sc ->
  Dict.get (IScenesState.scenes (purge id ks st)) k
  = Some (setNodes sc
            (dropItems (itemIds (filter (references id) (itemsOf (IScene.nodes sc))))
               (IScene.nodes sc))).
Proof.
  induction ks as [|k0 ks IH]; intros st sc Hnd Hk Hsc; [destruct Hk|].
  inversion Hnd as [|? ? Hk0 Hnd']; subst.
  change (purge id (k0 :: ks) st) with (purge id ks (purgeScene id k0 st)).
  destruct (String.eqb k0 k) eqn:E.
  - apply String.eqb_eq in E. subst k0.
    rewrite get_purge_other by assumption.
    unfold purgeScene. rewrite get_mapNodes, String.eqb_refl, Hsc. simpl.
    now rewrite (nodesOf_get _ _ _ Hsc).
  - destruct Hk as [->|Hk]; [now rewrite String.eqb_refl in E|].
    apply IH; try assumption.
    unfold purgeScene. now rewrite get_mapNodes, E.
Qed.

Lemma filter_both {A} (p q : A -> bool) l :
  filter p (filter q l) = filter (fun a => q a && p a) l.
Proof.
  induction l as [|a r IH]; simpl; [reflexivity|].
  destruct (q a); simpl; [destruct (p a)|]; now rewrite IH.
Qed.

Lemma itemsOf_dropItems ids : forall nodes,
  itemsOf (dropItems ids nodes) =
  filter (fun i => negb (mem (ISceneItem.sceneItemId i) ids)) (itemsOf nodes).
Proof.
  induction ids as [|x xs IH]; intros nodes.
  - simpl. symmetry. now apply filter_all.
  - change (dropItems (x :: xs) nodes) with (dropItems xs (dropItem x nodes)).
    rewrite IH, itemsOf_dropItem, filter_both.
    apply filter_ext. intros i. simpl. now rewrite negb_orb.
Qed.

Lemma distinct_ids_inj (l : list ISceneItem.t) a b :
  NoDup (itemIds l) -> In a l -> In b l ->
  ISceneItem.sceneItemId a = ISceneItem.sceneItemId b -> a = b.
Proof.
  induction l as [|c r IH]; simpl; intros Hnd Ha Hb E; [destruct Ha|].
  inversion Hnd as [|? ? Hc Hr]; subst.
  destruct Ha as [->|Ha], Hb as [->|Hb]; auto.
  - exfalso. apply Hc. rewrite E. now apply in_map.
  - exfalso. apply Hc. rewrite <- E. now apply in_map.
Qed.

(** With distinct ids, dropping the ids of the chosen items drops exactly
    the chosen items. *)
Lemma mem_chosen (p : ISceneItem.t -> bool) l i :
  NoDup (itemIds l) -> In i l ->
  mem (ISceneItem.sceneItemId i) (itemIds (filter p l)) = p i.
Proof.
  intros Hnd Hi. destruct (p i) eqn:Hp.
  - apply mem_In. apply in_map. apply filter_In. now split.
  - destruct (mem _ _) eqn:Hm; [|reflexivity].
    apply mem_In in Hm. unfold itemIds in Hm. apply in_map_iff in Hm.
    destruct Hm as (j & E & Hj). apply filter_In in Hj. destruct Hj as [Hj Hpj].
    rewrite (distinct_ids_inj l j i Hnd Hj Hi E) in Hpj. congruence.
Qed.

Lemma itemsOf_drop_chosen (p : ISceneItem.t -> bool) nodes :
  NoDup (itemIds (itemsOf nodes)) ->
  itemsOf (dropItems (itemIds (filter p (itemsOf nodes))) nodes)
  = filter (fun i => negb (p i)) (itemsOf nodes).
Proof.
  intros Hnd. rewrite itemsOf_dropItems. apply filter_ext_in.
  intros i Hi. now rewrite mem_chosen.
Qed.

Lemma itemsOf_drop_all nodes :
  itemsOf (dropItems (itemIds (itemsOf nodes)) nodes) = [].
Proof.
  rewrite itemsOf_dropItems.
  assert (H : forall l, incl l (itemsOf nodes) ->
            filter (fun i => negb (mem (ISceneItem.sceneItemId i)
                                       (itemIds (itemsOf nodes)))) l = []).
  { induction l as [|b l IHl]; intros Hl; simpl; [reflexivity|].
    assert (Hb : mem (ISceneItem.sceneItemId b) (itemIds (itemsOf nodes)) = true).
    { apply mem_In. apply in_map. apply Hl. now left. }
    rewrite Hb. simpl. apply IHl. intros x Hx. apply Hl. now right. }
  now apply (H (itemsOf nodes)), incl_refl.
Qed.

Lemma collectItems_ok ks : forall w,
  (forall k, In k ks -> exists sc, Dict.get (IScenesState.scenes (state w)) k = Some sc) ->
  ScenesService.collectItems
    (map (fun id => match Dict.get (IScenesState.scenes (state w)) id with
                    | None => None
                    | Some _ => Some id
                    end) ks) w
  = (w, Return (itemsIn (state w) ks)).
Proof.
  induction ks as [|k ks IH]; intros w Hex; simpl; [reflexivity|].
  destruct (Hex k (or_introl eq_refl)) as [sc Hsc]. rewrite Hsc.
  unfold Scene.getItems. msimpl. fold (@ScenesService.collectItems).
  rewrite IH by (intros k' Hk'; apply Hex; now right).
  reflexivity.
Qed.

Lemma getSceneItems_ok w :
  (forall k, In k (IScenesState.displayOrder (state w)) ->
     exists sc, Dict.get (IScenesState.scenes (state w)) k = Some sc) ->
  ScenesService.getSceneItems w
  = (w, Return (itemsIn (state w) (IScenesState.displayOrder (state w)))).
Proof.
  intros Hex. unfold ScenesService.getSceneItems, ScenesService.scenes.
  msimpl. now rewrite collectItems_ok.
Qed.

(** ** [removeScene] on a removable scene *)

Lemma In_keys_get {V} (d : Dict.t V) k :
  In k (Dict.keys d) -> exists v, Dict.get d k = Some v.
Proof.
  induction d as [|[k0 v0] r IH]; simpl; [intros []|].
  destruct (String.eqb k0 k) eqn:E; [now exists v0|].
  intros [H|H]; [apply String.eqb_neq in E; contradiction | now apply IH].
Qed.

Lemma keys_delete {V} (d : Dict.t V) k :
  Dict.keys (Dict.delete d k) = without (Dict.keys d) k.
Proof.
  unfold Dict.keys, Dict.delete, without.
  induction d as [|[k0 v0] r IH]; simpl; [reflexivity|].
  destruct (String.eqb k0 k); simpl; now rewrite IH.
Qed.

Lemma In_without l k x : In x (without l k) <-> In x l /\ x <> k.
Proof.
  unfold without. rewrite filter_In. apply and_iff_compat_l.
  rewrite negb_true_iff. apply String.eqb_neq.
Qed.

Section RemoveScene.
Variables (w : World) (id : string) (force : bool) (s : IScene.t).
Hypothesis Hcons : consistent w.
Hypothesis Hs : Dict.get (IScenesState.scenes (state w)) id = Some s.
Hypothesis Hremovable : force = true \/ (2 <= sceneCount w)%nat.

Let st := state w.
Let st1 := mapNodes id (dropItems (itemIds (itemsOf (nodesOf st id)))) st.

Lemma removable_guard :
  negb force && (length (Dict.keys (IScenesState.scenes st)) <? 2)%nat = false.
Proof.
  destruct Hremovable as [->|H]; [reflexivity|].
  apply andb_false_iff. right. apply Nat.ltb_ge. exact H.
Qed.

Lemma st1_get k :
  Dict.get (IScenesState.scenes st1) k =
  if String.eqb id k then Some (emptied s)
  else Dict.get (IScenesState.scenes st) k.
Proof.
  subst st1. rewrite get_mapNodes. subst st. rewrite Hs. simpl.
  now rewrite (nodesOf_get _ _ _ Hs).
Qed.

Lemma emptied_items : itemsOf (IScene.nodes (emptied s)) = [].
Proof. unfold emptied. simpl. apply itemsOf_drop_all. Qed.

Lemma st1_exists k :
  In k (IScenesState.displayOrder st) ->
  exists sc, Dict.get (IScenesState.scenes st1) k = Some sc
             /\ NoDup (itemIds (itemsOf (IScene.nodes sc))).
Proof.
  intros Hk. rewrite st1_get. destruct (String.eqb id k) eqn:E.
  - exists (emptied s). split; [reflexivity|]. rewrite emptied_items. constructor.
  - destruct Hcons as (_ & Hkeys & Hids & _).
    apply Hkeys in Hk. apply In_keys_get in Hk. destruct Hk as [sc Hsc].
    exists sc. split; [exact Hsc | now apply Hids with k].
Qed.

Lemma first_loop :
  forEach (map (SceneItem.mk id) (itemsOf (nodesOf st id)))
          (ScenesService.removeOwnItem id) w
  = (advance w st1 (map removedEvent
                      (map (SceneItem.mk id) (itemsOf (IScene.nodes s)))),
     Return tt).
Proof.
  destruct Hcons as (_ & _ & Hids & _).
  subst st st1. rewrite (nodesOf_get _ _ _ Hs).
  rewrite (sweep id (fun _ => true) (ScenesService.removeOwnItem id)
             (fun i w0 sc _ => eq_refl) _ [] w s Hs eq_refl (Hids id s Hs)).
  rewrite (filter_all (fun _ => true)) by reflexivity.
  now rewrite map_map.
Qed.

Lemma second_loop_events :
  flat_map (fun k => map (SceneItem.mk k)
                         (filter (references id) (itemsOf (nodesOf st1 k))))
           (IScenesState.displayOrder st)
  = referencingItems id st.
Proof.
  unfold referencingItems. apply flat_map_ext. intros k.
  unfold nodesOf. rewrite st1_get, (String.eqb_sym k id).
  destruct (String.eqb id k); [|reflexivity].
  now rewrite emptied_items.
Qed.

Lemma swept_get_own :
  Dict.get (IScenesState.scenes (swept id st)) id = Some (emptied s).
Proof.
  destruct Hcons as (Hnd & Hkeys & _).
  unfold swept. fold st1.
  assert (Hin : In id (IScenesState.displayOrder st)).
  { apply Hkeys. now apply get_In_keys with s. }
  erewrite get_purge; [|exact Hnd|exact Hin|].
  2:{ rewrite st1_get, String.eqb_refl. reflexivity. }
  rewrite emptied_items. simpl. unfold dropItems. simpl.
  unfold emptied, setNodes. reflexivity.
Qed.

Lemma st1_order : IScenesState.displayOrder st1 = IScenesState.displayOrder st.
Proof. subst st1. apply mapNodes_frame. Qed.

Lemma second_collect emitted :
  ScenesService.getSceneItems (advance w st1 emitted)
  = (advance w st1 emitted,
     Return (itemsIn st1 (IScenesState.displayOrder st))).
Proof.
  rewrite getSceneItems_ok; simpl; rewrite st1_order; [reflexivity|].
  intros k Hk. destruct (st1_exists k Hk) as (sc & Hsc & _). now exists sc.
Qed.

Lemma second_loop :
  forEach (itemsIn st1 (IScenesState.displayOrder st))
          (ScenesService.removeReference id)
    (advance w st1 (map removedEvent
                      (map (SceneItem.mk id) (itemsOf (IScene.nodes s)))))
  = (advance w (swept id st)
       (map removedEvent (map (SceneItem.mk id) (itemsOf (IScene.nodes s)))
        ++ map removedEvent (referencingItems id st)),
     Return tt).
Proof.
  destruct Hcons as (Hnd & _).
  rewrite (purge_loop id _ Hnd st1); simpl.
  - rewrite advance_advance. fold st. rewrite second_loop_events. reflexivity.
  - reflexivity.
  - exact st1_exists.
Qed.

Lemma swept_frame :
  IScenesState.activeSceneId (swept id st) = IScenesState.activeSceneId st
  /\ IScenesState.displayOrder (swept id st) = IScenesState.displayOrder st
  /\ Dict.keys (IScenesState.scenes (swept id st))
     = Dict.keys (IScenesState.scenes st).
Proof.
  unfold swept. fold st1.
  destruct (purge_frame id (IScenesState.displayOrder st) st1) as (H1 & H2 & H3).
  destruct (mapNodes_frame st id
              (dropItems (itemIds (itemsOf (nodesOf st id))))) as (F1 & F2 & F3).
  fold st1 in F1, F2, F3. rewrite H1, H2, H3. auto.
Qed.

(** The scene that takes over exists and has a truthy id. *)
Lemma successor_ok k :
  successor id st = Some k ->
  truthy k = true
  /\ exists sc,
       Dict.get (Dict.delete (IScenesState.scenes (swept id st)) id) k = Some sc.
Proof.
  unfold successor. intros H.
  assert (Hin : In k (Dict.keys (Dict.delete (IScenesState.scenes (swept id st)) id))).
  { destruct (Dict.keys _) as [|k0 r]; [discriminate|].
    injection H as ->. now left. }
  split.
  - rewrite keys_delete in Hin. apply In_without in Hin. destruct Hin as [Hin _].
    destruct swept_frame as (_ & _ & Hk). rewrite Hk in Hin.
    destruct Hcons as (_ & _ & _ & Hne).
    unfold truthy. apply negb_true_iff, String.eqb_neq.
    intros ->. now apply Hne.
  - now apply In_keys_get.
Qed.

(** [removeScene] on a removable scene of a consistent store, in full. *)
Lemma removeScene_run :
  ScenesService.removeScene id force w
  = (advance w (afterRemoval id st) (removalEvents id s st),
     Return (Some (emptied s))).
Proof.
  unfold ScenesService.removeScene.
  rewrite (bind_Return _ _ w w st) by reflexivity.
  fold st. rewrite removable_guard.
  rewrite (bind_Return _ _ w w (Some id)).
  2:{ unfold ScenesService.getScene. msimpl. now rewrite Hs. }
  rewrite (bind_Return _ _ w w id) by reflexivity.
  rewrite (bind_Return _ _ w w (map (SceneItem.mk id) (itemsOf (nodesOf st id))))
    by reflexivity.
  rewrite (bind_Return _ _ _ _ _ first_loop).
  rewrite (bind_Return _ _ _ _ _ (second_collect _)).
  rewrite (bind_Return _ _ _ _ _ second_loop).
  erewrite (bind_Return _ _ _ _ (Some (emptied s))).
  2:{ unfold ScenesService.sceneOfState. msimpl. rewrite swept_get_own. reflexivity. }
  unfold ScenesService.REMOVE_SCENE. msimpl.
  destruct swept_frame as (Ha & Ho & _). rewrite Ha, Ho.
  unfold advance, afterRemoval, removalEvents, switchedEvents. simpl.
  fold st.
  destruct (String.eqb (IScenesState.activeSceneId st) id) eqn:Hact.
  - destruct (successor id st) as [k|] eqn:Hsucc.
    + destruct (successor_ok k Hsucc) as (Htruthy & sc & Hsc).
      unfold successor in Hsucc.
      destruct (Dict.keys (Dict.delete (IScenesState.scenes (swept id st)) id))
        as [|k0 r] eqn:Hkeys; [discriminate|].
      injection Hsucc as ->. rewrite Htruthy.
      unfold ScenesService.makeSceneActive, ScenesService.getScene,
        ScenesService.MAKE_SCENE_ACTIVE, Scene.getModel.
      msimpl. rewrite !Hsc. simpl. rewrite ?Hsc.
      rewrite <- !app_assoc. reflexivity.
    + unfold successor in Hsucc.
      destruct (Dict.keys (Dict.delete (IScenesState.scenes (swept id st)) id))
        as [|k0 r] eqn:Hkeys; [|discriminate].
      simpl. rewrite <- !app_assoc. reflexivity.
  - simpl. rewrite <- !app_assoc. reflexivity.
Qed.

End RemoveScene.

Lemma swept_items (w : World) (id k : string) (s : IScene.t) :
  consistent w ->
  Dict.get (IScenesState.scenes (state w)) id = Some s ->
  k <> id ->
  itemsOf (nodesOf (swept id (state w)) k)
  = filter (fun i => negb (references id i)) (itemsOf (nodesOf (state w) k)).
Proof.
  intros Hcons Hs Hk. pose proof Hcons as (Hnd & Hkeys & Hids & _).
  assert (Hk' : String.eqb id k = false) by (apply String.eqb_neq; congruence).
  destruct (Dict.get (IScenesState.scenes (state w)) k) as [sc|] eqn:Hsc.
  - assert (Hin : In k (IScenesState.displayOrder (state w))).
    { apply Hkeys. now apply get_In_keys with sc. }
    unfold nodesOf at 1. unfold swept.
    erewrite get_purge; [|exact Hnd|exact Hin|].
    2:{ rewrite (st1_get w id s Hs), Hk'. exact Hsc. }
    simpl. rewrite (nodesOf_get _ _ _ Hsc).
    apply itemsOf_drop_chosen. now apply Hids with k.
  - unfold nodesOf. rewrite Hsc. unfold swept.
    rewrite get_purge_other.
    + now rewrite (st1_get w id s Hs), Hk', Hsc.
    + intros Hin. apply Hkeys, In_keys_get in Hin. destruct Hin as [v Hv].
      congruence.
Qed.

Lemma swept_nodes (w : World) (id k : string) (s : IScene.t) :
  consistent w ->
  Dict.get (IScenesState.scenes (state w)) id = Some s ->
  k <> id ->
  nodesOf (swept id (state w)) k
  = dropItems (itemIds (filter (references id) (itemsOf (nodesOf (state w) k))))
              (nodesOf (state w) k).
Proof.
  intros Hcons Hs Hk. pose proof Hcons as (Hnd & Hkeys & Hids & _).
  assert (Hk' : String.eqb id k = false) by (apply String.eqb_neq; congruence).
  destruct (Dict.get (IScenesState.scenes (state w)) k) as [sc|] eqn:Hsc.
  - assert (Hin : In k (IScenesState.displayOrder (state w))).
    { apply Hkeys. now apply get_In_keys with sc. }
    unfold nodesOf at 1. unfold swept.
    erewrite get_purge; [|exact Hnd|exact Hin|].
    2:{ rewrite (st1_get w id s Hs), Hk'. exact Hsc. }
    simpl. now rewrite (nodesOf_get _ _ _ Hsc).
  - unfold nodesOf. rewrite Hsc. unfold swept.
    rewrite get_purge_other.
    + now rewrite (st1_get w id s Hs), Hk', Hsc.
    + intros Hin. apply Hkeys, In_keys_get in Hin. destruct Hin as [v Hv].
      congruence.
Qed.

(** ** What a removal leaves of a node list *)

Lemma withoutChildren_nil f : withoutChildren [] f = f.
Proof.
  destruct f as [i n c p]. unfold withoutChildren. simpl.
  now rewrite (filter_all (fun _ => true)).
Qed.

Lemma leftNodes_nil nodes : leftNodes [] nodes = nodes.
Proof.
  unfold leftNodes. induction nodes as [|[i|f] r IH]; [reflexivity| |].
  - cbn [flat_map app]. rewrite IH. reflexivity.
  - cbn [flat_map app]. now rewrite withoutChildren_nil, IH.
Qed.

Lemma leftNodes_dropItem x xs nodes :
  leftNodes xs (dropItem x nodes) = leftNodes (x :: xs) nodes.
Proof.
  unfold leftNodes, dropItem.
  induction nodes as [|[i|f] r IH]; simpl; [reflexivity| |].
  - destruct (String.eqb (ISceneItem.sceneItemId i) x); simpl; [exact IH|].
    now rewrite IH.
  - rewrite IH. f_equal. f_equal. unfold withoutChildren. simpl. f_equal.
    unfold without. rewrite filter_both. apply filter_ext. intros c.
    now rewrite negb_orb.
Qed.

(** Dropping items one by one leaves what [leftNodes] says. *)
Lemma dropItems_leftNodes ids : forall nodes,
  dropItems ids nodes = leftNodes ids nodes.
Proof.
  induction ids as [|x xs IH]; intros nodes.
  - now rewrite leftNodes_nil.
  - change (dropItems (x :: xs) nodes) with (dropItems xs (dropItem x nodes)).
    now rewrite IH, leftNodes_dropItem.
Qed.

(** C6, as the code has it.  On a consistent store (the display order
    lists every stored scene once and nothing else, the items of a scene
    have distinct ids, no scene has the empty id), [removeScene(id)] of a
    scene that exists and may be removed ([force], or at least two scenes)
    emits, in this order: item-removed for every item of the scene,
    item-removed for every item of the other scenes whose source is the
    scene, scene-switched if the scene was active and another scene is left,
    and scene-removed last of all.  Only items are removed one by one: the
    folders of the scene stay in its record, which scene-removed carries and
    the call returns, and every folder of any scene just loses the removed
    items from its child list.  Afterwards the scene record is gone from the
    store and from the display order, the other scenes have lost exactly the
    items that referenced it, and, when the scene was active, the first
    remaining scene is the active one. *)
Theorem removeScene_cascade
    (w : World) (id : string) (force : bool) (s : IScene.t) :
  consistent w ->
  Dict.get (IScenesState.scenes (state w)) id = Some s ->
  force = true \/ (2 <= sceneCount w)%nat ->
  let st := state w in
  let w' := run (ScenesService.removeScene id force) w in
  let st' := state w' in
  result (ScenesService.removeScene id force) w = Return (Some (emptied s))
  /\ events w' =
     events w
     ++ map removedEvent (map (SceneItem.mk id) (itemsOf (IScene.nodes s)))
     ++ map removedEvent (referencingItems id st)
     ++ switchedEvents id st
     ++ [sceneRemoved (Some (emptied s))]
  /\ itemsOf (IScene.nodes (emptied s)) = []
  /\ IScene.nodes (emptied s)
     = leftNodes (itemIds (itemsOf (IScene.nodes s))) (IScene.nodes s)
  /\ (forall k, k <> id ->
        itemsOf (nodesOf st' k)
        = filter (fun i => negb (references id i)) (itemsOf (nodesOf st k)))
  /\ (forall k, k <> id ->
        nodesOf st' k
        = leftNodes (itemIds (filter (references id) (itemsOf (nodesOf st k))))
                    (nodesOf st k))
  /\ Dict.get (IScenesState.scenes st') id = None
  /\ Dict.keys (IScenesState.scenes st')
     = without (Dict.keys (IScenesState.scenes st)) id
  /\ IScenesState.displayOrder st' = without (IScenesState.displayOrder st) id
  /\ (IScenesState.activeSceneId st <> id ->
      IScenesState.activeSceneId st' = IScenesState.activeSceneId st
      /\ switchedEvents id st = [])
  /\ (IScenesState.activeSceneId st = id ->
      match Dict.keys (IScenesState.scenes st') with
      | k :: _ =>
          IScenesState.activeSceneId st' = k
          /\ switchedEvents id st
             = [sceneSwitched (Dict.get (IScenesState.scenes st') k)]
      | [] =>
          IScenesState.activeSceneId st' = id /\ switchedEvents id st = []
      end).
Proof.
  intros Hcons Hs Hrem st w' st'. subst st' w'. unfold result, run.
  rewrite (removeScene_run w id force s Hcons Hs Hrem). simpl. fold st.
  split; [reflexivity|]. split; [reflexivity|].
  split; [apply emptied_items|].
  split; [apply dropItems_leftNodes|].
  split.
  { intros k Hk. unfold nodesOf at 1. simpl. rewrite get_delete.
    assert (Hk' : String.eqb id k = false) by (apply String.eqb_neq; congruence).
    rewrite Hk'. apply (swept_items w id k s Hcons Hs Hk). }
  split.
  { intros k Hk. rewrite <- dropItems_leftNodes.
    assert (Hk' : String.eqb id k = false) by (apply String.eqb_neq; congruence).
    transitivity (nodesOf (swept id (state w)) k).
    - unfold nodesOf. simpl. rewrite get_delete. now rewrite Hk'.
    - apply (swept_nodes w id k s Hcons Hs Hk). }
  split; [now rewrite get_delete, String.eqb_refl|].
  split.
  { rewrite keys_delete. f_equal. apply (swept_frame w id). }
  split; [reflexivity|].
  unfold switchedEvents, successor. split.
  - intros Hne. apply String.eqb_neq in Hne. now rewrite Hne.
  - intros Heq. rewrite Heq, String.eqb_refl.
    destruct (Dict.keys (Dict.delete (IScenesState.scenes (swept id st)) id));
      now split.
Qed.

Lemma removeScene_cascade_witness :
  let w' := run (ScenesService.removeScene "scene_1" false) folderWorld in
  consistent folderWorld
  /\ (2 <= sceneCount folderWorld)%nat
  /\ nodesOf (state folderWorld) "scene_1"
     = [Folder (ISceneItemFolder.mk "f1" "Group" ["4"] None);
        Item (ISceneItem.mk "4" "scene_2" defaultSettings (Some "f1"))]
  /\ nodesOf (state folderWorld) "scene_3"
     = [Folder (ISceneItemFolder.mk "g1" "Group" ["5"] None);
        Item (ISceneItem.mk "5" "scene_1" defaultSettings (Some "g1"))]
  /\ events w'
     = events folderWorld
       ++ [itemRemoved "scene_1"
             (ISceneItem.mk "4" "scene_2" defaultSettings (Some "f1"));
           itemRemoved "scene_3"
             (ISceneItem.mk "5" "scene_1" defaultSettings (Some "g1"));
           sceneSwitched (Some (freshScene "scene_0" "Scene"));
           sceneRemoved
             (Some (setNodes (freshScene "scene_1" "SceneA")
                      [Folder (ISceneItemFolder.mk "f1" "Group" [] None)]))]
  /\ nodesOf (state w') "scene_3"
     = [Folder (ISceneItemFolder.mk "g1" "Group" [] None)].
Proof.
  intros w'.
  assert (Hc : consistent folderWorld)
    by (apply consistentb_sound; vm_compute; reflexivity).
  assert (Hn : (2 <= sceneCount folderWorld)%nat)
    by (apply Nat.leb_le; vm_compute; reflexivity).
  assert (Hs : Dict.get (IScenesState.scenes (state folderWorld)) "scene_1"
               = Some (setNodes (freshScene "scene_1" "SceneA")
                         (grouped "f1" "4" (IScene.nodes cascadeSceneA))))
    by (vm_compute; reflexivity).
  assert (Hne : "scene_3" <> "scene_1") by discriminate.
  pose proof (removeScene_cascade folderWorld "scene_1" false _ Hc Hs
                (or_intror Hn)) as (_ & Hev & _ & _ & _ & Hnodes & _).
  split; [exact Hc|]. split; [exact Hn|].
  split; [vm_compute; reflexivity|]. split; [vm_compute; reflexivity|].
  split.
  - subst w'. rewrite Hev. vm_compute. reflexivity.
  - subst w'. rewrite (Hnodes "scene_3" Hne). vm_compute. reflexivity.
Defined.

(** C6 fails as stated.  Where the display order does not list the stored
    scenes the cascade is cut short: with scene C, which holds scene A, left
    out of the display order, [removeScene] of scene A completes and emits
    scene-removed, and the item of scene C whose source is scene A is still
    there; with an id in the display order that names no scene, the forced
    [removeScene] of the only scene removes its two items and then throws,
    so that the scene record is still in the store and no scene-removed
    event is emitted.  And not every node is removed: a folder of the
    removed scene is still in the record that scene-removed carries, and
    item-removed is emitted for the item only. *)
Lemma removeScene_cascade_needs_listed_scenes :
  let w := hiddenWorld in
  let w' := run (ScenesService.removeScene "scene_1" false) w in
  let g := ghostOrderWorld in
  let g' := run (ScenesService.removeScene "scene_0" true) g in
  let f := folderWorld in
  let f' := run (ScenesService.removeScene "scene_1" false) f in
  (sceneCount w = 4%nat
   /\ result (ScenesService.removeScene "scene_1" false) w
      = Return (Some (freshScene "scene_1" "SceneA"))
   /\ Dict.get (IScenesState.scenes (state w')) "scene_1" = None
   /\ itemsOf (nodesOf (state w') "scene_3")
      = [ISceneItem.mk "5" "scene_1" defaultSettings None]
   /\ events w'
      = events w
        ++ [itemRemoved "scene_1" (ISceneItem.mk "4" "scene_2" defaultSettings None);
            sceneSwitched (Some (freshScene "scene_0" "Scene"));
            sceneRemoved (Some (freshScene "scene_1" "SceneA"))])
  /\ (result (ScenesService.removeScene "scene_0" true) g = Throw TypeError
      /\ Dict.keys (IScenesState.scenes (state g')) = ["scene_0"]
      /\ itemsOf (nodesOf (state g') "scene_0") = []
      /\ length (events g') = (length (events g) + 2)%nat
      /\ forallb (fun e => match e with sceneRemoved _ => false | _ => true end)
                 (events g') = true)
  /\ (length (nodesOf (state f) "scene_1") = 2%nat
      /\ result (ScenesService.removeScene "scene_1" false) f
         = Return
             (Some (setNodes (freshScene "scene_1" "SceneA")
                      [Folder (ISceneItemFolder.mk "f1" "Group" [] None)]))
      /\ events f'
         = events f
           ++ [itemRemoved "scene_1"
                 (ISceneItem.mk "4" "scene_2" defaultSettings (Some "f1"));
               itemRemoved "scene_3"
                 (ISceneItem.mk "5" "scene_1" defaultSettings (Some "g1"));
               sceneSwitched (Some (freshScene "scene_0" "Scene"));
               sceneRemoved
                 (Some (setNodes (freshScene "scene_1" "SceneA")
                          [Folder (ISceneItemFolder.mk "f1" "Group" [] None)]))]).
Proof. vm_compute. repeat split. Qed.

(** ** Duplicating the items of a scene *)

Lemma mapNodes_ext st k f g :
  (forall sc, Dict.get (IScenesState.scenes st) k = Some sc ->
              f (IScene.nodes sc) = g (IScene.nodes sc)) ->
  mapNodes k f st = mapNodes k g st.
Proof.
  intros H. unfold mapNodes.
  destruct (Dict.get (IScenesState.scenes st) k) as [sc|] eqn:E; [|reflexivity].
  now rewrite (H sc eq_refl).
Qed.

Lemma updateItem_absent itemId f nodes :
  (forall i, In i (itemsOf nodes) -> ISceneItem.sceneItemId i <> itemId) ->
  updateItem itemId f nodes = nodes.
Proof.
  induction nodes as [|[i|fo] r IH]; simpl; intros H; [reflexivity| |].
  - assert (E : String.eqb (ISceneItem.sceneItemId i) itemId = false).
    { apply String.eqb_neq. apply H. now left. }
    rewrite E. f_equal. apply IH. intros j Hj. apply H. now right.
  - f_equal. now apply IH.
Qed.

Lemma contains_last w a b : contains w a b -> exists c, nests w c b.
Proof.
  intros H. apply clos_trans_tn1 in H. destruct H as [H | c b H _].
  - now exists a.
  - now exists c.
Qed.

(** Nothing nests a scene that no item references. *)
Lemma unreferenced_not_nested w id fuel a :
  unreferenced id w -> Scene.hasNestedScene fuel w a id = false.
Proof.
  intros Hun. destruct (Scene.hasNestedScene fuel w a id) eqn:E; [|reflexivity].
  apply hasNestedScene_sound, contains_last in E.
  destruct E as (c & i & Hi & Hsrc & _). exfalso. exact (Hun c i Hi Hsrc).
Qed.

Lemma canAddSource_unreferenced w scene sourceId :
  unreferenced scene w ->
  SourcesService.getSource w sourceId <> None ->
  sourceId <> scene ->
  Scene.canAddSource w scene sourceId = true.
Proof.
  intros Hun Hsrc Hne. unfold Scene.canAddSource.
  destruct (SourcesService.getSource w sourceId) as [src|]; [|congruence].
  destruct (String.eqb (ISource.type src) "scene"); [|reflexivity].
  rewrite unreferenced_not_nested by assumption.
  apply String.eqb_neq in Hne. now rewrite Hne.
Qed.

(** One round of the copy loop. *)
Lemma duplicateItem_step w newScene item scn :
  Dict.get (IScenesState.scenes (state w)) newScene = Some scn ->
  Scene.canAddSource w newScene (SceneItem.sourceId item) = true ->
  (forall i, In i (itemsOf (IScene.nodes scn)) ->
             ISceneItem.sceneItemId i <> uniqueIds w (uniqueIdCalls w)) ->
  let copy := duplicateOf (uniqueIds w (uniqueIdCalls w)) (SceneItem.model item) in
  ScenesService.duplicateItem (Some newScene) item w =
  (mkWorld
     (mapNodes newScene (fun nodes => Item copy :: nodes) (state w))
     (sources w)
     (events w ++ [itemAdded newScene (newItem w (SceneItem.sourceId item));
                   itemUpdated newScene copy])
     (alerts w) (uniqueIds w) (S (uniqueIdCalls w)),
   Return tt).
Proof.
  intros Hscn Hcan Hfresh copy. unfold ScenesService.duplicateItem.
  rewrite (bind_Return _ _ w w newScene) by reflexivity.
  rewrite (bind_Return _ _ _ _ _ (addSource_accepted w newScene _ scn Hscn Hcan)).
  set (w1 := mkWorld _ _ _ _ _ _).
  rewrite (bind_Return _ _ w1 w1
             (SceneItem.mk newScene (newItem w (SceneItem.sourceId item))))
    by reflexivity.
  assert (Hscn1 : Dict.get (IScenesState.scenes (state w1)) newScene
                  = Some (setNodes scn (Item (newItem w (SceneItem.sourceId item))
                                         :: IScene.nodes scn))).
  { subst w1. simpl. now rewrite get_mapNodes, String.eqb_refl, Hscn. }
  rewrite (setSettings_found w1 _ _ (newItem w (SceneItem.sourceId item))).
  2:{ unfold SceneItem.sceneItemId.
      cbn [SceneItem.sceneId SceneItem.model].
      rewrite (nodesOf_get _ _ _ Hscn1). unfold findItem. simpl.
      now rewrite String.eqb_refl. }
  unfold SceneItem.sceneItemId. cbn [SceneItem.sceneId SceneItem.model].
  subst w1. simpl. rewrite mapNodes_mapNodes.
  unfold SceneItemApi.getSettings, SceneItem.sceneItemId. simpl.
  fold copy. rewrite <- app_assoc. simpl.
  f_equal. f_equal.
  apply mapNodes_ext. intros sc Hsc. rewrite Hscn in Hsc. injection Hsc as <-.
  simpl. rewrite String.eqb_refl. f_equal.
  apply updateItem_absent. exact Hfresh.
Qed.

(** The copy loop: the copies pile up in front of the new scene's nodes. *)
Lemma duplicate_loop newScene old L : forall w scn,
  Dict.get (IScenesState.scenes (state w)) newScene = Some scn ->
  unreferenced newScene w ->
  uniqueIdsDistinct w ->
  (forall i, In i (itemsOf (IScene.nodes scn)) ->
     exists m, (m < uniqueIdCalls w)%nat
               /\ ISceneItem.sceneItemId i = uniqueIds w m) ->
  (forall a, In a L ->
     SourcesService.getSource w (ISceneItem.sourceId a) <> None
     /\ ISceneItem.sourceId a <> newScene) ->
  forEach (map (SceneItem.mk old) L)
          (ScenesService.duplicateItem (Some newScene)) w =
  (mkWorld
     (mapNodes newScene
        (fun nodes =>
           map Item (rev (duplicates (uniqueIds w) (uniqueIdCalls w) L)) ++ nodes)
        (state w))
     (sources w)
     (events w ++ duplicateEvents newScene (uniqueIds w) (uniqueIdCalls w) L)
     (alerts w) (uniqueIds w) (length L + uniqueIdCalls w),
   Return tt).
Proof.
  induction L as [|a L IH]; intros w scn Hscn Hun Hdist Hids HL.
  - simpl. rewrite mapNodes_id, app_nil_r. now destruct w.
  - simpl.
    destruct (HL a (or_introl eq_refl)) as [Hsrc Hne].
    assert (Hfresh : forall i, In i (itemsOf (IScene.nodes scn)) ->
              ISceneItem.sceneItemId i <> uniqueIds w (uniqueIdCalls w)).
    { intros i Hi E. destruct (Hids i Hi) as (m & Hm & Em).
      rewrite Em in E. apply Hdist in E. lia. }
    rewrite (bind_Return _ _ _ _ _
               (duplicateItem_step w newScene (SceneItem.mk old a) scn Hscn
                  (canAddSource_unreferenced w newScene _ Hun Hsrc Hne) Hfresh)).
    set (copy := duplicateOf (uniqueIds w (uniqueIdCalls w)) a).
    set (w1 := mkWorld _ _ _ _ _ _).
    change (SceneItem.model (SceneItem.mk old a)) with a in *.
    assert (Hscn1 : Dict.get (IScenesState.scenes (state w1)) newScene
                    = Some (setNodes scn (Item copy :: IScene.nodes scn))).
    { subst w1. simpl. now rewrite get_mapNodes, String.eqb_refl, Hscn. }
    rewrite (IH w1 _ Hscn1).
    + subst w1. simpl. rewrite mapNodes_mapNodes.
      unfold SceneItem.sourceId. simpl. fold copy.
      rewrite <- app_assoc. simpl. rewrite Nat.add_succ_r.
      f_equal. f_equal.
      apply mapNodes_ext. intros sc _.
      rewrite map_app, <- app_assoc. reflexivity.
    + intros k i Hi. subst w1. simpl in Hi.
      destruct (String.eqb newScene k) eqn:E.
      * apply String.eqb_eq in E. subst k.
        rewrite (nodesOf_mapNodes_same _ _ _ scn Hscn) in Hi.
        rewrite itemsOf_cons_item in Hi. destruct Hi as [<-|Hi]; [exact Hne|].
        exact (Hun newScene i Hi).
      * apply String.eqb_neq in E.
        rewrite nodesOf_mapNodes_other in Hi by assumption.
        now apply (Hun k i).
    + exact Hdist.
    + intros i Hi. simpl in Hi. destruct Hi as [<-|Hi].
      * exists (uniqueIdCalls w). subst w1. simpl. split; [lia | reflexivity].
      * destruct (Hids i Hi) as (m & Hm & Em). exists m. subst w1. simpl.
        split; [lia | exact Em].
    + intros b Hb. subst w1. apply HL. now right.
Qed.

Lemma fold_left_ext_in {A B} (f g : A -> B -> A) l : forall a,
  (forall b acc, In b l -> f acc b = g acc b) ->
  fold_left f l a = fold_left g l a.
Proof.
  induction l as [|b r IH]; intros a H; simpl; [reflexivity|].
  rewrite (H b a) by now left. apply IH. intros b' acc Hb'. apply H. now right.
Qed.

Lemma replace_app_fresh {V} (d : Dict.t V) k v0 v :
  Dict.get d k = None ->
  Dict.replace k v (d ++ [(k, v0)]) = d ++ [(k, v)].
Proof.
  induction d as [|[k0 v1] r IH]; simpl; intros H.
  - now rewrite String.eqb_refl.
  - destruct (String.eqb k0 k); [discriminate|]. now rewrite IH.
Qed.

Lemma itemsOf_map_Item l : itemsOf (map Item l) = l.
Proof. induction l as [|a r IH]; simpl; [reflexivity | now rewrite IH]. Qed.

Lemma duplicates_sourceIds ids l : forall c,
  map ISceneItem.sourceId (duplicates ids c l) = map ISceneItem.sourceId l.
Proof. induction l as [|a r IH]; intros c; simpl; [reflexivity | now rewrite IH]. Qed.

Lemma duplicates_settings ids l : forall c,
  map ISceneItem.settings (duplicates ids c l)
  = map (fun i => applySettings (fullPatch (ISceneItem.settings i)) defaultSettings) l.
Proof. induction l as [|a r IH]; intros c; simpl; [reflexivity | now rewrite IH]. Qed.

Lemma getSceneByName_run w name :
  ScenesService.getSceneByName name w = (w, Return (handleByName (state w) name)).
Proof.
  unfold ScenesService.getSceneByName, ScenesService.getScene, handleByName.
  msimpl. now destruct (ScenesService.foundScene (state w) name).
Qed.

(** A new scene of another name, wherever [Object.keys] lists it, does not
    change what [getSceneByName] finds. *)
Lemma foundScene_set_other st st1 id s template :
  IScenesState.scenes st1 = Dict.set (IScenesState.scenes st) id s ->
  Dict.get (IScenesState.scenes st) id = None ->
  IScene.name s <> template ->
  ScenesService.foundScene st1 template = ScenesService.foundScene st template.
Proof.
  intros Hs Hfresh Hname. unfold ScenesService.foundScene. rewrite Hs.
  destruct (set_fresh_split (IScenesState.scenes st) id s Hfresh)
    as (d1 & d2 & Hd & Hset).
  assert (HkD : Dict.keys (Dict.set (IScenesState.scenes st) id s)
                = Dict.keys d1 ++ id :: Dict.keys d2).
  { rewrite Hset. unfold Dict.keys. now rewrite map_app. }
  assert (Hkd : Dict.keys (IScenesState.scenes st) = Dict.keys d1 ++ Dict.keys d2).
  { rewrite Hd. unfold Dict.keys. now rewrite map_app. }
  rewrite HkD, Hkd, !fold_left_app. cbn [fold_left].
  rewrite get_set, String.eqb_refl.
  apply String.eqb_neq in Hname. rewrite Hname.
  rewrite <- !fold_left_app. apply fold_left_ext_in.
  intros k acc Hk. rewrite get_set.
  destruct (String.eqb id k) eqn:E; [|reflexivity].
  apply String.eqb_eq in E. subst k. exfalso.
  apply (get_None_not_In _ _ Hfresh). now rewrite Hkd.
Qed.

(** A generated id is no array index. *)
Lemma generated_id_no_index uid :
  Dict.array_index ("scene_" ++ uid)%string = None.
Proof. reflexivity. Qed.

(** Making up the id of the new scene. *)
Lemma createScene_id_run options w :
  match ISceneCreateOptions.sceneId options with
  | Some s =>
      if truthy s then ret s
      else (uid <- getUniqueId ;; ret ("scene_" ++ uid)%string)
  | None => uid <- getUniqueId ;; ret ("scene_" ++ uid)%string
  end w
  = (mkWorld (state w) (sources w) (events w) (alerts w) (uniqueIds w)
       (match ISceneCreateOptions.sceneId options with
        | Some s => if truthy s then uniqueIdCalls w else S (uniqueIdCalls w)
        | None => S (uniqueIdCalls w)
        end),
     Return (newSceneId options w)).
Proof.
  unfold newSceneId, or_else. destruct w.
  destruct (ISceneCreateOptions.sceneId options) as [s|];
    [destruct (truthy s)|]; reflexivity.
Qed.

(** [if (options.makeActive) this.makeSceneActive(id)] on a stored scene. *)
Lemma activation_step (makeActive : bool) id sc w :
  Dict.get (IScenesState.scenes (state w)) id = Some sc ->
  (if makeActive then ScenesService.makeSceneActive id ;;; ret tt else ret tt) w
  = (mkWorld (activated makeActive id (state w)) (sources w)
       (events w ++ (if makeActive then [sceneSwitched (Some sc)] else []))
       (alerts w) (uniqueIds w) (uniqueIdCalls w),
     Return tt).
Proof.
  intros H. destruct makeActive.
  - unfold ScenesService.makeSceneActive, ScenesService.getScene,
      ScenesService.MAKE_SCENE_ACTIVE, Scene.getModel.
    msimpl. rewrite H. simpl. rewrite H. reflexivity.
  - unfold ret, activated. rewrite app_nil_r. now destruct w.
Qed.

Lemma activated_scenes makeActive id st :
  IScenesState.scenes (activated makeActive id st) = IScenesState.scenes st.
Proof. now destruct makeActive. Qed.

(** Where the new scene is the last that [Object.keys] lists, the call
    returns its handle. *)
Lemma handleByName_last st d id name s :
  IScenesState.scenes st = d ++ [(id, s)] ->
  Dict.get d id = None ->
  IScene.name s = name ->
  IScene.id s = id ->
  handleByName st name = Some id.
Proof.
  intros Hs Hd Hn Hi. unfold handleByName.
  rewrite (foundScene_last st d id name s Hs Hd Hn), Hi, Hs, get_app, Hd.
  cbn [Dict.get]. now rewrite String.eqb_refl.
Qed.

Section CreateDuplicate.
Variables (w : World) (name : string) (options : ISceneCreateOptions.t).
Variables (template : string) (tpl : IScene.t).

Let id := newSceneId options w.
Let c :=
  match ISceneCreateOptions.sceneId options with
  | Some s => if truthy s then uniqueIdCalls w else S (uniqueIdCalls w)
  | None => S (uniqueIdCalls w)
  end.

(** The world once the new scene is stored and registered. *)
Let w1 : World :=
  mkWorld
    (IScenesState.mk
       (if truthy (IScenesState.activeSceneId (state w))
        then IScenesState.activeSceneId (state w) else id)
       (IScenesState.displayOrder (state w) ++ [id])
       (Dict.set (IScenesState.scenes (state w)) id (freshScene id name)))
    (Dict.set (sources w) id (ISource.mk id name "scene"))
    (events w) (alerts w) (uniqueIds w) c.

(** The scene [getSceneByName] takes for the template once the new scene is
    stored, its items, and their copies. *)
Let items : list ISceneItem.t := itemsOf (IScene.nodes tpl).

Let copies : list ISceneItem.t :=
  rev (duplicates (uniqueIds w) c (rev items)).

Hypothesis Hoption :
  ISceneCreateOptions.duplicateSourcesFromScene options = Some template.
Hypothesis Htruthy : truthy template = true.
Hypothesis Hfound : ScenesService.foundScene (state w1) template = Some tpl.
Hypothesis Hstored :
  Dict.get (IScenesState.scenes (state w1)) (IScene.id tpl) = Some tpl.
Hypothesis Hunreferenced : unreferenced id w1.
Hypothesis Hdistinct : uniqueIdsDistinct w.
Hypothesis Hsources :
  forall a, In a items ->
    SourcesService.getSource w1 (ISceneItem.sourceId a) <> None
    /\ ISceneItem.sourceId a <> id.

Lemma dup_w1_new :
  Dict.get (IScenesState.scenes (state w1)) id = Some (freshScene id name).
Proof.
  subst w1. cbn [state IScenesState.scenes]. now rewrite get_set, String.eqb_refl.
Qed.

Lemma dup_loop :
  forEach (rev (map (SceneItem.mk (IScene.id tpl)) items))
          (ScenesService.duplicateItem (Some id)) w1 =
  (mkWorld
     (mapNodes id (fun nodes => map Item copies ++ nodes) (state w1))
     (sources w1)
     (events w ++ duplicateEvents id (uniqueIds w) c (rev items))
     (alerts w) (uniqueIds w) (length (rev items) + c),
   Return tt).
Proof.
  rewrite <- map_rev.
  rewrite (duplicate_loop id (IScene.id tpl) _ w1 (freshScene id name)).
  - reflexivity.
  - exact dup_w1_new.
  - exact Hunreferenced.
  - exact Hdistinct.
  - intros i [].
  - intros a Ha. apply Hsources. now apply in_rev.
Qed.

(** The new scene at the end: its record holds the copies. *)
Let copied : IScene.t := setNodes (freshScene id name) (map Item copies ++ []).

Lemma dup_find_template :
  ScenesService.getSceneByName template w1 = (w1, Return (Some (IScene.id tpl))).
Proof.
  unfold ScenesService.getSceneByName.
  rewrite (bind_Return _ _ w1 w1 (state w1)) by reflexivity.
  rewrite Hfound. unfold ScenesService.getScene.
  rewrite (bind_Return _ _ w1 w1 (state w1)) by reflexivity.
  now rewrite Hstored.
Qed.

Lemma dup_block :
  (oldScene <- ScenesService.getSceneByName template ;;
   newScene <- ScenesService.getScene id ;;
   old0 <- deref oldScene ;;
   items0 <- Scene.getItems old0 ;;
   forEach (rev items0) (ScenesService.duplicateItem newScene)) w1
  = (mkWorld
       (mapNodes id (fun nodes => map Item copies ++ nodes) (state w1))
       (sources w1)
       (events w ++ duplicateEvents id (uniqueIds w) c (rev items))
       (alerts w) (uniqueIds w) (length (rev items) + c),
     Return tt).
Proof.
  rewrite (bind_Return _ _ _ _ _ dup_find_template).
  rewrite (bind_Return _ _ w1 w1 (Some id)).
  2:{ unfold ScenesService.getScene.
      rewrite (bind_Return _ _ w1 w1 (state w1)) by reflexivity.
      now rewrite dup_w1_new. }
  rewrite (bind_Return _ _ w1 w1 (IScene.id tpl)) by reflexivity.
  rewrite (bind_Return _ _ w1 w1 (map (SceneItem.mk (IScene.id tpl)) items)).
  2:{ unfold Scene.getItems.
      rewrite (bind_Return _ _ w1 w1 (state w1)) by reflexivity.
      unfold ret. now rewrite (nodesOf_get _ _ _ Hstored). }
  exact dup_loop.
Qed.

(** The store [createScene] leaves. *)
Let st3 : IScenesState.t :=
  activated (ISceneCreateOptions.makeActive options) id
    (mapNodes id (fun nodes => map Item copies ++ nodes) (state w1)).

Lemma dup_copied k :
  Dict.get (IScenesState.scenes st3) k
  = if String.eqb id k then Some copied
    else Dict.get (IScenesState.scenes (state w)) k.
Proof.
  subst st3. rewrite activated_scenes, get_mapNodes, dup_w1_new.
  destruct (String.eqb id k) eqn:E; [reflexivity|].
  subst w1. cbn [state IScenesState.scenes]. now rewrite get_set, E.
Qed.

Lemma createScene_duplicate_run :
  ScenesService.createScene name options w =
  (mkWorld st3 (sources w1)
     (events w
      ++ duplicateEvents id (uniqueIds w) c (rev items)
      ++ sceneAdded (Some copied)
         :: (if ISceneCreateOptions.makeActive options
             then [sceneSwitched (Some copied)] else []))
     (alerts w) (uniqueIds w) (length (rev items) + c),
   Return (handleByName st3 name)).
Proof.
  unfold ScenesService.createScene.
  rewrite (bind_Return _ _ _ _ _ (createScene_id_run options w)).
  fold id c.
  erewrite (bind_Return _ _ _ _ tt) by reflexivity.
  erewrite (bind_Return _ _ _ w1 tt) by reflexivity.
  rewrite Hoption, Htruthy.
  rewrite (bind_Return _ _ _ _ _ dup_block).
  set (w2 := mkWorld _ _ _ _ _ _).
  assert (Hcopied : Dict.get (IScenesState.scenes (state w2)) id = Some copied).
  { subst w2. cbn [state]. now rewrite get_mapNodes, String.eqb_refl, dup_w1_new. }
  rewrite (bind_Return _ _ w2 w2 (Some copied)).
  2:{ unfold ScenesService.sceneOfState.
      rewrite (bind_Return _ _ w2 w2 (state w2)) by reflexivity.
      now rewrite Hcopied. }
  set (w2e := mkWorld (state w2) (sources w2)
                 (events w2 ++ [sceneAdded (Some copied)])
                 (alerts w2) (uniqueIds w2) (uniqueIdCalls w2)).
  rewrite (bind_Return _ _ w2 w2e tt) by reflexivity.
  rewrite (bind_Return _ _ _ _ _ (activation_step _ id copied w2e Hcopied)).
  rewrite getSceneByName_run.
  subst w2e w2. cbn [state events sources alerts uniqueIds uniqueIdCalls].
  rewrite <- !app_assoc. reflexivity.
Qed.

Lemma dup_final_scenes :
  Dict.get (IScenesState.scenes (state w)) id = None ->
  Dict.array_index id = None ->
  IScenesState.scenes st3 = IScenesState.scenes (state w) ++ [(id, copied)].
Proof.
  intros Hf Hi. subst st3. rewrite activated_scenes.
  rewrite (mapNodes_present _ _ _ (freshScene id name) dup_w1_new).
  subst w1. cbn [state IScenesState.scenes]. unfold Dict.set at 1.
  rewrite Hf, Hi. now apply replace_app_fresh.
Qed.

(** What the call returns, and what it leaves in the new scene and in the
    registry. *)
Lemma createScene_duplicate_outcome :
  let w' := run (ScenesService.createScene name options) w in
  (exists r, result (ScenesService.createScene name options) w = Return r)
  /\ (Dict.get (IScenesState.scenes (state w)) id = None ->
      Dict.array_index id = None ->
      result (ScenesService.createScene name options) w = Return (Some id))
  /\ itemsOf (nodesOf (state w') id) = copies
  /\ sources w' = Dict.set (sources w) id (ISource.mk id name "scene").
Proof.
  intros w'. subst w'. unfold result, run. rewrite createScene_duplicate_run.
  cbn [fst snd state sources].
  split; [now eexists|]. split; [|split; [|reflexivity]].
  - intros Hf Hi. f_equal.
    apply (handleByName_last st3 (IScenesState.scenes (state w)) id name copied);
      [now apply dup_final_scenes | exact Hf | reflexivity | reflexivity].
  - unfold nodesOf. rewrite dup_copied, String.eqb_refl. subst copied.
    cbn [IScene.nodes setNodes]. rewrite app_nil_r. apply itemsOf_map_Item.
Qed.

End CreateDuplicate.

Lemma sourcesKnownb_sound w : sourcesKnownb w = true -> sourcesKnown w.
Proof.
  unfold sourcesKnownb. intros H k i Hi. rewrite forallb_forall in H.
  unfold nodesOf in Hi.
  destruct (Dict.get (IScenesState.scenes (state w)) k) as [sc|] eqn:E;
    [|destruct Hi].
  apply get_In in E. specialize (H _ E). simpl in H.
  rewrite forallb_forall in H. specialize (H _ Hi).
  now destruct (SourcesService.getSource w (ISceneItem.sourceId i)).
Qed.

Lemma decimalIds_inj m n : decimalIds m = decimalIds n -> m = n.
Proof.
  unfold decimalIds. intros H.
  apply (f_equal NilEmpty.uint_of_string) in H.
  rewrite !NilEmpty.usu in H. injection H as H.
  apply (f_equal Nat.of_uint) in H.
  now rewrite !Unsigned.of_to in H.
Qed.

(** What the copy loop writes for settings: the flags, the position and the
    scale as they are, the rotation and the crop as [setTransform] stores
    them. *)
Lemma applySettings_fullPatch (s old : ISceneItemSettings.t) :
  let t := ISceneItemSettings.transform s in
  applySettings (fullPatch s) old =
  ISceneItemSettings.mk
    (ITransform.mk (ITransform.position t) (ITransform.scale t)
       (ICrop.mk (normalizeCropField (ICrop.top (ITransform.crop t)))
                 (normalizeCropField (ICrop.bottom (ITransform.crop t)))
                 (normalizeCropField (ICrop.left (ITransform.crop t)))
                 (normalizeCropField (ICrop.right (ITransform.crop t))))
       (normalizeRotation (ITransform.rotation t)))
    (ISceneItemSettings.visible s) (ISceneItemSettings.locked s).
Proof. reflexivity. Qed.

(** C5, as the code has it. [createScene] with [duplicateSourcesFromScene],
    whatever the other options: the id is new and not yet a registered
    source, the template name is not empty and [getSceneByName] finds a
    scene for it, which the store keeps under its own id, every item's
    source is registered, and unique ids never repeat.  When the new name
    is not the template's, the call returns, and the template's items are
    copied into the new scene in the same order, each copy a new item that
    references the template item's source id itself, with the template
    item's settings written through [setSettings]; the sources the copies
    reference were in the registry before, and the only source registered is
    the new scene's own.  When the new name is the template's own (and the
    id is no array index) the new, empty scene is taken for its own
    template: nothing is copied.  A generated id is no array index, and
    where the id is none the call returns the handle of the new scene. *)
Theorem createScene_duplicate_shares_sources
    (w : World) (name : string) (options : ISceneCreateOptions.t)
    (template : string) (old : IScene.t) :
  let id := newSceneId options w in
  ISceneCreateOptions.duplicateSourcesFromScene options = Some template ->
  truthy template = true ->
  Dict.get (IScenesState.scenes (state w)) id = None ->
  SourcesService.getSource w id = None ->
  ScenesService.foundScene (state w) template = Some old ->
  Dict.get (IScenesState.scenes (state w)) (IScene.id old) = Some old ->
  sourcesKnown w ->
  uniqueIdsDistinct w ->
  let w' := run (ScenesService.createScene name options) w in
  let copies := itemsOf (nodesOf (state w') id) in
  let items := itemsOf (IScene.nodes old) in
  (ISceneCreateOptions.sceneId options = None -> Dict.array_index id = None)
  /\ (Dict.array_index id = None ->
      result (ScenesService.createScene name options) w = Return (Some id))
  /\ (name <> template ->
      (exists r, result (ScenesService.createScene name options) w = Return r)
      /\ map ISceneItem.sourceId copies = map ISceneItem.sourceId items
      /\ map ISceneItem.settings copies
         = map (fun i => applySettings (fullPatch (ISceneItem.settings i))
                           defaultSettings) items
      /\ (forall i, In i copies ->
            SourcesService.getSource w (ISceneItem.sourceId i) <> None)
      /\ sources w' = Dict.set (sources w) id (ISource.mk id name "scene"))
  /\ (name = template ->
      Dict.array_index id = None ->
      copies = []
      /\ sources w' = Dict.set (sources w) id (ISource.mk id name "scene")).
Proof.
  intros id Hopt Ht Hf Hu Hfound Hold Hk Hd w' copies items.
  assert (Hgen : ISceneCreateOptions.sceneId options = None ->
                 Dict.array_index id = None).
  { intros E. subst id. unfold newSceneId. rewrite E. apply generated_id_no_index. }
  set (st1 := IScenesState.mk
                (if truthy (IScenesState.activeSceneId (state w))
                 then IScenesState.activeSceneId (state w) else id)
                (IScenesState.displayOrder (state w) ++ [id])
                (Dict.set (IScenesState.scenes (state w)) id (freshScene id name))).
  assert (Hnodes : forall k, itemsOf (nodesOf st1 k) = itemsOf (nodesOf (state w) k)).
  { intros k. unfold nodesOf. subst st1. cbn [IScenesState.scenes].
    rewrite get_set. destruct (String.eqb id k) eqn:E; [|reflexivity].
    apply String.eqb_eq in E. subst k. now rewrite Hf. }
  assert (Hun : forall c1,
             unreferenced id
               (mkWorld st1 (Dict.set (sources w) id (ISource.mk id name "scene"))
                  (events w) (alerts w) (uniqueIds w) c1)).
  { intros c1 k i Hi E. cbn [state] in Hi. rewrite Hnodes in Hi.
    apply (Hk k i Hi). now rewrite E. }
  destruct (string_dec name template) as [Hsame|Hname].
  - (* the new scene has the template's name *)
    assert (Hown : Dict.array_index id = None ->
              result (ScenesService.createScene name options) w = Return (Some id)
              /\ copies = []
              /\ sources w' = Dict.set (sources w) id (ISource.mk id name "scene")).
    { intros Hi.
      assert (Hset : Dict.set (IScenesState.scenes (state w)) id (freshScene id name)
                     = IScenesState.scenes (state w) ++ [(id, freshScene id name)])
        by (unfold Dict.set; now rewrite Hf, Hi).
      destruct (createScene_duplicate_outcome w name options template
                  (freshScene id name) Hopt Ht) as (_ & Hres & Hcopies & Hsrc).
      - cbn [state]. fold id. fold st1.
        apply (foundScene_last st1 (IScenesState.scenes (state w)) id template);
          [exact Hset | exact Hf | now rewrite <- Hsame].
      - cbn [state IScenesState.scenes]. fold id.
        change (IScene.id (freshScene id name)) with id.
        now rewrite get_set, String.eqb_refl.
      - fold id. apply Hun.
      - exact Hd.
      - intros a [].
      - fold id in Hres, Hcopies, Hsrc. split; [now apply Hres|].
        split; [|exact Hsrc]. subst copies w'. rewrite Hcopies. reflexivity. }
    split; [exact Hgen|]. split; [intros Hi; now apply Hown|].
    split; [intros Hne; now elim Hne|].
    intros _ Hi. destruct (Hown Hi) as (_ & H1 & H2). now split.
  - (* the new scene has another name *)
    assert (Hne : IScene.id old <> id) by (intros E; rewrite E in Hold; congruence).
    assert (Hitems : forall a, In a items ->
              SourcesService.getSource w (ISceneItem.sourceId a) <> None).
    { intros a Ha. apply (Hk (IScene.id old) a).
      now rewrite (nodesOf_get _ _ _ Hold). }
    destruct (createScene_duplicate_outcome w name options template old Hopt Ht)
      as (Hret & Hres & Hcopies & Hsrc).
    + cbn [state]. fold id. fold st1.
      rewrite (foundScene_set_other (state w) st1 id (freshScene id name) template
                 eq_refl Hf Hname).
      exact Hfound.
    + cbn [state IScenesState.scenes]. fold id. rewrite get_set.
      assert (E : String.eqb id (IScene.id old) = false)
        by (apply String.eqb_neq; congruence).
      now rewrite E.
    + fold id. apply Hun.
    + exact Hd.
    + fold id. intros a Ha. pose proof (Hitems a Ha) as Hsrc.
      assert (Hna : ISceneItem.sourceId a <> id)
        by (intros E; now rewrite E in Hsrc).
      split; [|exact Hna].
      unfold SourcesService.getSource in *. cbn [sources]. rewrite get_set.
      destruct (String.eqb id (ISceneItem.sourceId a)); [discriminate | exact Hsrc].
    + fold id in Hres, Hcopies, Hsrc.
      assert (Hids : map ISceneItem.sourceId copies = map ISceneItem.sourceId items).
      { subst copies w'. rewrite Hcopies.
        rewrite map_rev, duplicates_sourceIds, map_rev. apply rev_involutive. }
      split; [exact Hgen|]. split; [intros Hi; now apply Hres|].
      split; [|intros E; now elim Hname].
      intros _. split; [exact Hret|]. split; [exact Hids|].
      split; [|split; [|exact Hsrc]].
      * subst copies w'. rewrite Hcopies.
        rewrite map_rev, duplicates_settings, map_rev. apply rev_involutive.
      * intros i Hi. apply (in_map ISceneItem.sourceId) in Hi. rewrite Hids in Hi.
        apply in_map_iff in Hi. destruct Hi as (j & <- & Hj). now apply Hitems.
Qed.

Lemma createScene_duplicate_shares_sources_witness :
  sourcesKnown imagesWorld
  /\ uniqueIdsDistinct imagesWorld
  /\ ScenesService.foundScene (state imagesWorld) "Scene" = Some imagesScene
  /\ map ISceneItem.sourceId
       (itemsOf (nodesOf
          (state (run (ScenesService.createScene "Copy" (duplicateOptions "Scene"))
                      imagesWorld))
          "scene_5"))
     = ["image_source_3"; "image_source_1"]
  /\ result (ScenesService.createScene "Copy" (duplicateOptions "Scene")) imagesWorld
     = Return (Some "scene_5").
Proof.
  assert (Hk : sourcesKnown imagesWorld)
    by (apply sourcesKnownb_sound; vm_compute; reflexivity).
  assert (Hd : uniqueIdsDistinct imagesWorld)
    by (intros m n; apply decimalIds_inj).
  assert (Hfound : ScenesService.foundScene (state imagesWorld) "Scene"
                   = Some imagesScene) by (vm_compute; reflexivity).
  assert (Hname : "Copy" <> "Scene") by discriminate.
  assert (Hfresh : Dict.get (IScenesState.scenes (state imagesWorld))
                     (newSceneId (duplicateOptions "Scene") imagesWorld) = None)
    by (vm_compute; reflexivity).
  assert (Hunreg : SourcesService.getSource imagesWorld
                     (newSceneId (duplicateOptions "Scene") imagesWorld) = None)
    by (vm_compute; reflexivity).
  assert (Hold : Dict.get (IScenesState.scenes (state imagesWorld))
                   (IScene.id imagesScene) = Some imagesScene)
    by (vm_compute; reflexivity).
  pose proof (createScene_duplicate_shares_sources imagesWorld "Copy"
                (duplicateOptions "Scene") "Scene" imagesScene eq_refl eq_refl
                Hfresh Hunreg Hfound Hold Hk Hd)
    as (Hgen & Hres & Hcopy & _).
  destruct (Hcopy Hname) as (_ & Hsrc & _).
  split; [exact Hk|]. split; [exact Hd|]. split; [exact Hfound|].
  change (newSceneId (duplicateOptions "Scene") imagesWorld) with "scene_5"
    in Hsrc, Hres, Hgen.
  split; [rewrite Hsrc; vm_compute; reflexivity|].
  exact (Hres (Hgen eq_refl)).
Defined.

(** C5 fails as stated: duplicating the scene with the two images, the
    copies reference the template items' own source ids, and the registry
    gains no source but the new scene's. *)
Lemma createScene_duplicate_reuses_source_ids :
  let w := imagesWorld in
  let w' := run (ScenesService.createScene "Copy" (duplicateOptions "Scene")) w in
  map ISceneItem.sourceId (itemsOf (nodesOf (state w') "scene_5"))
  = map ISceneItem.sourceId (itemsOf (nodesOf (state w) "scene_0"))
  /\ map ISceneItem.sourceId (itemsOf (nodesOf (state w') "scene_5"))
     = ["image_source_3"; "image_source_1"]
  /\ Dict.keys (sources w') = Dict.keys (sources w) ++ ["scene_5"].
Proof. vm_compute. repeat split. Qed.

(** ** Quiet computations *)

Lemma run_bind {A B} (m : M A) (f : A -> M B) w :
  run (bind m f) w =
  match result m w with
  | Return a => run (f a) (run m w)
  | Throw _ => run m w
  end.
Proof.
  unfold run, result, bind. destruct (m w) as [w1 [a|e]]; reflexivity.
Qed.

Lemma quiet_ret {A} (a : A) : quiet (ret a).
Proof.
  intros w. repeat split. exists []. now rewrite app_nil_r.
Qed.

Lemma quiet_throw {A} e : quiet (@throw A e).
Proof.
  intros w. repeat split. exists []. now rewrite app_nil_r.
Qed.

Lemma quiet_bind {A B} (m : M A) (f : A -> M B) :
  quiet m -> (forall a, quiet (f a)) -> quiet (bind m f).
Proof.
  intros Hm Hf w. rewrite run_bind.
  destruct (Hm w) as (Ha & Hk & l & He & Hl).
  destruct (result m w) as [a|e].
  - destruct (Hf a (run m w)) as (Ha' & Hk' & l' & He' & Hl').
    rewrite Ha', Hk', He', He. repeat split; try assumption.
    exists (l ++ l'). rewrite app_assoc. split; [reflexivity|].
    rewrite forallb_app, Hl, Hl'. reflexivity.
  - repeat split; try assumption. now exists l.
Qed.

Lemma quiet_forEach {A} (l : list A) (f : A -> M unit) :
  (forall a, quiet (f a)) -> quiet (forEach l f).
Proof.
  intros Hf. induction l as [|a r IH]; simpl.
  - apply quiet_ret.
  - apply quiet_bind; [apply Hf | intros _; exact IH].
Qed.

Lemma quiet_getState : quiet getState.
Proof. intros w. repeat split. exists []. now rewrite app_nil_r. Qed.

Lemma quiet_getWorld : quiet getWorld.
Proof. intros w. repeat split. exists []. now rewrite app_nil_r. Qed.

Lemma quiet_getUniqueId : quiet getUniqueId.
Proof. intros w. repeat split. exists []. simpl. now rewrite app_nil_r. Qed.

Lemma quiet_deref {A} (o : option A) : quiet (deref o).
Proof. destruct o; [apply quiet_ret | apply quiet_throw]. Qed.

Lemma quiet_emit e : isSwitched e = false -> quiet (emit e).
Proof.
  intros He w. repeat split. exists [e]. split; [reflexivity|].
  simpl. now rewrite He.
Qed.

Lemma quiet_mapNodes k f : quiet (modifyState (mapNodes k f)).
Proof.
  intros w. unfold run. simpl.
  destruct (mapNodes_frame (state w) k f) as (H1 & _ & H3).
  repeat split; try assumption. exists []. now rewrite app_nil_r.
Qed.

Lemma quiet_registerSource sourceId name type :
  quiet (SourcesService.addSource sourceId name type).
Proof. intros w. repeat split. exists []. simpl. now rewrite app_nil_r. Qed.

Ltac quiet_steps :=
  repeat match goal with
    | |- quiet (bind _ _) => apply quiet_bind; [|intros ?]
    | |- quiet (ret _) => apply quiet_ret
    | |- quiet (throw _) => apply quiet_throw
    | |- quiet getState => apply quiet_getState
    | |- quiet getWorld => apply quiet_getWorld
    | |- quiet getUniqueId => apply quiet_getUniqueId
    | |- quiet (deref _) => apply quiet_deref
    | |- quiet (modifyState (mapNodes _ _)) => apply quiet_mapNodes
    | |- quiet (SourcesService.addSource _ _ _) => apply quiet_registerSource
    | |- quiet (emit _) => apply quiet_emit; reflexivity
    end.

Lemma quiet_getScene id : quiet (ScenesService.getScene id).
Proof. unfold ScenesService.getScene. quiet_steps. Qed.

Lemma quiet_getSceneByName name : quiet (ScenesService.getSceneByName name).
Proof.
  unfold ScenesService.getSceneByName. quiet_steps.
  destruct (ScenesService.foundScene _ name); [apply quiet_getScene | apply quiet_ret].
Qed.

Lemma quiet_getItems scene : quiet (Scene.getItems scene).
Proof. unfold Scene.getItems. quiet_steps. Qed.

Lemma quiet_getModel scene : quiet (Scene.getModel scene).
Proof. unfold Scene.getModel. quiet_steps. Qed.

Lemma quiet_sceneOfState id : quiet (ScenesService.sceneOfState id).
Proof. unfold ScenesService.sceneOfState. quiet_steps. Qed.

Lemma quiet_addSource scene sourceId : quiet (Scene.addSource scene sourceId).
Proof.
  unfold Scene.addSource. quiet_steps.
  destruct (Dict.get _ scene); [|apply quiet_ret].
  destruct (Scene.canAddSource _ scene sourceId); quiet_steps.
Qed.

Lemma quiet_createAndAddSource scene name type :
  quiet (Scene.createAndAddSource scene name type).
Proof. unfold Scene.createAndAddSource. quiet_steps. apply quiet_addSource. Qed.

Lemma quiet_removeItem scene itemId : quiet (Scene.removeItem scene itemId).
Proof.
  unfold Scene.removeItem. quiet_steps.
  destruct (findItem _ itemId); quiet_steps.
Qed.

Lemma quiet_setSettings i p : quiet (SceneItemApi.setSettings i p).
Proof.
  unfold SceneItemApi.setSettings. quiet_steps.
  destruct (findItem _ _); quiet_steps.
Qed.

Lemma quiet_duplicateItem newScene item :
  quiet (ScenesService.duplicateItem newScene item).
Proof.
  unfold ScenesService.duplicateItem. quiet_steps.
  - apply quiet_addSource.
  - apply quiet_setSettings.
Qed.

Lemma quiet_collectItems l : quiet (ScenesService.collectItems l).
Proof.
  induction l as [|s r IH]; simpl; quiet_steps.
  - apply quiet_getItems.
  - exact IH.
Qed.

Lemma quiet_getSceneItems : quiet ScenesService.getSceneItems.
Proof.
  unfold ScenesService.getSceneItems, ScenesService.scenes. quiet_steps.
  apply quiet_collectItems.
Qed.

(** ** The active scene is set exactly while there is a scene *)

Lemma hoare_bind {A B} (P R Q : World -> Prop) (m : M A) (f : A -> M B) :
  hoare P m R -> (forall w, R w -> Q w) -> (forall a, hoare R (f a) Q) ->
  hoare P (bind m f) Q.
Proof.
  intros Hm HRQ Hf w Hw. rewrite run_bind. specialize (Hm w Hw).
  destruct (result m w) as [a|e]; [now apply Hf | now apply HRQ].
Qed.

Lemma hoare_keep_bind {A B} (P : World -> Prop) (m : M A) (f : A -> M B) :
  hoare P m P -> (forall a, hoare P (f a) P) -> hoare P (bind m f) P.
Proof. intros Hm Hf. apply hoare_bind with P; auto. Qed.

Lemma activeSet_same w w' :
  IScenesState.activeSceneId (state w') = IScenesState.activeSceneId (state w) ->
  Dict.keys (IScenesState.scenes (state w')) = Dict.keys (IScenesState.scenes (state w)) ->
  activeSet w -> activeSet w'.
Proof.
  unfold activeSet, sceneCount. intros Ha Hk. now rewrite Ha, Hk.
Qed.

Lemma quiet_keeps_activeSet {A} (m : M A) : quiet m -> hoare activeSet m activeSet.
Proof.
  intros Hm w Hw. destruct (Hm w) as (Ha & Hk & _).
  now apply (activeSet_same w).
Qed.

Lemma quiet_keeps_spare {A} (m : M A) :
  quiet m -> hoare activeSetSpare m activeSetSpare.
Proof.
  intros Hm w [Hw Hn]. destruct (Hm w) as (Ha & Hk & _). split.
  - now apply (activeSet_same w).
  - unfold sceneCount in *. now rewrite Hk.
Qed.

Lemma quiet_alert msg : quiet (alert msg).
Proof. intros w. repeat split. exists []. simpl. now rewrite app_nil_r. Qed.

Lemma quiet_removeOwnItem scene item : quiet (ScenesService.removeOwnItem scene item).
Proof. apply quiet_removeItem. Qed.

Lemma quiet_removeReference scene item :
  quiet (ScenesService.removeReference scene item).
Proof.
  unfold ScenesService.removeReference.
  destruct (negb _); quiet_steps.
  - apply quiet_getScene.
  - apply quiet_removeItem.
Qed.

Lemma keys_set_present {V} (d : Dict.t V) k v v0 :
  Dict.get d k = Some v0 -> Dict.keys (Dict.set d k v) = Dict.keys d.
Proof. intros H. rewrite (set_present d k v v0 H). apply keys_replace. Qed.

Lemma keys_set_fresh {V} (d : Dict.t V) k v :
  Dict.get d k = None ->
  Permutation (k :: Dict.keys d) (Dict.keys (Dict.set d k v)).
Proof.
  intros H. destruct (set_fresh_split d k v H) as (d1 & d2 & -> & ->).
  unfold Dict.keys. rewrite !map_app. simpl. apply Permutation_middle.
Qed.

Lemma newSceneId_truthy options w : newSceneId options w <> "".
Proof.
  unfold newSceneId, or_else, truthy.
  destruct (ISceneCreateOptions.sceneId options) as [s|]; [|discriminate].
  destruct (String.eqb s "") eqn:E; simpl; [discriminate|].
  now apply String.eqb_neq.
Qed.

Lemma ADD_SCENE_activeSet id name :
  id <> "" -> hoare activeSet (ScenesService.ADD_SCENE id name) activeSet.
Proof.
  intros Hid w (Hnd & Hne & H0 & H1). unfold activeSet, sceneCount, run. simpl.
  assert (Hin : In id (Dict.keys (Dict.set (IScenesState.scenes (state w)) id
                                    (freshScene id name)))).
  { apply get_In_keys with (freshScene id name).
    now rewrite get_set, String.eqb_refl. }
  assert (Hact : (if truthy (IScenesState.activeSceneId (state w))
                  then IScenesState.activeSceneId (state w) else id) <> "").
  { unfold truthy.
    destruct (String.eqb (IScenesState.activeSceneId (state w)) "") eqn:E; simpl;
      [exact Hid | now apply String.eqb_neq]. }
  destruct (Dict.get (IScenesState.scenes (state w)) id) as [v0|] eqn:G.
  - rewrite (keys_set_present _ _ _ v0 G). repeat split; auto.
    intros Hz. exfalso. apply get_In_keys in G.
    destruct (Dict.keys (IScenesState.scenes (state w))); [destruct G | discriminate].
  - pose proof (keys_set_fresh _ id (freshScene id name) G) as Hp.
    repeat split.
    + apply (Permutation_NoDup Hp). constructor; [|exact Hnd].
      now apply get_None_not_In.
    + intros Hz. apply (Permutation_in _ (Permutation_sym Hp)) in Hz.
      destruct Hz as [Hz|Hz]; [now apply Hid | now apply Hne].
    + intros Hz. exfalso.
      destruct (Dict.keys (Dict.set _ id _)); [destruct Hin | discriminate].
    + intros _. exact Hact.
Qed.

Lemma makeSceneActive_activeSet id :
  hoare activeSet (ScenesService.makeSceneActive id) activeSet.
Proof.
  intros w Hw. unfold ScenesService.makeSceneActive, ScenesService.getScene,
    ScenesService.MAKE_SCENE_ACTIVE, Scene.getModel, run.
  msimpl.
  destruct (Dict.get (IScenesState.scenes (state w)) id) as [sc|] eqn:G;
    simpl; [|exact Hw].
  destruct Hw as (Hnd & Hne & H0 & H1). apply get_In_keys in G.
  unfold activeSet, sceneCount in *. simpl. repeat split; auto.
  - intros Hz. exfalso.
    destruct (Dict.keys (IScenesState.scenes (state w))); [destruct G | discriminate].
  - intros _ ->. now apply Hne.
Qed.

Lemma without_length l k :
  NoDup l -> (length l <= S (length (without l k)))%nat.
Proof.
  unfold without. induction 1 as [|a r Ha Hr IH]; simpl; [lia|].
  destruct (String.eqb a k) eqn:E; simpl; [|lia].
  apply String.eqb_eq in E. subst a.
  rewrite filter_all; [lia|].
  intros b Hb. apply negb_true_iff, String.eqb_neq. intros ->. contradiction.
Qed.

Lemma REMOVE_SCENE_activeSet id :
  hoare activeSetSpare (ScenesService.REMOVE_SCENE id) activeSet.
Proof.
  intros w [(Hnd & Hne & H0 & H1) Hn]. unfold activeSet, sceneCount, run in *.
  simpl. rewrite keys_delete.
  pose proof (without_length _ id Hnd) as Hlen.
  repeat split.
  - unfold without. now apply NoDup_filter.
  - intros Hz. apply In_without in Hz. now apply Hne.
  - intros Hz. lia.
  - intros _. apply H1. lia.
Qed.

Lemma removeScene_activeSet id force w :
  (force = true -> (2 <= sceneCount w)%nat) ->
  activeSet w -> activeSet (run (ScenesService.removeScene id force) w).
Proof.
  intros Hforce Hw. unfold ScenesService.removeScene.
  rewrite run_bind. simpl.
  destruct (negb force && (length (Dict.keys (IScenesState.scenes (state w))) <? 2)%nat)
    eqn:G.
  - apply (quiet_keeps_activeSet (alert _ ;;; ret None)); [|exact Hw].
    quiet_steps. apply quiet_alert.
  - assert (Hspare : activeSetSpare w).
    { split; [exact Hw|]. apply andb_false_iff in G. destruct G as [G|G].
      - apply negb_false_iff in G. now apply Hforce.
      - now apply Nat.ltb_ge in G. }
    clear Hforce Hw G. revert w Hspare.
    change (hoare activeSetSpare
              (scene <- ScenesService.getScene id ;;
               s <- deref scene ;;
               items <- Scene.getItems s ;;
               forEach items (ScenesService.removeOwnItem s) ;;;
               allItems <- ScenesService.getSceneItems ;;
               forEach allItems (ScenesService.removeReference s) ;;;
               sceneModel <- ScenesService.sceneOfState id ;;
               ScenesService.REMOVE_SCENE id ;;;
               st' <- getState ;;
               (if String.eqb (IScenesState.activeSceneId st') id then
                  match Dict.keys (IScenesState.scenes st') with
                  | k :: _ =>
                      if truthy k
                      then ScenesService.makeSceneActive k ;;; ret tt
                      else ret tt
                  | [] => ret tt
                  end
                else ret tt) ;;;
               emit (sceneRemoved sceneModel) ;;;
               ret sceneModel)
              activeSet).
    assert (Hdrop : forall w, activeSetSpare w -> activeSet w) by (intros w [H _]; exact H).
    apply hoare_bind with activeSetSpare;
      [apply quiet_keeps_spare, quiet_getScene | exact Hdrop | intros scene].
    apply hoare_bind with activeSetSpare;
      [apply quiet_keeps_spare, quiet_deref | exact Hdrop | intros s].
    apply hoare_bind with activeSetSpare;
      [apply quiet_keeps_spare, quiet_getItems | exact Hdrop | intros items].
    apply hoare_bind with activeSetSpare;
      [apply quiet_keeps_spare, quiet_forEach; intros a; apply quiet_removeOwnItem
      | exact Hdrop | intros _].
    apply hoare_bind with activeSetSpare;
      [apply quiet_keeps_spare, quiet_getSceneItems | exact Hdrop | intros allItems].
    apply hoare_bind with activeSetSpare;
      [apply quiet_keeps_spare, quiet_forEach; intros a; apply quiet_removeReference
      | exact Hdrop | intros _].
    apply hoare_bind with activeSetSpare;
      [apply quiet_keeps_spare, quiet_sceneOfState | exact Hdrop | intros sceneModel].
    apply hoare_bind with activeSet;
      [apply REMOVE_SCENE_activeSet | auto | intros _].
    apply hoare_keep_bind; [apply quiet_keeps_activeSet, quiet_getState | intros st'].
    apply hoare_keep_bind.
    + destruct (String.eqb _ id); [|apply quiet_keeps_activeSet, quiet_ret].
      destruct (Dict.keys _) as [|k r]; [apply quiet_keeps_activeSet, quiet_ret|].
      destruct (truthy k); [|apply quiet_keeps_activeSet, quiet_ret].
      apply hoare_keep_bind; [apply makeSceneActive_activeSet | intros _].
      apply quiet_keeps_activeSet, quiet_ret.
    + intros _. apply quiet_keeps_activeSet. quiet_steps.
Qed.

(** The part of [createScene] after [ADD_SCENE], without the activation. *)
Lemma quiet_duplication id (options : ISceneCreateOptions.t) :
  quiet
    (match ISceneCreateOptions.duplicateSourcesFromScene options with
     | Some template =>
         if truthy template then
           oldScene <- ScenesService.getSceneByName template ;;
           newScene <- ScenesService.getScene id ;;
           old <- deref oldScene ;;
           items <- Scene.getItems old ;;
           forEach (rev items) (ScenesService.duplicateItem newScene)
         else ret tt
     | None => ret tt
     end).
Proof.
  destruct (ISceneCreateOptions.duplicateSourcesFromScene options) as [template|];
    [|apply quiet_ret].
  destruct (truthy template); [|apply quiet_ret].
  quiet_steps.
  - apply quiet_getSceneByName.
  - apply quiet_getScene.
  - apply quiet_getItems.
  - apply quiet_forEach. intros item. apply quiet_duplicateItem.
Qed.

Lemma bind_inv {A B} (m : M A) (f : A -> M B) w w' r :
  bind m f w = (w', Return r) ->
  exists a w1, m w = (w1, Return a) /\ f a w1 = (w', Return r).
Proof.
  unfold bind. destruct (m w) as [w1 [a|e]]; [|discriminate].
  intros H. now exists a, w1.
Qed.

Lemma quietlyAfter_refl w : quietlyAfter w w.
Proof. repeat split. exists []. now rewrite app_nil_r. Qed.

Lemma quietlyAfter_step {A} (m : M A) base w1 w2 c :
  quiet m -> quietlyAfter base w1 -> m w1 = (w2, c) -> quietlyAfter base w2.
Proof.
  intros Hm (Ha & Hk & l & He & Hl) Hrun.
  destruct (Hm w1) as (Ha' & Hk' & l' & He' & Hl').
  unfold run in *. rewrite Hrun in *. simpl in *.
  repeat split; [congruence | congruence |].
  exists (l ++ l'). rewrite He', He, app_assoc. split; [reflexivity|].
  now rewrite forallb_app, Hl, Hl'.
Qed.

(** The id of the new scene is [newSceneId]; making it up touches neither
    the store nor the events. *)
Lemma createScene_id options w :
  exists wa,
    match ISceneCreateOptions.sceneId options with
    | Some s =>
        if truthy s then ret s
        else (uid <- getUniqueId ;; ret ("scene_" ++ uid)%string)
    | None => uid <- getUniqueId ;; ret ("scene_" ++ uid)%string
    end w = (wa, Return (newSceneId options w))
    /\ state wa = state w /\ events wa = events w.
Proof.
  unfold newSceneId, or_else.
  destruct (ISceneCreateOptions.sceneId options) as [s|];
    [destruct (truthy s)|]; eexists; (split; [reflexivity|]); split; reflexivity.
Qed.

Lemma getSceneByName_pure name w : run (ScenesService.getSceneByName name) w = w.
Proof.
  unfold ScenesService.getSceneByName, ScenesService.getScene, run. msimpl.
  now destruct (ScenesService.foundScene (state w) name).
Qed.

Lemma createScene_activeSet name options w :
  activeSet w -> activeSet (run (ScenesService.createScene name options) w).
Proof.
  intros Hw. destruct (createScene_id options w) as (wa & Hid & Hst & Hev).
  assert (Hwa : activeSet wa).
  { apply (activeSet_same w); [now rewrite Hst | now rewrite Hst | exact Hw]. }
  pose proof (newSceneId_truthy options w) as Hne.
  unfold run, ScenesService.createScene. rewrite (bind_Return _ _ _ _ _ Hid).
  match goal with
  | |- activeSet (fst (?m wa)) =>
      assert (H : hoare activeSet m activeSet); [|exact (H wa Hwa)]
  end.
  apply hoare_keep_bind; [now apply ADD_SCENE_activeSet | intros _].
  apply hoare_keep_bind;
    [apply quiet_keeps_activeSet, quiet_registerSource | intros _].
  apply hoare_keep_bind;
    [apply quiet_keeps_activeSet, quiet_duplication | intros _].
  apply hoare_keep_bind; [apply quiet_keeps_activeSet, quiet_sceneOfState | intros model].
  apply hoare_keep_bind;
    [apply quiet_keeps_activeSet, quiet_emit; reflexivity | intros _].
  apply hoare_keep_bind; [|intros _; apply quiet_keeps_activeSet, quiet_getSceneByName].
  destruct (ISceneCreateOptions.makeActive options).
  - apply hoare_keep_bind; [apply makeSceneActive_activeSet | intros _].
    apply quiet_keeps_activeSet, quiet_ret.
  - apply quiet_keeps_activeSet, quiet_ret.
Qed.

(** In every reachable world the active scene is unset exactly while there
    is no scene. *)
Lemma reachable_activeSet w : reachable w -> activeSet w.
Proof.
  induction 1 as [ids | w name options _ IH | w id force _ IH Hforce
                 | w id _ IH | w order _ IH | w scene sourceId _ IH
                 | w scene name type _ IH | w scene itemId _ IH | w i p _ IH].
  - unfold activeSet, sceneCount. simpl. repeat split; auto; try constructor.
  - now apply createScene_activeSet.
  - now apply removeScene_activeSet.
  - now apply makeSceneActive_activeSet.
  - exact IH.
  - now apply (quiet_keeps_activeSet _ (quiet_addSource scene sourceId)).
  - now apply (quiet_keeps_activeSet _ (quiet_createAndAddSource scene name type)).
  - now apply (quiet_keeps_activeSet _ (quiet_removeItem scene itemId)).
  - now apply (quiet_keeps_activeSet _ (quiet_setSettings i p)).
Qed.

(** ** [createScene] and the active scene *)

Lemma createScene_not_activating name options w :
  ISceneCreateOptions.makeActive options = false ->
  let id := newSceneId options w in
  let w' := run (ScenesService.createScene name options) w in
  IScenesState.activeSceneId (state w')
  = (if truthy (IScenesState.activeSceneId (state w))
     then IScenesState.activeSceneId (state w) else id)
  /\ exists l, events w' = events w ++ l
               /\ forallb (fun e => negb (isSwitched e)) l = true.
Proof.
  intros Hmake id w'. subst w'.
  destruct (createScene_id options w) as (wa & Hid & Hst & Hev). fold id in Hid.
  unfold run, ScenesService.createScene. rewrite (bind_Return _ _ _ _ _ Hid).
  erewrite (bind_Return _ _ wa _ tt) by reflexivity.
  rewrite Hmake.
  match goal with
  | |- context [fst (?m ?wb)] =>
      assert (Hq : quiet m);
      [| destruct (Hq wb) as (Ha & _ & l & He & Hl); unfold run in Ha, He;
         rewrite Ha, He; simpl; rewrite Hst, Hev; split; [reflexivity|];
         now exists l ]
  end.
  quiet_steps.
  - apply quiet_duplication.
  - apply quiet_sceneOfState.
  - apply quiet_getSceneByName.
Qed.

Lemma createScene_activating name options w w' r :
  ISceneCreateOptions.makeActive options = true ->
  ScenesService.createScene name options w = (w', Return r) ->
  let id := newSceneId options w in
  IScenesState.activeSceneId (state w') = id
  /\ exists l,
       events w' = events w ++ l
                   ++ [sceneSwitched (Dict.get (IScenesState.scenes (state w')) id)]
       /\ forallb (fun e => negb (isSwitched e)) l = true.
Proof.
  intros Hmake Hrun id.
  destruct (createScene_id options w) as (wa & Hid & Hst & Hev). fold id in Hid.
  unfold ScenesService.createScene in Hrun.
  rewrite (bind_Return _ _ _ _ _ Hid) in Hrun.
  erewrite (bind_Return _ _ wa _ tt) in Hrun by reflexivity.
  rewrite Hmake in Hrun.
  set (wb := fst (ScenesService.ADD_SCENE id name wa)) in *.
  assert (Hb : quietlyAfter wb wb) by apply quietlyAfter_refl.
  apply bind_inv in Hrun. destruct Hrun as (u1 & w1 & H1 & Hrun).
  pose proof (quietlyAfter_step _ _ _ _ _ (quiet_registerSource _ _ _) Hb H1) as Hq1.
  apply bind_inv in Hrun. destruct Hrun as (u2 & w2 & H2 & Hrun).
  pose proof (quietlyAfter_step _ _ _ _ _ (quiet_duplication id options) Hq1 H2) as Hq2.
  apply bind_inv in Hrun. destruct Hrun as (model & w3 & H3 & Hrun).
  pose proof (quietlyAfter_step _ _ _ _ _ (quiet_sceneOfState id) Hq2 H3) as Hq3.
  apply bind_inv in Hrun. destruct Hrun as (u4 & w4 & H4 & Hrun).
  pose proof (quietlyAfter_step _ _ _ _ _
                (quiet_emit (sceneAdded model) eq_refl) Hq3 H4) as Hq4.
  apply bind_inv in Hrun. destruct Hrun as (u5 & w5 & H5 & Hrun).
  apply (f_equal fst) in Hrun. fold (run (ScenesService.getSceneByName name) w5) in Hrun.
  rewrite getSceneByName_pure in Hrun. simpl in Hrun. subst w5.
  destruct Hq4 as (_ & Hk & l & He & Hl).
  assert (Hin : exists sc, Dict.get (IScenesState.scenes (state w4)) id = Some sc).
  { apply In_keys_get. rewrite Hk. subst wb. simpl.
    apply get_In_keys with (freshScene id name).
    now rewrite get_set, String.eqb_refl. }
  destruct Hin as [sc Hsc].
  unfold ScenesService.makeSceneActive, ScenesService.getScene,
    ScenesService.MAKE_SCENE_ACTIVE, Scene.getModel in H5.
  revert H5. msimpl. rewrite Hsc. simpl. intros [= <-]. simpl.
  split; [reflexivity|]. exists l. rewrite He. subst wb. simpl.
  rewrite Hev, Hsc, <- app_assoc. split; [reflexivity | exact Hl].
Qed.

(** C10, as the code has it.  [ADD_SCENE] tests the active-scene pointer,
    not the number of scenes.  [createScene] without [makeActive] makes the
    new scene active when the pointer is empty and leaves the pointer as it
    was when it is not, and in neither case emits scene-switched; with
    [makeActive], a call that returns has made the new scene active and
    ended its events with the scene-switched of [makeSceneActive].  In the
    worlds the services reach from the initial store without removing the
    last scene by force, the pointer is empty exactly when there is no
    scene, so that there the first scene, and only the first, is made active
    by its creation. *)
Theorem createScene_active_scene
    (w : World) (name : string) (options : ISceneCreateOptions.t) :
  let id := newSceneId options w in
  let w' := run (ScenesService.createScene name options) w in
  (ISceneCreateOptions.makeActive options = false ->
   (IScenesState.activeSceneId (state w) = "" ->
    IScenesState.activeSceneId (state w') = id)
   /\ (IScenesState.activeSceneId (state w) <> "" ->
       IScenesState.activeSceneId (state w') = IScenesState.activeSceneId (state w))
   /\ exists l, events w' = events w ++ l
                /\ forallb (fun e => negb (isSwitched e)) l = true)
  /\ (ISceneCreateOptions.makeActive options = true ->
      forall r,
        result (ScenesService.createScene name options) w = Return r ->
        IScenesState.activeSceneId (state w') = id
        /\ exists l,
             events w' = events w ++ l
                         ++ [sceneSwitched
                               (Dict.get (IScenesState.scenes (state w')) id)]
             /\ forallb (fun e => negb (isSwitched e)) l = true)
  /\ (reachable w ->
      (sceneCount w = 0%nat <-> IScenesState.activeSceneId (state w) = "")).
Proof.
  intros id w'. split; [|split].
  - intros Hmake.
    destruct (createScene_not_activating name options w Hmake) as [Ha He].
    fold id w' in Ha, He. repeat split; [| |exact He].
    + intros Hz. rewrite Ha, Hz. reflexivity.
    + intros Hnz. rewrite Ha. unfold truthy.
      apply String.eqb_neq in Hnz. now rewrite Hnz.
  - intros Hmake r Hres. subst w'. unfold run, result in *.
    destruct (ScenesService.createScene name options w) as [w1 c] eqn:Hrun.
    simpl in *. subst c.
    exact (createScene_activating name options w w1 r Hmake Hrun).
  - intros Hreach. apply reachable_activeSet in Hreach.
    destruct Hreach as (_ & _ & H0 & H1). split; [exact H0|].
    intros Hempty. destruct (Nat.eq_dec (sceneCount w) 0) as [Hz|Hnz];
      [exact Hz | now elim (H1 Hnz)].
Qed.

Lemma createScene_active_scene_witness :
  let w := initialWorld decimalIds in
  let w1 := run (ScenesService.createScene "Scene" ISceneCreateOptions.empty) w in
  let w2 := run (ScenesService.createScene "Scene2" ISceneCreateOptions.empty) w1 in
  reachable w
  /\ sceneCount w = 0%nat
  /\ IScenesState.activeSceneId (state w) = ""
  /\ IScenesState.activeSceneId (state w1) = "scene_0"
  /\ IScenesState.activeSceneId (state w2) = "scene_0".
Proof.
  intros w w1 w2.
  pose proof (createScene_active_scene w "Scene" ISceneCreateOptions.empty)
    as (Hfirst & _ & Hreach).
  destruct (Hfirst eq_refl) as (Hempty & _ & _).
  pose proof (createScene_active_scene w1 "Scene2" ISceneCreateOptions.empty)
    as (Hlater & _ & _).
  destruct (Hlater eq_refl) as (_ & Hkept & _).
  assert (Hr : reachable w) by constructor.
  split; [exact Hr|]. split; [exact (proj2 (Hreach Hr) eq_refl)|].
  split; [reflexivity|]. split; [exact (Hempty eq_refl)|].
  assert (Hne : IScenesState.activeSceneId (state w1) <> "")
    by (vm_compute; discriminate).
  transitivity (IScenesState.activeSceneId (state w1));
    [exact (Hkept Hne) | exact (Hempty eq_refl)].
Defined.

(** ** The last scene removed by force *)

(** C10 fails as stated: after [removeScene('scene_0', true)] on the
    default world no scene exists, and yet the scene created next, the only
    scene of the store, is not made active: the pointer still holds the id
    of the scene that is gone, and [activeScene] is [null]. *)
Lemma createScene_with_no_scene_left_not_activated :
  let w := run (ScenesService.removeScene "scene_0" true) defaultWorld in
  let w' := run (ScenesService.createScene "Again" ISceneCreateOptions.empty) w in
  sceneCount w = 0%nat
  /\ ISceneCreateOptions.makeActive ISceneCreateOptions.empty = false
  /\ Dict.keys (IScenesState.scenes (state w')) = ["scene_1"]
  /\ IScenesState.activeSceneId (state w') = "scene_0"
  /\ IScenesState.activeSceneId (state w') <> "scene_1"
  /\ result ScenesService.activeScene w' = Return None.
Proof. vm_compute. repeat split. discriminate. Qed.

(** ** [removeScene] and [makeSceneActive] on an id that names no scene *)

(** X1. [removeScene(id)] of an id the store does not have, when the guard
    lets it through ([force], or at least two scenes): [getScene] answers
    [null], the call throws a [TypeError] at [scene.getItems()], and nothing
    was changed up to there: store, registry, events and alerts are as
    before. *)
Theorem removeScene_unknown_scene_throws
    (w : World) (id : string) (force : bool) :
  Dict.get (IScenesState.scenes (state w)) id = None ->
  force = true \/ (2 <= sceneCount w)%nat ->
  ScenesService.removeScene id force w = (w, Throw TypeError).
Proof.
  intros Hnone Hrem. unfold ScenesService.removeScene.
  rewrite (bind_Return _ _ w w (state w)) by reflexivity.
  replace (negb force
           && (length (Dict.keys (IScenesState.scenes (state w))) <? 2)%nat)
    with false.
  2:{ symmetry. destruct Hrem as [->|H]; [reflexivity|].
      apply andb_false_iff. right. now apply Nat.ltb_ge. }
  unfold ScenesService.getScene. msimpl. rewrite Hnone. reflexivity.
Qed.

Lemma removeScene_unknown_scene_throws_witness :
  Dict.get (IScenesState.scenes (state nestedWorld)) "ghost" = None
  /\ (2 <= sceneCount nestedWorld)%nat
  /\ ScenesService.removeScene "ghost" false nestedWorld
     = (nestedWorld, Throw TypeError).
Proof.
  assert (Hn : (2 <= sceneCount nestedWorld)%nat)
    by (apply Nat.leb_le; vm_compute; reflexivity).
  split; [reflexivity|]. split; [exact Hn|].
  exact (removeScene_unknown_scene_throws nestedWorld "ghost" false eq_refl
           (or_intror Hn)).
Defined.

(** X2. [makeSceneActive(id)] answers [false] and changes nothing when the
    store has no scene [id]; when it has one it answers [true], points the
    active scene at [id] without touching the scenes or their order, and
    emits one scene-switched event carrying the scene, whether or not the
    scene was active already; [activeScene] then is that scene. *)
Theorem makeSceneActive_switches (w : World) (id : string) :
  let w' := run (ScenesService.makeSceneActive id) w in
  match Dict.get (IScenesState.scenes (state w)) id with
  | None =>
      ScenesService.makeSceneActive id w = (w, Return false)
  | Some s =>
      result (ScenesService.makeSceneActive id) w = Return true
      /\ state w' = IScenesState.mk id (IScenesState.displayOrder (state w))
                      (IScenesState.scenes (state w))
      /\ events w' = events w ++ [sceneSwitched (Some s)]
      /\ sources w' = sources w
      /\ result ScenesService.activeScene w' = Return (Some id)
  end.
Proof.
  intros w'. subst w'.
  unfold result, run, ScenesService.activeScene, ScenesService.makeSceneActive,
    ScenesService.getScene, ScenesService.MAKE_SCENE_ACTIVE, Scene.getModel.
  msimpl.
  destruct (Dict.get (IScenesState.scenes (state w)) id) as [s|] eqn:G; simpl.
  - rewrite !G. repeat split.
  - reflexivity.
Qed.

(** ** [createScene] without a template *)

(** [createScene(name, options)] without a template, whatever the id: the
    world it leaves and the handle it returns. *)
Lemma createScene_untemplated_run
    (w : World) (name : string) (sceneId : option string) (makeActive : bool) :
  let id := newSceneId (plainOptions sceneId makeActive) w in
  let st' := created id name makeActive (state w) in
  ScenesService.createScene name (plainOptions sceneId makeActive) w =
  (mkWorld st'
     (Dict.set (sources w) id (ISource.mk id name "scene"))
     (events w ++ createdEvents id name makeActive)
     (alerts w) (uniqueIds w)
     (match sceneId with
      | Some s => if truthy s then uniqueIdCalls w else S (uniqueIdCalls w)
      | None => S (uniqueIdCalls w)
      end),
   Return (handleByName st' name)).
Proof.
  intros id st'. subst st' id.
  unfold newSceneId, or_else, plainOptions, created, createdEvents, handleByName.
  unfold ScenesService.createScene, ScenesService.ADD_SCENE,
    SourcesService.addSource, ScenesService.sceneOfState,
    ScenesService.getSceneByName, ScenesService.makeSceneActive,
    ScenesService.MAKE_SCENE_ACTIVE, Scene.getModel, ScenesService.getScene.
  cbn [ISceneCreateOptions.sceneId ISceneCreateOptions.makeActive
       ISceneCreateOptions.duplicateSourcesFromScene].
  destruct sceneId as [s|]; [destruct (truthy s)|]; destruct makeActive;
    msimpl; rewrite ?get_set, ?String.eqb_refl; simpl;
    rewrite ?get_set, ?String.eqb_refl; simpl; rewrite <- ?app_assoc;
    simpl;
    match goal with
    | |- context [ScenesService.foundScene ?st name] =>
        destruct (ScenesService.foundScene st name)
    end; reflexivity.
Qed.

(** ** Finding a scene by its name *)

Lemma wellKeyedb_sound st : wellKeyedb st = true -> wellKeyed st.
Proof.
  unfold wellKeyedb, wellKeyed. rewrite forallb_forall. intros H k s G.
  apply get_In in G. apply H in G. now apply String.eqb_eq in G.
Qed.

Lemma get_In_NoDup {V} (d : Dict.t V) k v :
  NoDup (Dict.keys d) -> In (k, v) d -> Dict.get d k = Some v.
Proof.
  induction d as [|[k0 v0] r IH]; simpl; intros Hnd Hin; [destruct Hin|].
  inversion Hnd as [|? ? Hk0 Hr]; subst.
  destruct Hin as [[= -> ->]|Hin]; [now rewrite String.eqb_refl|].
  destruct (String.eqb k0 k) eqn:E; [|now apply IH].
  apply String.eqb_eq in E. subst k0. exfalso. apply Hk0.
  change k with (fst (k, v)). now apply in_map.
Qed.

(** The loop of [getSceneByName] over a list of ids. *)
Section FoundScene.
Variables (d : Dict.t IScene.t) (name : string).

Let step (found : option IScene.t) (id : string) : option IScene.t :=
  match Dict.get d id with
  | Some scene => if String.eqb (IScene.name scene) name then Some scene else found
  | None => found
  end.

Lemma found_loop_None l : forall acc,
  fold_left step l acc = None <->
  acc = None
  /\ forall k s, In k l -> Dict.get d k = Some s -> IScene.name s <> name.
Proof.
  induction l as [|k0 r IH]; intros acc; simpl.
  - split; [intros ->; split; [reflexivity | intros k s []] | now intros [-> _]].
  - rewrite IH. unfold step. split.
    + intros [Hacc Hr].
      destruct (Dict.get d k0) as [s0|] eqn:G.
      * destruct (String.eqb (IScene.name s0) name) eqn:E; [discriminate|].
        split; [exact Hacc|]. intros k s [<-|Hk] Hs.
        -- rewrite G in Hs. injection Hs as <-. now apply String.eqb_neq.
        -- now apply (Hr k).
      * split; [exact Hacc|]. intros k s [<-|Hk] Hs; [congruence|].
        now apply (Hr k).
    + intros [-> H]. split.
      * destruct (Dict.get d k0) as [s0|] eqn:G; [|reflexivity].
        assert (Hn : IScene.name s0 <> name) by (apply (H k0); auto).
        apply String.eqb_neq in Hn. now rewrite Hn.
      * intros k s Hk. apply H. now right.
Qed.

Lemma found_loop_Some l : forall acc s,
  fold_left step l acc = Some s ->
  acc = Some s
  \/ exists k, In k l /\ Dict.get d k = Some s /\ IScene.name s = name.
Proof.
  induction l as [|k0 r IH]; intros acc s; simpl; [now left|].
  intros H. apply IH in H. destruct H as [H|(k & Hk & Hs & Hn)].
  - unfold step in H. destruct (Dict.get d k0) as [s0|] eqn:G; [|now left].
    destruct (String.eqb (IScene.name s0) name) eqn:E; [|now left].
    injection H as <-. right. exists k0. apply String.eqb_eq in E. auto.
  - right. exists k. auto.
Qed.

Lemma found_loop_keep l acc :
  (forall k s, In k l -> Dict.get d k = Some s -> IScene.name s <> name) ->
  fold_left step l acc = acc.
Proof.
  revert acc. induction l as [|k0 r IH]; intros acc H; simpl; [reflexivity|].
  rewrite IH by (intros k s Hk; apply H; now right).
  unfold step. destruct (Dict.get d k0) as [s0|] eqn:G; [|reflexivity].
  assert (Hn : IScene.name s0 <> name)
    by (apply (H k0 s0); [now left | exact G]).
  apply String.eqb_neq in Hn. now rewrite Hn.
Qed.

Lemma found_loop_acc l : forall acc,
  fold_left step l acc =
  match fold_left step l None with
  | Some s => Some s
  | None => acc
  end.
Proof.
  induction l as [|k0 r IH]; intros acc; simpl; [reflexivity|].
  rewrite (IH (step acc k0)), (IH (step None k0)).
  destruct (fold_left step r None); [reflexivity|].
  unfold step. destruct (Dict.get d k0) as [s0|]; [|reflexivity].
  now destruct (String.eqb (IScene.name s0) name).
Qed.

End FoundScene.

Lemma foundScene_None st name :
  ScenesService.foundScene st name = None <->
  forall k s, Dict.get (IScenesState.scenes st) k = Some s -> IScene.name s <> name.
Proof.
  unfold ScenesService.foundScene. rewrite found_loop_None. split.
  - intros [_ H] k s Hs. apply (H k); [|exact Hs]. now apply get_In_keys with s.
  - intros H. split; [reflexivity|]. intros k s _. apply H.
Qed.

Lemma foundScene_Some st name s :
  ScenesService.foundScene st name = Some s ->
  exists k, Dict.get (IScenesState.scenes st) k = Some s /\ IScene.name s = name.
Proof.
  unfold ScenesService.foundScene. intros H. apply found_loop_Some in H.
  destruct H as [H|(k & _ & Hs & Hn)]; [discriminate|]. now exists k.
Qed.

(** X3. [getSceneByName(name)] is a read: it leaves the world as it is and
    never throws.  On a store that keeps each scene under its own id it
    answers [null] exactly when no scene has that name, and otherwise with
    the handle of a scene of that name; when several scenes share the name
    it is the one [Object.keys] lists last. *)
Theorem getSceneByName_finds_by_name (w : World) (name : string) :
  wellKeyed (state w) ->
  NoDup (Dict.keys (IScenesState.scenes (state w))) ->
  exists r,
    ScenesService.getSceneByName name w = (w, Return r)
    /\ (r = None <->
        forall k s, Dict.get (IScenesState.scenes (state w)) k = Some s ->
                    IScene.name s <> name)
    /\ (forall k, r = Some k ->
          exists s, Dict.get (IScenesState.scenes (state w)) k = Some s
                    /\ IScene.name s = name)
    /\ (forall d1 k s d2,
          IScenesState.scenes (state w) = d1 ++ (k, s) :: d2 ->
          IScene.name s = name ->
          (forall k' s', In (k', s') d2 -> IScene.name s' <> name) ->
          r = Some k).
Proof.
  intros Hkeyed Hnd. exists (handleByName (state w) name).
  split; [apply getSceneByName_run|]. unfold handleByName. split; [|split].
  - rewrite <- foundScene_None.
    destruct (ScenesService.foundScene (state w) name) as [s|] eqn:F;
      [|now split].
    destruct (foundScene_Some _ _ _ F) as (k & Hs & _).
    rewrite (Hkeyed k s Hs), Hs. split; discriminate.
  - intros k Hr.
    destruct (ScenesService.foundScene (state w) name) as [s|] eqn:F;
      [|discriminate].
    destruct (foundScene_Some _ _ _ F) as (k0 & Hs & Hn).
    rewrite (Hkeyed k0 s Hs), Hs in Hr. injection Hr as <-. now exists s.
  - intros d1 k s d2 Hd Hn Hrest.
    assert (Hk : Dict.get (IScenesState.scenes (state w)) k = Some s).
    { apply get_In_NoDup; [exact Hnd|]. rewrite Hd. apply in_or_app.
      right. now left. }
    assert (F : ScenesService.foundScene (state w) name = Some s).
    { unfold ScenesService.foundScene, Dict.keys.
      replace (map fst (IScenesState.scenes (state w)))
        with (map fst (d1 ++ (k, s) :: d2)) by now rewrite Hd.
      rewrite map_app, fold_left_app. simpl.
      rewrite found_loop_keep.
      - rewrite Hk. apply String.eqb_eq in Hn. now rewrite Hn.
      - intros k' s' Hk' Hs'. apply in_map_iff in Hk'.
        destruct Hk' as ([k1 s1] & E & Hin). simpl in E. subst k1.
        assert (Hs1 : Dict.get (IScenesState.scenes (state w)) k' = Some s1).
        { apply get_In_NoDup; [exact Hnd|]. rewrite Hd. apply in_or_app.
          right. now right. }
        rewrite Hs1 in Hs'. injection Hs' as <-. now apply (Hrest k'). }
    rewrite F, (Hkeyed k s Hk), Hk. reflexivity.
Qed.

Lemma getSceneByName_finds_by_name_witness :
  wellKeyed (state nestedWorld)
  /\ NoDup (Dict.keys (IScenesState.scenes (state nestedWorld)))
  /\ exists r,
       ScenesService.getSceneByName "SceneB" nestedWorld
       = (nestedWorld, Return r)
       /\ (forall k, r = Some k ->
             exists s,
               Dict.get (IScenesState.scenes (state nestedWorld)) k = Some s
               /\ IScene.name s = "SceneB").
Proof.
  assert (Hk : wellKeyed (state nestedWorld))
    by (apply wellKeyedb_sound; vm_compute; reflexivity).
  assert (Hnd : NoDup (Dict.keys (IScenesState.scenes (state nestedWorld))))
    by (apply nodupb_NoDup; vm_compute; reflexivity).
  split; [exact Hk|]. split; [exact Hnd|].
  destruct (getSceneByName_finds_by_name nestedWorld "SceneB" Hk Hnd)
    as (r & Hrun & _ & Hsome & _).
  exists r. split; [exact Hrun | exact Hsome].
Defined.

(** ** The scene [createScene] returns *)

(** X4. [createScene] does not refuse a name that is taken.  With the
    default options and a new id it stores a second scene of that name next
    to the old one and returns the new scene; from then on
    [getSceneByName(name)] answers with the new scene and no longer with the
    old one. *)
Theorem createScene_shadows_same_name
    (w : World) (name k : string) (old : IScene.t) :
  let id := newSceneId ISceneCreateOptions.empty w in
  let m := ScenesService.createScene name ISceneCreateOptions.empty in
  Dict.get (IScenesState.scenes (state w)) id = None ->
  Dict.get (IScenesState.scenes (state w)) k = Some old ->
  IScene.name old = name ->
  result m w = Return (Some id)
  /\ id <> k
  /\ Dict.get (IScenesState.scenes (state (run m w))) k = Some old
  /\ Dict.get (IScenesState.scenes (state (run m w))) id
     = Some (freshScene id name)
  /\ result (ScenesService.getSceneByName name) (run m w) = Return (Some id).
Proof.
  intros id m Hfresh Hold Hname. subst m. unfold result, run.
  rewrite (createScene_plain w name Hfresh). fold id. simpl.
  split; [reflexivity|]. split; [congruence|].
  split; [now rewrite get_app, Hold|].
  split; [now rewrite get_app, Hfresh; simpl; rewrite String.eqb_refl|].
  rewrite getSceneByName_run. simpl. unfold handleByName.
  erewrite foundScene_last; [| reflexivity | exact Hfresh | reflexivity].
  simpl. rewrite get_app, Hfresh. simpl. now rewrite String.eqb_refl.
Qed.

Lemma createScene_shadows_same_name_witness :
  let m := ScenesService.createScene "Scene" ISceneCreateOptions.empty in
  Dict.get (IScenesState.scenes (state defaultWorld)) "scene_0"
  = Some (freshScene "scene_0" "Scene")
  /\ result m defaultWorld = Return (Some "scene_1")
  /\ result (ScenesService.getSceneByName "Scene") (run m defaultWorld)
     = Return (Some "scene_1").
Proof.
  pose proof (createScene_shadows_same_name defaultWorld "Scene" "scene_0"
                (freshScene "scene_0" "Scene") eq_refl eq_refl eq_refl)
    as (Hres & _ & _ & _ & Hby).
  split; [reflexivity|]. split; [exact Hres | exact Hby].
Defined.

Lemma array_index_truthy sid n : Dict.array_index sid = Some n -> truthy sid = true.
Proof. destruct sid; [discriminate | reflexivity]. Qed.

(** A new array-index key goes in front of a dictionary without such
    keys. *)
Lemma set_index_front {V} (d : Dict.t V) k n v :
  Dict.array_index k = Some n ->
  Dict.get d k = None ->
  (forall k', In k' (Dict.keys d) -> Dict.array_index k' = None) ->
  Dict.set d k v = (k, v) :: d.
Proof.
  intros Hk Hfresh Hplain. unfold Dict.set. rewrite Hfresh, Hk.
  destruct d as [|[k0 v0] r]; [reflexivity|]. simpl.
  now rewrite (Hplain k0) by now left.
Qed.

(** X5. [createScene] returns [getSceneByName(name)], not the scene of the
    new id.  When the caller passes an array-index string as [sceneId] (a
    canonical decimal numeral such as ['7']) to a store whose ids are no
    such numerals, [Object.keys] lists the new scene first, and if an older
    scene has the same name the call returns that older scene, although the
    new one is stored. *)
Theorem createScene_index_id_returns_older_scene
    (w : World) (name sid : string) (n : N) (old : IScene.t) :
  let m := ScenesService.createScene name (plainOptions (Some sid) false) in
  Dict.array_index sid = Some n ->
  Dict.get (IScenesState.scenes (state w)) sid = None ->
  (forall k, In k (Dict.keys (IScenesState.scenes (state w))) ->
             Dict.array_index k = None) ->
  wellKeyed (state w) ->
  ScenesService.foundScene (state w) name = Some old ->
  result m w = Return (Some (IScene.id old))
  /\ IScene.id old <> sid
  /\ Dict.get (IScenesState.scenes (state (run m w))) sid
     = Some (freshScene sid name)
  /\ Dict.keys (IScenesState.scenes (state (run m w)))
     = sid :: Dict.keys (IScenesState.scenes (state w)).
Proof.
  intros m Hidx Hfresh Hplain Hkeyed Hold. subst m. unfold result, run.
  rewrite createScene_untemplated_run.
  assert (Hid : newSceneId (plainOptions (Some sid) false) w = sid).
  { unfold newSceneId, or_else, plainOptions. simpl.
    now rewrite (array_index_truthy sid n Hidx). }
  rewrite Hid. unfold created. cbn [fst snd state].
  rewrite (set_index_front _ sid n _ Hidx Hfresh Hplain).
  destruct (foundScene_Some _ _ _ Hold) as (k & Hk & Hn).
  assert (Hne : k <> sid) by congruence.
  rewrite (Hkeyed k old Hk).
  split; [|split; [exact Hne|split]].
  - unfold handleByName. cbn [IScenesState.scenes].
    assert (F : ScenesService.foundScene
                  (IScenesState.mk
                     (if truthy (IScenesState.activeSceneId (state w))
                      then IScenesState.activeSceneId (state w) else sid)
                     (IScenesState.displayOrder (state w) ++ [sid])
                     ((sid, freshScene sid name)
                        :: IScenesState.scenes (state w))) name
                = Some old).
    { unfold ScenesService.foundScene in *. cbn [IScenesState.scenes Dict.keys map fst fold_left].
      unfold Dict.keys in Hold.
      rewrite (fold_left_ext_in _
                 (fun found id =>
                    match Dict.get (IScenesState.scenes (state w)) id with
                    | Some scene =>
                        if String.eqb (IScene.name scene) name
                        then Some scene else found
                    | None => found
                    end)).
      - rewrite found_loop_acc, Hold. reflexivity.
      - intros b acc Hb. cbn [Dict.get].
        destruct (String.eqb sid b) eqn:E; [|reflexivity].
        apply String.eqb_eq in E. subst b.
        exfalso. now apply (get_None_not_In _ _ Hfresh). }
    rewrite F, (Hkeyed k old Hk). cbn [Dict.get].
    apply String.eqb_neq in Hne. rewrite String.eqb_sym, Hne, Hk. reflexivity.
  - cbn [IScenesState.scenes Dict.get]. now rewrite String.eqb_refl.
  - reflexivity.
Qed.

Lemma createScene_index_id_returns_older_scene_witness :
  let m := ScenesService.createScene "Scene" (plainOptions (Some "7") false) in
  Dict.array_index "7" = Some 7%N
  /\ ScenesService.foundScene (state defaultWorld) "Scene"
     = Some (freshScene "scene_0" "Scene")
  /\ result m defaultWorld = Return (Some "scene_0")
  /\ Dict.keys (IScenesState.scenes (state (run m defaultWorld)))
     = ["7"; "scene_0"].
Proof.
  assert (Hplain : forall k,
             In k (Dict.keys (IScenesState.scenes (state defaultWorld))) ->
             Dict.array_index k = None).
  { intros k [<-|[]]. reflexivity. }
  assert (Hk : wellKeyed (state defaultWorld))
    by (apply wellKeyedb_sound; vm_compute; reflexivity).
  pose proof (createScene_index_id_returns_older_scene defaultWorld "Scene" "7"
                7%N (freshScene "scene_0" "Scene") eq_refl eq_refl Hplain Hk
                eq_refl) as (Hres & _ & _ & Hkeys).
  split; [reflexivity|]. split; [reflexivity|].
  split; [exact Hres | exact Hkeys].
Defined.



(** ** Creating and removing scenes keeps the store consistent *)

Lemma created_consistent w w' id name makeActive :
  consistent w ->
  Dict.get (IScenesState.scenes (state w)) id = None ->
  id <> "" ->
  state w' = created id name makeActive (state w) ->
  consistent w'.
Proof.
  intros (Hnd & Hkeys & Hids & Hne) Hfresh Hid Hst.
  unfold consistent. rewrite Hst. unfold created.
  cbn [IScenesState.displayOrder IScenesState.scenes].
  pose proof (keys_set_fresh _ id (freshScene id name) Hfresh) as Hp.
  assert (Hout : ~ In id (IScenesState.displayOrder (state w))).
  { intros Hin. apply Hkeys in Hin. now apply (get_None_not_In _ _ Hfresh). }
  repeat split.
  - apply NoDup_app; [exact Hnd | repeat constructor; intros [] |].
    intros k Hk [<-|[]]. contradiction.
  - intros Hk. apply (Permutation_in _ Hp). apply in_app_or in Hk.
    destruct Hk as [Hk|[<-|[]]]; [right; now apply Hkeys | now left].
  - intros Hk. apply (Permutation_in _ (Permutation_sym Hp)) in Hk.
    apply in_or_app. destruct Hk as [<-|Hk]; [right; now left|].
    left. now apply Hkeys.
  - intros k sc. rewrite get_set. destruct (String.eqb id k).
    + intros [= <-]. constructor.
    + apply Hids.
  - intros Hin. apply (Permutation_in _ (Permutation_sym Hp)) in Hin.
    destruct Hin as [Hin|Hin]; [now apply Hid | now apply Hne].
Qed.

Lemma NoDup_itemIds_filter (p : ISceneItem.t -> bool) l :
  NoDup (itemIds l) -> NoDup (itemIds (filter p l)).
Proof.
  unfold itemIds. induction l as [|a r IH]; simpl; intros H; [constructor|].
  inversion H as [|? ? Ha Hr]; subst.
  destruct (p a); simpl; [|now apply IH].
  constructor; [|now apply IH].
  intros Hin. apply Ha. apply in_map_iff in Hin.
  destruct Hin as (b & E & Hb). apply filter_In in Hb.
  rewrite <- E. apply in_map. tauto.
Qed.

(** What [removeScene(id)] leaves of the items of another scene. *)
Lemma afterRemoval_items w id k s :
  consistent w ->
  Dict.get (IScenesState.scenes (state w)) id = Some s ->
  k <> id ->
  itemsOf (nodesOf (afterRemoval id (state w)) k)
  = filter (fun i => negb (references id i)) (itemsOf (nodesOf (state w) k)).
Proof.
  intros Hcons Hs Hk. unfold nodesOf at 1, afterRemoval.
  cbn [IScenesState.scenes]. rewrite get_delete.
  assert (E : String.eqb id k = false) by (apply String.eqb_neq; congruence).
  rewrite E. apply (swept_items w id k s Hcons Hs Hk).
Qed.

Lemma afterRemoval_consistent w w' id s :
  consistent w ->
  Dict.get (IScenesState.scenes (state w)) id = Some s ->
  state w' = afterRemoval id (state w) ->
  consistent w'.
Proof.
  intros Hcons Hs Hst. pose proof Hcons as (Hnd & Hkeys & Hids & Hne).
  destruct (swept_frame w id) as (_ & _ & Hk).
  unfold consistent. rewrite Hst. unfold afterRemoval at 1 2 3 5.
  cbn [IScenesState.displayOrder IScenesState.scenes].
  rewrite keys_delete, Hk. repeat split.
  - unfold without. now apply NoDup_filter.
  - intros Hin. apply In_without in Hin. apply In_without.
    split; [now apply Hkeys | tauto].
  - intros Hin. apply In_without in Hin. apply In_without.
    split; [now apply Hkeys | tauto].
  - intros k sc Hsc.
    assert (Hne' : k <> id).
    { intros ->. unfold afterRemoval in Hsc. cbn [IScenesState.scenes] in Hsc.
      now rewrite get_delete, String.eqb_refl in Hsc. }
    pose proof (afterRemoval_items w id k s Hcons Hs Hne') as Hit.
    rewrite (nodesOf_get _ _ _ Hsc) in Hit. rewrite Hit.
    apply NoDup_itemIds_filter.
    destruct (Dict.get (IScenesState.scenes (state w)) k) as [sc0|] eqn:G.
    + rewrite (nodesOf_get _ _ _ G). now apply Hids with k.
    + unfold nodesOf. rewrite G. constructor.
  - intros Hin. apply In_without in Hin. now apply Hne.
Qed.

Lemma scenes_run w :
  ScenesService.scenes w =
  (w, Return (map (fun id =>
                     match Dict.get (IScenesState.scenes (state w)) id with
                     | None => None
                     | Some _ => Some id
                     end)
                  (IScenesState.displayOrder (state w)))).
Proof. reflexivity. Qed.

Lemma handles_stored st :
  orderStored st ->
  map (fun id =>
         match Dict.get (IScenesState.scenes st) id with
         | None => None
         | Some _ => Some id
         end)
      (IScenesState.displayOrder st)
  = map Some (IScenesState.displayOrder st).
Proof.
  intros H. apply map_ext_in. intros k Hk. specialize (H k Hk).
  now destruct (Dict.get (IScenesState.scenes st) k).
Qed.

Lemma consistent_orderStored w : consistent w -> orderStored (state w).
Proof.
  intros (_ & Hkeys & _) k Hk. apply Hkeys, In_keys_get in Hk.
  destruct Hk as [v Hv]. congruence.
Qed.

(** X7. [createScene] with a new id and without a template keeps a
    consistent store consistent: the display order still lists every scene
    once and only scenes, with the new scene last, which is the order
    [getScenes] reads them in. *)
Theorem createScene_keeps_consistent
    (w : World) (name : string) (sceneId : option string) (makeActive : bool) :
  let options := plainOptions sceneId makeActive in
  let w' := run (ScenesService.createScene name options) w in
  consistent w ->
  Dict.get (IScenesState.scenes (state w)) (newSceneId options w) = None ->
  consistent w'
  /\ result ScenesService.getScenes w'
     = Return (map Some (IScenesState.displayOrder (state w))
               ++ [Some (newSceneId options w)]).
Proof.
  intros options w' Hcons Hfresh. subst w' options. unfold run, result.
  rewrite createScene_untemplated_run. cbn [fst].
  match goal with |- consistent ?w1 /\ _ => assert (Hc : consistent w1) end.
  { eapply created_consistent;
      [exact Hcons | exact Hfresh | apply newSceneId_truthy | reflexivity]. }
  split; [exact Hc|].
  unfold ScenesService.getScenes. rewrite scenes_run. cbn [snd].
  rewrite (handles_stored _ (consistent_orderStored _ Hc)).
  cbn [state]. unfold created. cbn [IScenesState.displayOrder].
  now rewrite map_app.
Qed.

Lemma createScene_keeps_consistent_witness :
  let w' := run (ScenesService.createScene "Scene2" (plainOptions None false))
                defaultWorld in
  consistent defaultWorld
  /\ consistent w'
  /\ result ScenesService.getScenes w' = Return [Some "scene_0"; Some "scene_1"].
Proof.
  assert (Hc : consistent defaultWorld)
    by (apply consistentb_sound; vm_compute; reflexivity).
  pose proof (createScene_keeps_consistent defaultWorld "Scene2" None false
                Hc eq_refl) as [H1 H2].
  split; [exact Hc|]. split; [exact H1 | exact H2].
Defined.

(** X8. [removeScene] of a scene that exists and may be removed keeps a
    consistent store consistent, and [getScenes] then lists the scenes it
    listed before, in the same order, without the removed one. *)
Theorem removeScene_keeps_consistent
    (w : World) (id : string) (force : bool) (s : IScene.t) :
  let w' := run (ScenesService.removeScene id force) w in
  consistent w ->
  Dict.get (IScenesState.scenes (state w)) id = Some s ->
  force = true \/ (2 <= sceneCount w)%nat ->
  consistent w'
  /\ result ScenesService.getScenes w'
     = Return (map Some (without (IScenesState.displayOrder (state w)) id)).
Proof.
  intros w' Hcons Hs Hrem. subst w'. unfold run, result.
  rewrite (removeScene_run w id force s Hcons Hs Hrem). cbn [fst].
  match goal with |- consistent ?w1 /\ _ => assert (Hc : consistent w1) end.
  { now apply (afterRemoval_consistent w _ id s). }
  split; [exact Hc|].
  unfold ScenesService.getScenes. rewrite scenes_run. cbn [snd].
  now rewrite (handles_stored _ (consistent_orderStored _ Hc)).
Qed.

Lemma removeScene_keeps_consistent_witness :
  let w' := run (ScenesService.removeScene "scene_1" false) cascadeWorld in
  consistent cascadeWorld
  /\ consistent w'
  /\ result ScenesService.getScenes w'
     = Return [Some "scene_0"; Some "scene_2"; Some "scene_3"].
Proof.
  assert (Hc : consistent cascadeWorld)
    by (apply consistentb_sound; vm_compute; reflexivity).
  assert (Hn : (2 <= sceneCount cascadeWorld)%nat)
    by (apply Nat.leb_le; vm_compute; reflexivity).
  pose proof (removeScene_keeps_consistent cascadeWorld "scene_1" false
                cascadeSceneA Hc eq_refl (or_intror Hn)) as [H1 H2].
  split; [exact Hc|]. split; [exact H1 | exact H2].
Defined.

(** ** Creating a scene and removing it again *)



Lemma set_append {V} (d : Dict.t V) k v :
  Dict.get d k = None -> Dict.array_index k = None ->
  Dict.set d k v = d ++ [(k, v)].
Proof. intros H1 H2. unfold Dict.set. now rewrite H1, H2. Qed.








(** ** After the only scene was removed by force *)

Lemma set_empty {V} k (v : V) : Dict.set [] k v = [(k, v)].
Proof. unfold Dict.set. simpl. now destruct (Dict.array_index k). Qed.

Lemma keys_nil {V} (d : Dict.t V) : Dict.keys d = [] -> d = [].
Proof. now destruct d. Qed.

(** X10. A forced [removeScene] of the only scene, which is the active one,
    empties the store but leaves the active-scene id pointing at the scene
    that is gone, so [activeScene] is [null].  A scene created afterwards
    (without [makeActive], under another id) is not made active, because
    [ADD_SCENE] only sets the active scene when the id is empty:
    [activeScene] stays [null] although there is a scene again. *)
Theorem forced_removal_leaves_no_active_scene
    (w : World) (id name : string) (sceneId : option string) :
  let options := plainOptions sceneId false in
  let w1 := run (ScenesService.removeScene id true) w in
  let w2 := run (ScenesService.createScene name options) w1 in
  consistent w ->
  Dict.keys (IScenesState.scenes (state w)) = [id] ->
  IScenesState.activeSceneId (state w) = id ->
  newSceneId options w <> id ->
  sceneCount w1 = 0%nat
  /\ IScenesState.activeSceneId (state w1) = id
  /\ result ScenesService.activeScene w1 = Return None
  /\ Dict.keys (IScenesState.scenes (state w2)) = [newSceneId options w]
  /\ IScenesState.activeSceneId (state w2) = id
  /\ result ScenesService.activeScene w2 = Return None.
Proof.
  intros options w1 w2 Hcons Hkeys Hactive Hnew.
  pose proof Hcons as (_ & _ & _ & Hne).
  assert (Hin : In id (Dict.keys (IScenesState.scenes (state w))))
    by (rewrite Hkeys; now left).
  destruct (In_keys_get _ _ Hin) as [s Hs].
  assert (Hid : truthy id = true).
  { unfold truthy. apply negb_true_iff, String.eqb_neq. intros ->.
    contradiction. }
  assert (Hrun1 : ScenesService.removeScene id true w
                  = (advance w (afterRemoval id (state w))
                       (removalEvents id s (state w)),
                     Return (Some (emptied s))))
    by exact (removeScene_run w id true s Hcons Hs (or_introl eq_refl)).
  assert (Hempty : Dict.delete (IScenesState.scenes (swept id (state w))) id = []).
  { apply keys_nil. rewrite keys_delete.
    destruct (swept_frame w id) as (_ & _ & ->). rewrite Hkeys.
    unfold without. simpl. now rewrite String.eqb_refl. }
  assert (Hst1 : state w1
                 = IScenesState.mk id
                     (without (IScenesState.displayOrder (state w)) id) []).
  { subst w1. unfold run. rewrite Hrun1. cbn [fst]. unfold advance.
    cbn [state]. unfold afterRemoval, successor.
    now rewrite Hempty, Hactive, String.eqb_refl. }
  assert (Hnew1 : newSceneId options w1 = newSceneId options w).
  { subst w1. unfold run. now rewrite Hrun1. }
  assert (Hst2 : state w2 = created (newSceneId options w) name false (state w1)).
  { subst w2. unfold run. subst options.
    rewrite createScene_untemplated_run. cbn [fst state].
    now rewrite Hnew1. }
  split; [unfold sceneCount; now rewrite Hst1|].
  split; [now rewrite Hst1|].
  split.
  { unfold result, ScenesService.activeScene, ScenesService.getScene. msimpl.
    now rewrite Hst1. }
  rewrite Hst2, Hst1. unfold created.
  cbn [IScenesState.activeSceneId IScenesState.scenes]. rewrite Hid, set_empty.
  split; [reflexivity|]. split; [reflexivity|].
  unfold result, ScenesService.activeScene, ScenesService.getScene. msimpl.
  rewrite Hst2, Hst1. unfold created.
  cbn [IScenesState.activeSceneId IScenesState.scenes]. rewrite Hid, set_empty.
  cbn [Dict.get]. apply String.eqb_neq in Hnew. now rewrite Hnew.
Qed.

Lemma forced_removal_leaves_no_active_scene_witness :
  let w1 := run (ScenesService.removeScene "scene_0" true) imagesWorld in
  let w2 := run (ScenesService.createScene "Again" (plainOptions None false))
                w1 in
  consistent imagesWorld
  /\ Dict.keys (IScenesState.scenes (state w2)) = ["scene_5"]
  /\ IScenesState.activeSceneId (state w2) = "scene_0"
  /\ result ScenesService.activeScene w2 = Return None.
Proof.
  assert (Hc : consistent imagesWorld)
    by (apply consistentb_sound; vm_compute; reflexivity).
  assert (Hn : newSceneId (plainOptions None false) imagesWorld <> "scene_0")
    by (vm_compute; discriminate).
  pose proof (forced_removal_leaves_no_active_scene imagesWorld "scene_0"
                "Again" None Hc eq_refl eq_refl Hn)
    as (_ & _ & _ & Hk & Ha & Hr).
  split; [exact Hc|]. split; [exact Hk|]. split; [exact Ha | exact Hr].
Defined.

(** ** The scenes that use a source *)

Lemma uses_count src k items :
  (0 <? length (filter (fun sceneItem =>
                          String.eqb (SceneItem.sourceId sceneItem) src)
                       (map (SceneItem.mk k) items)))%nat
  = existsb (references src) items.
Proof.
  induction items as [|a r IH]; simpl; [reflexivity|].
  unfold SceneItem.sourceId at 1, references at 1. simpl.
  destruct (String.eqb (ISceneItem.sourceId a) src); [reflexivity | exact IH].
Qed.

Lemma collectSourceScenes_ok src ks : forall w acc,
  (forall k, In k ks -> Dict.get (IScenesState.scenes (state w)) k <> None) ->
  ScenesService.collectSourceScenes src
    (map (fun id => match Dict.get (IScenesState.scenes (state w)) id with
                    | None => None
                    | Some _ => Some id
                    end) ks) acc w
  = (w, Return (acc ++ filter (usesSource src (state w)) ks)).
Proof.
  induction ks as [|k ks IH]; intros w acc Hex; simpl.
  - now rewrite app_nil_r.
  - destruct (Dict.get (IScenesState.scenes (state w)) k) as [sc|] eqn:Hsc.
    2:{ exfalso. apply (Hex k); [now left | exact Hsc]. }
    unfold Scene.getItems. msimpl. fold (@ScenesService.collectSourceScenes).
    rewrite IH by (intros k' Hk'; apply Hex; now right).
    rewrite uses_count. unfold usesSource at 2.
    destruct (existsb (references src) (itemsOf (nodesOf (state w) k)));
      [now rewrite <- app_assoc | reflexivity].
Qed.

Lemma getSourceScenes_run w sourceId :
  orderStored (state w) ->
  ScenesService.getSourceScenes sourceId w
  = (w, Return (filter (usesSource sourceId (state w))
                       (IScenesState.displayOrder (state w)))).
Proof.
  intros Hex. unfold ScenesService.getSourceScenes.
  rewrite (bind_Return _ _ _ _ _ (scenes_run w)).
  now rewrite collectSourceScenes_ok.
Qed.

(** X11. On a store whose display order names only scenes it has,
    [getSourceScenes(sourceId)] is a read that returns, in display order,
    exactly the scenes with at least one item of that source: a scene is
    returned when it is listed and one of its items has [sourceId] as its
    source, however many such items it has. *)
Theorem getSourceScenes_lists_users (w : World) (sourceId : string) :
  orderStored (state w) ->
  let l := filter (usesSource sourceId (state w))
                  (IScenesState.displayOrder (state w)) in
  ScenesService.getSourceScenes sourceId w = (w, Return l)
  /\ forall k, In k l <->
       In k (IScenesState.displayOrder (state w))
       /\ exists i, In i (itemsOf (nodesOf (state w) k))
                    /\ ISceneItem.sourceId i = sourceId.
Proof.
  intros Hex l. subst l. split; [now apply getSourceScenes_run|].
  intros k. rewrite filter_In. apply and_iff_compat_l.
  unfold usesSource. rewrite existsb_exists. split.
  - intros (i & Hi & E). exists i. split; [exact Hi|].
    now apply String.eqb_eq in E.
  - intros (i & Hi & E). exists i. split; [exact Hi|].
    now apply String.eqb_eq.
Qed.

Lemma getSourceScenes_lists_users_witness :
  orderStored (state cascadeWorld)
  /\ ScenesService.getSourceScenes "scene_1" cascadeWorld
     = (cascadeWorld, Return ["scene_3"]).
Proof.
  assert (Hc : consistent cascadeWorld)
    by (apply consistentb_sound; vm_compute; reflexivity).
  pose proof (consistent_orderStored _ Hc) as Ho.
  split; [exact Ho|].
  rewrite (proj1 (getSourceScenes_lists_users cascadeWorld "scene_1" Ho)).
  apply f_equal. apply f_equal. vm_compute. reflexivity.
Defined.

Lemma existsb_filter_negb {A} (p : A -> bool) l :
  existsb p (filter (fun a => negb (p a)) l) = false.
Proof.
  induction l as [|a r IH]; simpl; [reflexivity|].
  destruct (p a) eqn:E; simpl; [exact IH | now rewrite E].
Qed.

(** X12. After [removeScene(id)] of a scene of a consistent store, no
    scene uses the removed scene as a source any more:
    [getSourceScenes(id)] returns the empty list. *)
Theorem removeScene_leaves_no_user
    (w : World) (id : string) (force : bool) (s : IScene.t) :
  consistent w ->
  Dict.get (IScenesState.scenes (state w)) id = Some s ->
  force = true \/ (2 <= sceneCount w)%nat ->
  result (ScenesService.getSourceScenes id)
         (run (ScenesService.removeScene id force) w)
  = Return [].
Proof.
  intros Hcons Hs Hrem. unfold run, result.
  rewrite (removeScene_run w id force s Hcons Hs Hrem). cbn [fst].
  set (w1 := advance w (afterRemoval id (state w)) (removalEvents id s (state w))).
  assert (Hc : consistent w1)
    by (now apply (afterRemoval_consistent w w1 id s)).
  rewrite (getSourceScenes_run w1 id (consistent_orderStored _ Hc)).
  cbn [snd]. f_equal.
  assert (Hnone : forall k, In k (IScenesState.displayOrder (state w1)) ->
                            usesSource id (state w1) k = false).
  { intros k Hk. subst w1. cbn [state] in *.
    unfold afterRemoval at 1 in Hk. cbn [IScenesState.displayOrder] in Hk.
    apply In_without in Hk. destruct Hk as [_ Hk].
    unfold usesSource, advance. cbn [state].
    rewrite (afterRemoval_items w id k s Hcons Hs Hk).
    apply existsb_filter_negb. }
  induction (IScenesState.displayOrder (state w1)) as [|k r IH];
    cbn [filter]; [reflexivity|].
  rewrite (Hnone k) by now left. apply IH. intros k' Hk'. apply Hnone. now right.
Qed.

Lemma removeScene_leaves_no_user_witness :
  consistent cascadeWorld
  /\ result (ScenesService.getSourceScenes "scene_1") cascadeWorld
     = Return ["scene_3"]
  /\ result (ScenesService.getSourceScenes "scene_1")
            (run (ScenesService.removeScene "scene_1" false) cascadeWorld)
     = Return [].
Proof.
  assert (Hc : consistent cascadeWorld)
    by (apply consistentb_sound; vm_compute; reflexivity).
  assert (Hn : (2 <= sceneCount cascadeWorld)%nat)
    by (apply Nat.leb_le; vm_compute; reflexivity).
  split; [exact Hc|]. split; [vm_compute; reflexivity|].
  exact (removeScene_leaves_no_user cascadeWorld "scene_1" false cascadeSceneA
           Hc eq_refl (or_intror Hn)).
Defined.

(** ** A display order that names a scene the store does not have *)

Lemma collectItems_throws ks : forall w,
  (exists k, In k ks /\ Dict.get (IScenesState.scenes (state w)) k = None) ->
  ScenesService.collectItems
    (map (fun id => match Dict.get (IScenesState.scenes (state w)) id with
                    | None => None
                    | Some _ => Some id
                    end) ks) w
  = (w, Throw TypeError).
Proof.
  induction ks as [|k0 ks IH]; intros w (k & Hk & Hnone); [destruct Hk|].
  simpl. destruct (Dict.get (IScenesState.scenes (state w)) k0) as [sc|] eqn:G.
  - unfold Scene.getItems. msimpl. fold (@ScenesService.collectItems).
    rewrite IH; [reflexivity|]. exists k. split; [|exact Hnone].
    destruct Hk as [<-|Hk]; [congruence | exact Hk].
  - reflexivity.
Qed.

Lemma collectSourceScenes_throws src ks : forall w acc,
  (exists k, In k ks /\ Dict.get (IScenesState.scenes (state w)) k = None) ->
  ScenesService.collectSourceScenes src
    (map (fun id => match Dict.get (IScenesState.scenes (state w)) id with
                    | None => None
                    | Some _ => Some id
                    end) ks) acc w
  = (w, Throw TypeError).
Proof.
  induction ks as [|k0 ks IH]; intros w acc (k & Hk & Hnone); [destruct Hk|].
  simpl. destruct (Dict.get (IScenesState.scenes (state w)) k0) as [sc|] eqn:G.
  - unfold Scene.getItems. msimpl. fold (@ScenesService.collectSourceScenes).
    rewrite IH; [reflexivity|]. exists k. split; [|exact Hnone].
    destruct Hk as [<-|Hk]; [congruence | exact Hk].
  - reflexivity.
Qed.

Lemma getSceneItems_throws w ghost :
  In ghost (IScenesState.displayOrder (state w)) ->
  Dict.get (IScenesState.scenes (state w)) ghost = None ->
  ScenesService.getSceneItems w = (w, Throw TypeError).
Proof.
  intros Hin Hnone. unfold ScenesService.getSceneItems.
  rewrite (bind_Return _ _ _ _ _ (scenes_run w)).
  apply collectItems_throws. now exists ghost.
Qed.

(** X13. [setSceneOrder] stores any list, so the display order can name an
    id the store has no scene for.  [getScenes] then has a [null] entry,
    and the readers that call [getItems] on every entry, [getSceneItems] and
    [getSourceScenes], throw a [TypeError]; the world is left as it was. *)
Theorem readers_throw_on_unknown_order_entry
    (w : World) (ghost sourceId : string) :
  In ghost (IScenesState.displayOrder (state w)) ->
  Dict.get (IScenesState.scenes (state w)) ghost = None ->
  (exists l, result ScenesService.getScenes w = Return l /\ In None l)
  /\ ScenesService.getSceneItems w = (w, Throw TypeError)
  /\ ScenesService.getSourceScenes sourceId w = (w, Throw TypeError).
Proof.
  intros Hin Hnone. split; [|split].
  - eexists. split; [reflexivity|]. apply in_map_iff. exists ghost.
    now rewrite Hnone.
  - now apply getSceneItems_throws with ghost.
  - unfold ScenesService.getSourceScenes.
    rewrite (bind_Return _ _ _ _ _ (scenes_run w)).
    apply collectSourceScenes_throws. now exists ghost.
Qed.

Lemma readers_throw_on_unknown_order_entry_witness :
  ghostOrderWorld = run (ScenesService.setSceneOrder ["scene_0"; "ghost"])
                        imagesWorld
  /\ ScenesService.getSceneItems imagesWorld
     = (imagesWorld,
        Return (map (SceneItem.mk "scene_0") (itemsOf (IScene.nodes imagesScene))))
  /\ ScenesService.getSceneItems ghostOrderWorld
     = (ghostOrderWorld, Throw TypeError).
Proof.
  assert (Hin : In "ghost" (IScenesState.displayOrder (state ghostOrderWorld)))
    by (right; now left).
  pose proof (readers_throw_on_unknown_order_entry ghostOrderWorld "ghost"
                "scene_0" Hin eq_refl) as (_ & Hitems & _).
  split; [reflexivity|]. split; [vm_compute; reflexivity | exact Hitems].
Defined.

(** X14. With such a display order [removeScene(id)] does not remove the
    scene: it removes the scene's own items, each with its item-removed
    event, and then throws a [TypeError] when it collects the items of all
    scenes.  The emptied scene stays in the store and in the display order,
    the active scene is as before, and no scene-removed event is emitted. *)
Theorem removeScene_fails_midway
    (w : World) (id ghost : string) (force : bool) (s : IScene.t) :
  let w' := run (ScenesService.removeScene id force) w in
  Dict.get (IScenesState.scenes (state w)) id = Some s ->
  NoDup (itemIds (itemsOf (IScene.nodes s))) ->
  force = true \/ (2 <= sceneCount w)%nat ->
  In ghost (IScenesState.displayOrder (state w)) ->
  Dict.get (IScenesState.scenes (state w)) ghost = None ->
  result (ScenesService.removeScene id force) w = Throw TypeError
  /\ events w' = events w
                 ++ map removedEvent
                        (map (SceneItem.mk id) (itemsOf (IScene.nodes s)))
  /\ Dict.get (IScenesState.scenes (state w')) id = Some (emptied s)
  /\ itemsOf (nodesOf (state w') id) = []
  /\ IScenesState.displayOrder (state w') = IScenesState.displayOrder (state w)
  /\ IScenesState.activeSceneId (state w') = IScenesState.activeSceneId (state w).
Proof.
  intros w' Hs Hids Hrem Hin Hnone. subst w'.
  set (st1 := mapNodes id (dropItems (itemIds (itemsOf (nodesOf (state w) id))))
                (state w)).
  set (w1 := advance w st1
               (map removedEvent
                    (map (SceneItem.mk id) (itemsOf (IScene.nodes s))))).
  assert (Hloop : forEach (map (SceneItem.mk id) (itemsOf (nodesOf (state w) id)))
                          (ScenesService.removeOwnItem id) w
                  = (w1, Return tt)).
  { subst w1 st1. rewrite (nodesOf_get _ _ _ Hs).
    rewrite (sweep id (fun _ => true) (ScenesService.removeOwnItem id)
               (fun i w0 sc _ => eq_refl) _ [] w s Hs eq_refl Hids).
    rewrite (filter_all (fun _ => true)) by reflexivity.
    now rewrite map_map. }
  assert (Hget1 : forall k,
             Dict.get (IScenesState.scenes st1) k
             = if String.eqb id k then Some (emptied s)
               else Dict.get (IScenesState.scenes (state w)) k).
  { intros k. subst st1. rewrite get_mapNodes, Hs. simpl.
    now rewrite (nodesOf_get _ _ _ Hs). }
  destruct (mapNodes_frame (state w) id
              (dropItems (itemIds (itemsOf (nodesOf (state w) id)))))
    as (Hact & Hord & _).
  fold st1 in Hact, Hord.
  assert (Hthrow : ScenesService.getSceneItems w1 = (w1, Throw TypeError)).
  { apply getSceneItems_throws with ghost.
    - subst w1. unfold advance. cbn [state]. now rewrite Hord.
    - subst w1. unfold advance. cbn [state]. rewrite Hget1.
      destruct (String.eqb id ghost) eqn:E; [|exact Hnone].
      apply String.eqb_eq in E. subst ghost. congruence. }
  assert (Hrun : ScenesService.removeScene id force w = (w1, Throw TypeError)).
  { unfold ScenesService.removeScene.
    rewrite (bind_Return _ _ w w (state w)) by reflexivity.
    replace (negb force
             && (length (Dict.keys (IScenesState.scenes (state w))) <? 2)%nat)
      with false.
    2:{ symmetry. destruct Hrem as [->|H]; [reflexivity|].
        apply andb_false_iff. right. now apply Nat.ltb_ge. }
    rewrite (bind_Return _ _ w w (Some id)).
    2:{ unfold ScenesService.getScene. msimpl. now rewrite Hs. }
    rewrite (bind_Return _ _ w w id) by reflexivity.
    rewrite (bind_Return _ _ w w
               (map (SceneItem.mk id) (itemsOf (nodesOf (state w) id))))
      by reflexivity.
    rewrite (bind_Return _ _ _ _ _ Hloop).
    unfold bind at 1. now rewrite Hthrow. }
  unfold result, run. rewrite Hrun. cbn [fst snd]. subst w1. unfold advance.
  cbn [state events].
  split; [reflexivity|]. split; [reflexivity|].
  split; [now rewrite Hget1, String.eqb_refl|].
  split.
  { unfold nodesOf. rewrite Hget1, String.eqb_refl. unfold emptied. simpl.
    apply itemsOf_drop_all. }
  split; assumption.
Qed.

Lemma removeScene_fails_midway_witness :
  let w' := run (ScenesService.removeScene "scene_0" true) ghostOrderWorld in
  Dict.get (IScenesState.scenes (state ghostOrderWorld)) "scene_0"
  = Some imagesScene
  /\ length (itemsOf (IScene.nodes imagesScene)) = 2%nat
  /\ result (ScenesService.removeScene "scene_0" true) ghostOrderWorld
     = Throw TypeError
  /\ length (events w') = (length (events ghostOrderWorld) + 2)%nat
  /\ itemsOf (nodesOf (state w') "scene_0") = [].
Proof.
  assert (Hids : NoDup (itemIds (itemsOf (IScene.nodes imagesScene))))
    by (apply nodupb_NoDup; vm_compute; reflexivity).
  assert (Hin : In "ghost" (IScenesState.displayOrder (state ghostOrderWorld)))
    by (right; now left).
  pose proof (removeScene_fails_midway ghostOrderWorld "scene_0" "ghost" true
                imagesScene eq_refl Hids (or_introl eq_refl) Hin eq_refl)
    as (Hres & Hev & _ & Hitems & _).
  split; [reflexivity|]. split; [reflexivity|]. split; [exact Hres|].
  split; [|exact Hitems].
  rewrite Hev, length_app. reflexivity.
Defined.

(** ** A template that cannot be copied *)



(** X16. [createScene(name, {duplicateSourcesFromScene: name})], a copy
    under the template's own name, copies nothing: by the time the template
    is looked up the new, empty scene is the last scene of that name, so it
    is taken for its own template.  The call does what [createScene(name)]
    does, whatever scenes of that name the store had. *)
Theorem createScene_duplicate_own_name_copies_nothing
    (w : World) (name : string) :
  let id := newSceneId ISceneCreateOptions.empty w in
  let m := ScenesService.createScene name (duplicateOptions name) in
  truthy name = true ->
  Dict.get (IScenesState.scenes (state w)) id = None ->
  m w = ScenesService.createScene name ISceneCreateOptions.empty w
  /\ result m w = Return (Some id)
  /\ itemsOf (nodesOf (state (run m w)) id) = []
  /\ events (run m w) = events w ++ [sceneAdded (Some (freshScene id name))].
Proof.
  intros id m Htruthy Hfresh. subst m.
  assert (Hrun : ScenesService.createScene name (duplicateOptions name) w
                 = ScenesService.createScene name ISceneCreateOptions.empty w).
  { rewrite (createScene_plain w name Hfresh). fold id.
    unfold ScenesService.createScene, duplicateOptions.
    cbn [ISceneCreateOptions.sceneId ISceneCreateOptions.makeActive
         ISceneCreateOptions.duplicateSourcesFromScene].
    rewrite Htruthy.
    unfold ScenesService.ADD_SCENE, SourcesService.addSource,
      ScenesService.sceneOfState, ScenesService.getSceneByName,
      ScenesService.getScene, Scene.getItems.
    msimpl.
    unfold newSceneId, or_else in id. simpl in id. fold id.
    assert (Hset : Dict.set (IScenesState.scenes (state w)) id (freshScene id name)
                   = IScenesState.scenes (state w) ++ [(id, freshScene id name)])
      by (now apply set_append).
    rewrite Hset.
    erewrite foundScene_last; [| reflexivity | exact Hfresh | reflexivity].
    simpl. rewrite get_app, Hfresh. simpl. rewrite String.eqb_refl. simpl.
    unfold nodesOf. simpl. rewrite get_app, Hfresh. simpl.
    rewrite String.eqb_refl. simpl.
    erewrite foundScene_last; [| reflexivity | exact Hfresh | reflexivity].
    simpl. rewrite get_app, Hfresh. simpl. rewrite String.eqb_refl.
    reflexivity. }
  split; [exact Hrun|]. unfold result, run. rewrite Hrun.
  rewrite (createScene_plain w name Hfresh). fold id. cbn [fst snd state events].
  split; [reflexivity|]. split; [|reflexivity].
  unfold nodesOf. cbn [IScenesState.scenes].
  now rewrite get_app, Hfresh; simpl; rewrite String.eqb_refl.
Qed.

Lemma createScene_duplicate_own_name_copies_nothing_witness :
  let m := ScenesService.createScene "Scene" (duplicateOptions "Scene") in
  length (itemsOf (nodesOf (state imagesWorld) "scene_0")) = 2%nat
  /\ ScenesService.getSceneByName "Scene" imagesWorld
     = (imagesWorld, Return (Some "scene_0"))
  /\ result m imagesWorld = Return (Some "scene_5")
  /\ itemsOf (nodesOf (state (run m imagesWorld)) "scene_5") = [].
Proof.
  pose proof (createScene_duplicate_own_name_copies_nothing imagesWorld "Scene"
                eq_refl eq_refl) as (_ & Hres & Hitems & _).
  split; [reflexivity|]. split; [vm_compute; reflexivity|].
  split; [exact Hres | exact Hitems].
Defined.

(** ** The active scene is a scene of the store *)

Lemma activeStored_same w w' :
  IScenesState.activeSceneId (state w') = IScenesState.activeSceneId (state w) ->
  Dict.keys (IScenesState.scenes (state w')) = Dict.keys (IScenesState.scenes (state w)) ->
  activeStored w -> activeStored w'.
Proof.
  intros Ha Hk [Hset Hin]. split; [now apply (activeSet_same w)|].
  unfold sceneCount in *. now rewrite Ha, Hk.
Qed.

Lemma quiet_keeps_activeStored {A} (m : M A) :
  quiet m -> hoare activeStored m activeStored.
Proof.
  intros Hm w Hw. destruct (Hm w) as (Ha & Hk & _).
  now apply (activeStored_same w).
Qed.

Lemma quiet_keeps_storedSpare {A} (m : M A) :
  quiet m -> hoare activeStoredSpare m activeStoredSpare.
Proof.
  intros Hm w [Hw Hn]. destruct (Hm w) as (Ha & Hk & _). split.
  - now apply (activeStored_same w).
  - unfold sceneCount in *. now rewrite Hk.
Qed.

Lemma keys_set_incl {V} (d : Dict.t V) id v k :
  In k (Dict.keys d) -> In k (Dict.keys (Dict.set d id v)).
Proof.
  intros Hk. apply In_keys_get in Hk. destruct Hk as [v0 Hv0].
  destruct (String.eqb id k) eqn:E.
  - apply get_In_keys with v. now rewrite get_set, E.
  - apply get_In_keys with v0. now rewrite get_set, E.
Qed.

Lemma ADD_SCENE_activeStored id name :
  id <> "" -> hoare activeStored (ScenesService.ADD_SCENE id name) activeStored.
Proof.
  intros Hid w [Hset Hin]. split; [now apply ADD_SCENE_activeSet|].
  destruct Hset as (_ & _ & H0 & _). unfold sceneCount, run in *. simpl.
  intros _.
  destruct (truthy (IScenesState.activeSceneId (state w))) eqn:T.
  - apply keys_set_incl. apply Hin. intros Hz. apply H0 in Hz.
    rewrite Hz in T. discriminate.
  - apply get_In_keys with (freshScene id name).
    now rewrite get_set, String.eqb_refl.
Qed.

Lemma makeSceneActive_activeStored id :
  hoare activeStored (ScenesService.makeSceneActive id) activeStored.
Proof.
  intros w [Hset Hin]. split; [now apply makeSceneActive_activeSet|].
  unfold ScenesService.makeSceneActive, ScenesService.getScene,
    ScenesService.MAKE_SCENE_ACTIVE, Scene.getModel, run, sceneCount in *.
  msimpl.
  destruct (Dict.get (IScenesState.scenes (state w)) id) as [sc|] eqn:G;
    simpl; [|exact Hin].
  intros _. now apply get_In_keys with sc.
Qed.

(** The end of [removeScene], from [REMOVE_SCENE] on. *)
Lemma removeScene_tail_activeStored id (sceneModel : option IScene.t) :
  hoare activeStoredSpare
    (ScenesService.REMOVE_SCENE id ;;;
     st' <- getState ;;
     (if String.eqb (IScenesState.activeSceneId st') id then
        match Dict.keys (IScenesState.scenes st') with
        | k :: _ =>
            if truthy k
            then ScenesService.makeSceneActive k ;;; ret tt
            else ret tt
        | [] => ret tt
        end
      else ret tt) ;;;
     emit (sceneRemoved sceneModel) ;;;
     ret sceneModel)
    activeStored.
Proof.
  intros w [[Hset Hin] Hn]. split.
  - revert w Hset Hin Hn.
    assert (H : hoare activeSetSpare
                  (ScenesService.REMOVE_SCENE id ;;;
                   st' <- getState ;;
                   (if String.eqb (IScenesState.activeSceneId st') id then
                      match Dict.keys (IScenesState.scenes st') with
                      | k :: _ =>
                          if truthy k
                          then ScenesService.makeSceneActive k ;;; ret tt
                          else ret tt
                      | [] => ret tt
                      end
                    else ret tt) ;;;
                   emit (sceneRemoved sceneModel) ;;;
                   ret sceneModel)
                  activeSet).
    { apply hoare_bind with activeSet;
        [apply REMOVE_SCENE_activeSet | auto | intros _].
      apply hoare_keep_bind; [apply quiet_keeps_activeSet, quiet_getState | intros st'].
      apply hoare_keep_bind.
      + destruct (String.eqb _ id); [|apply quiet_keeps_activeSet, quiet_ret].
        destruct (Dict.keys _) as [|k r]; [apply quiet_keeps_activeSet, quiet_ret|].
        destruct (truthy k); [|apply quiet_keeps_activeSet, quiet_ret].
        apply hoare_keep_bind; [apply makeSceneActive_activeSet | intros _].
        apply quiet_keeps_activeSet, quiet_ret.
      + intros _. apply quiet_keeps_activeSet. quiet_steps. }
    intros w Hset Hin Hn. apply H. now split.
  - destruct Hset as (Hnd & Hne & _ & _).
    assert (Hin' : In (IScenesState.activeSceneId (state w))
                      (Dict.keys (IScenesState.scenes (state w)))).
    { apply Hin. lia. }
    unfold sceneCount, run, ScenesService.REMOVE_SCENE.
    msimpl.
    destruct (String.eqb (IScenesState.activeSceneId (state w)) id) eqn:E.
    + destruct (Dict.keys (Dict.delete (IScenesState.scenes (state w)) id))
        as [|k r] eqn:K; simpl.
      * rewrite K. intros Hz. now elim Hz.
      * assert (Hk : In k (Dict.keys (Dict.delete (IScenesState.scenes (state w)) id)))
          by (rewrite K; now left).
        destruct (truthy k) eqn:T.
        -- unfold ScenesService.makeSceneActive, ScenesService.getScene,
             ScenesService.MAKE_SCENE_ACTIVE, Scene.getModel.
           msimpl. destruct (In_keys_get _ _ Hk) as [v Hv]. rewrite Hv. simpl.
           intros _. exact Hk.
        -- exfalso. unfold truthy in T. apply negb_false_iff, String.eqb_eq in T.
           subst k. rewrite keys_delete in Hk. apply In_without in Hk.
           now apply Hne.
    + simpl. intros _. rewrite keys_delete. apply In_without.
      split; [exact Hin' | now apply String.eqb_neq].
Qed.

Lemma removeScene_activeStored id force w :
  (force = true -> (2 <= sceneCount w)%nat) ->
  activeStored w -> activeStored (run (ScenesService.removeScene id force) w).
Proof.
  intros Hforce Hw. unfold ScenesService.removeScene.
  rewrite run_bind. simpl.
  destruct (negb force && (length (Dict.keys (IScenesState.scenes (state w))) <? 2)%nat)
    eqn:G.
  - apply (quiet_keeps_activeStored (alert _ ;;; ret None)); [|exact Hw].
    quiet_steps. apply quiet_alert.
  - assert (Hspare : activeStoredSpare w).
    { split; [exact Hw|]. apply andb_false_iff in G. destruct G as [G|G].
      - apply negb_false_iff in G. now apply Hforce.
      - now apply Nat.ltb_ge in G. }
    clear Hforce Hw G. revert w Hspare.
    change (hoare activeStoredSpare
              (scene <- ScenesService.getScene id ;;
               s <- deref scene ;;
               items <- Scene.getItems s ;;
               forEach items (ScenesService.removeOwnItem s) ;;;
               allItems <- ScenesService.getSceneItems ;;
               forEach allItems (ScenesService.removeReference s) ;;;
               sceneModel <- ScenesService.sceneOfState id ;;
               ScenesService.REMOVE_SCENE id ;;;
               st' <- getState ;;
               (if String.eqb (IScenesState.activeSceneId st') id then
                  match Dict.keys (IScenesState.scenes st') with
                  | k :: _ =>
                      if truthy k
                      then ScenesService.makeSceneActive k ;;; ret tt
                      else ret tt
                  | [] => ret tt
                  end
                else ret tt) ;;;
               emit (sceneRemoved sceneModel) ;;;
               ret sceneModel)
              activeStored).
    assert (Hdrop : forall w, activeStoredSpare w -> activeStored w)
      by (intros w [H _]; exact H).
    apply hoare_bind with activeStoredSpare;
      [apply quiet_keeps_storedSpare, quiet_getScene | exact Hdrop | intros scene].
    apply hoare_bind with activeStoredSpare;
      [apply quiet_keeps_storedSpare, quiet_deref | exact Hdrop | intros s].
    apply hoare_bind with activeStoredSpare;
      [apply quiet_keeps_storedSpare, quiet_getItems | exact Hdrop | intros items].
    apply hoare_bind with activeStoredSpare;
      [apply quiet_keeps_storedSpare, quiet_forEach; intros a; apply quiet_removeOwnItem
      | exact Hdrop | intros _].
    apply hoare_bind with activeStoredSpare;
      [apply quiet_keeps_storedSpare, quiet_getSceneItems | exact Hdrop | intros allItems].
    apply hoare_bind with activeStoredSpare;
      [apply quiet_keeps_storedSpare, quiet_forEach; intros a; apply quiet_removeReference
      | exact Hdrop | intros _].
    apply hoare_bind with activeStoredSpare;
      [apply quiet_keeps_storedSpare, quiet_sceneOfState | exact Hdrop | intros sceneModel].
    apply removeScene_tail_activeStored.
Qed.

Lemma createScene_activeStored name options w :
  activeStored w -> activeStored (run (ScenesService.createScene name options) w).
Proof.
  intros Hw. destruct (createScene_id options w) as (wa & Hid & Hst & Hev).
  assert (Hwa : activeStored wa).
  { apply (activeStored_same w); [now rewrite Hst | now rewrite Hst | exact Hw]. }
  pose proof (newSceneId_truthy options w) as Hne.
  unfold run, ScenesService.createScene. rewrite (bind_Return _ _ _ _ _ Hid).
  match goal with
  | |- activeStored (fst (?m wa)) =>
      assert (H : hoare activeStored m activeStored); [|exact (H wa Hwa)]
  end.
  apply hoare_keep_bind; [now apply ADD_SCENE_activeStored | intros _].
  apply hoare_keep_bind;
    [apply quiet_keeps_activeStored, quiet_registerSource | intros _].
  apply hoare_keep_bind;
    [apply quiet_keeps_activeStored, quiet_duplication | intros _].
  apply hoare_keep_bind;
    [apply quiet_keeps_activeStored, quiet_sceneOfState | intros model].
  apply hoare_keep_bind;
    [apply quiet_keeps_activeStored, quiet_emit; reflexivity | intros _].
  apply hoare_keep_bind;
    [|intros _; apply quiet_keeps_activeStored, quiet_getSceneByName].
  destruct (ISceneCreateOptions.makeActive options).
  - apply hoare_keep_bind; [apply makeSceneActive_activeStored | intros _].
    apply quiet_keeps_activeStored, quiet_ret.
  - apply quiet_keeps_activeStored, quiet_ret.
Qed.

Lemma reachable_activeStored w : reachable w -> activeStored w.
Proof.
  induction 1 as [ids | w name options _ IH | w id force _ IH Hforce
                 | w id _ IH | w order _ IH | w scene sourceId _ IH
                 | w scene name type _ IH | w scene itemId _ IH | w i p _ IH].
  - split.
    + unfold activeSet, sceneCount. simpl. repeat split; auto; try constructor.
    + intros Hz. now elim Hz.
  - now apply createScene_activeStored.
  - now apply removeScene_activeStored.
  - now apply makeSceneActive_activeStored.
  - exact IH.
  - now apply (quiet_keeps_activeStored _ (quiet_addSource scene sourceId)).
  - now apply (quiet_keeps_activeStored _ (quiet_createAndAddSource scene name type)).
  - now apply (quiet_keeps_activeStored _ (quiet_removeItem scene itemId)).
  - now apply (quiet_keeps_activeStored _ (quiet_setSettings i p)).
Qed.

(** X17. In every world the services reach from the initial store (a scene
    being removed by force only while another one is left), as soon as the
    store has a scene the active scene is one of its scenes: [activeSceneId]
    names a stored scene and [activeScene] answers with its handle, never
    with [null], whatever was created, removed, activated or reordered on
    the way. *)
Theorem active_scene_is_stored (w : World) :
  reachable w ->
  sceneCount w <> 0%nat ->
  exists id s,
    result ScenesService.activeSceneId w = Return id
    /\ result ScenesService.activeScene w = Return (Some id)
    /\ Dict.get (IScenesState.scenes (state w)) id = Some s.
Proof.
  intros Hreach Hn. destruct (reachable_activeStored w Hreach) as [_ Hin].
  specialize (Hin Hn). destruct (In_keys_get _ _ Hin) as [s Hs].
  exists (IScenesState.activeSceneId (state w)), s.
  split; [reflexivity|]. split; [|exact Hs].
  unfold result, ScenesService.activeScene, ScenesService.getScene. msimpl.
  now rewrite Hs.
Qed.

Lemma active_scene_is_stored_witness :
  let w := run (ScenesService.removeScene "scene_0" false)
               (run (ScenesService.createScene "Scene2" ISceneCreateOptions.empty)
                    defaultWorld) in
  reachable w
  /\ sceneCount w <> 0%nat
  /\ exists id s,
       result ScenesService.activeScene w = Return (Some id)
       /\ Dict.get (IScenesState.scenes (state w)) id = Some s.
Proof.
  intros w.
  assert (Hr : reachable w).
  { apply reachable_removeScene; [|discriminate].
    apply reachable_createScene. apply reachable_createScene. constructor. }
  assert (Hn : sceneCount w <> 0%nat) by (vm_compute; discriminate).
  destruct (active_scene_is_stored w Hr Hn) as (id & s & _ & Ha & Hs).
  split; [exact Hr|]. split; [exact Hn|].
  exists id, s. split; [exact Ha | exact Hs].
Defined.

(** ** Scenes the display order leaves out *)

Lemma hoare_bind_pure {A B} (P Q : World -> Prop) (m : M A) (f : A -> M B) :
  (forall w, run m w = w) ->
  (forall w, P w -> Q w) ->
  (forall w a, P w -> result m w = Return a -> Q (run (f a) w)) ->
  hoare P (bind m f) Q.
Proof.
  intros Hpure HPQ Hf w Hw. rewrite run_bind, Hpure.
  destruct (result m w) as [a|e] eqn:R; [now apply Hf | now apply HPQ].
Qed.

Lemma collectItems_pure hs : forall w, run (ScenesService.collectItems hs) w = w.
Proof.
  induction hs as [|h r IH]; intros w; [reflexivity|].
  unfold run in *. simpl. destruct h as [s|]; [|reflexivity].
  unfold Scene.getItems. msimpl. fold (@ScenesService.collectItems).
  specialize (IH w). destruct (ScenesService.collectItems r w) as [w1 [l|e]];
    exact IH.
Qed.

Lemma collectItems_listed hs : forall w l,
  result (ScenesService.collectItems hs) w = Return l ->
  forall i, In i l -> In (Some (SceneItem.sceneId i)) hs.
Proof.
  induction hs as [|h r IH]; intros w l; unfold result in *; simpl.
  - intros [= <-] i [].
  - destruct h as [s|]; [|discriminate].
    unfold Scene.getItems. msimpl. fold (@ScenesService.collectItems).
    specialize (IH w).
    destruct (ScenesService.collectItems r w) as [w1 [rest|e]];
      [|discriminate].
    simpl. intros [= <-] i Hi. apply in_app_or in Hi. destruct Hi as [Hi|Hi].
    + left. apply in_map_iff in Hi. destruct Hi as (x & <- & _). reflexivity.
    + right. now apply (IH rest eq_refl).
Qed.

Lemma getSceneItems_pure w : run ScenesService.getSceneItems w = w.
Proof.
  unfold ScenesService.getSceneItems.
  rewrite run_bind. unfold result at 1. rewrite scenes_run. cbn [snd].
  unfold run at 2. rewrite scenes_run. cbn [fst]. apply collectItems_pure.
Qed.

Lemma getSceneItems_listed w l :
  result ScenesService.getSceneItems w = Return l ->
  forall i, In i l ->
    In (SceneItem.sceneId i) (IScenesState.displayOrder (state w)).
Proof.
  unfold ScenesService.getSceneItems, result.
  rewrite (bind_Return _ _ _ _ _ (scenes_run w)).
  intros H i Hi. apply (collectItems_listed _ _ _ H) in Hi.
  apply in_map_iff in Hi. destruct Hi as (k & E & Hk).
  destruct (Dict.get (IScenesState.scenes (state w)) k); [|discriminate].
  injection E as <-. exact Hk.
Qed.

Section Unlisted.
Variables (k : string) (sk : IScene.t).

Lemma unlisted_same w w' :
  state w' = state w -> unlisted k sk w -> unlisted k sk w'.
Proof. unfold unlisted. now intros ->. Qed.

Lemma unlisted_pure {A} (m : M A) :
  (forall w, state (run m w) = state w) ->
  hoare (unlisted k sk) m (unlisted k sk).
Proof. intros H w Hw. now apply (unlisted_same w). Qed.

Lemma unlisted_removeItem k' itemId :
  k' <> k ->
  hoare (unlisted k sk) (Scene.removeItem k' itemId) (unlisted k sk).
Proof.
  intros Hk w [Hget Hout]. unfold Scene.removeItem, run. msimpl.
  destruct (findItem (nodesOf (state w) k') itemId); simpl; [|now split].
  destruct (mapNodes_frame (state w) k' (dropItem itemId)) as (_ & Ho & _).
  split; cbn [state].
  - rewrite get_mapNodes.
    apply String.eqb_neq in Hk. now rewrite Hk.
  - now rewrite Ho.
Qed.

Lemma unlisted_removeReference id item :
  SceneItem.sceneId item <> k ->
  hoare (unlisted k sk) (ScenesService.removeReference id item) (unlisted k sk).
Proof.
  intros Hk. unfold ScenesService.removeReference.
  destruct (negb _); [now apply unlisted_pure|].
  apply hoare_bind_pure; [reflexivity | auto |].
  intros w owner Hw Hres.
  assert (Ho : owner = None \/ owner = Some (SceneItem.sceneId item)).
  { unfold result, ScenesService.getScene in Hres. revert Hres. msimpl.
    destruct (Dict.get _ _); intros [= <-]; auto. }
  destruct Ho as [->| ->]; [exact Hw|].
  now apply (unlisted_removeItem (SceneItem.sceneId item)
               (SceneItem.sceneItemId item) Hk w).
Qed.

Lemma unlisted_references id l :
  (forall i, In i l -> SceneItem.sceneId i <> k) ->
  hoare (unlisted k sk) (forEach l (ScenesService.removeReference id))
        (unlisted k sk).
Proof.
  induction l as [|a r IH]; intros H; simpl.
  - now apply unlisted_pure.
  - apply hoare_keep_bind.
    + apply unlisted_removeReference. apply H. now left.
    + intros _. apply IH. intros i Hi. apply H. now right.
Qed.

Lemma unlisted_own_items id (l : list SceneItem.t) :
  id <> k ->
  hoare (unlisted k sk) (forEach l (ScenesService.removeOwnItem id))
        (unlisted k sk).
Proof.
  intros Hid. induction l as [|a r IH]; simpl.
  - now apply unlisted_pure.
  - apply hoare_keep_bind; [now apply unlisted_removeItem | intros _; exact IH].
Qed.

Lemma unlisted_makeSceneActive id :
  hoare (unlisted k sk) (ScenesService.makeSceneActive id) (unlisted k sk).
Proof.
  intros w Hw. unfold ScenesService.makeSceneActive, ScenesService.getScene,
    ScenesService.MAKE_SCENE_ACTIVE, Scene.getModel, run.
  msimpl. destruct (Dict.get (IScenesState.scenes (state w)) id); exact Hw.
Qed.

Lemma unlisted_REMOVE_SCENE id :
  id <> k ->
  hoare (unlisted k sk) (ScenesService.REMOVE_SCENE id) (unlisted k sk).
Proof.
  intros Hid w [Hget Hout]. unfold unlisted, run. simpl. split.
  - rewrite get_delete. apply String.eqb_neq in Hid. now rewrite Hid.
  - intros Hin. apply In_without in Hin. tauto.
Qed.

Lemma unlisted_removeScene id force :
  id <> k ->
  hoare (unlisted k sk) (ScenesService.removeScene id force) (unlisted k sk).
Proof.
  intros Hid. unfold ScenesService.removeScene.
  apply hoare_keep_bind; [now apply unlisted_pure | intros st].
  destruct (negb force && _).
  { apply hoare_keep_bind; [now apply unlisted_pure | intros _].
    now apply unlisted_pure. }
  apply hoare_bind_pure; [reflexivity | auto |].
  intros w scene Hw Hres.
  assert (Hs : scene = None \/ scene = Some id).
  { unfold result, ScenesService.getScene in Hres. revert Hres. msimpl.
    destruct (Dict.get _ _); intros [= <-]; auto. }
  destruct Hs as [->| ->]; [exact Hw|].
  revert w Hw Hres.
  assert (H : hoare (unlisted k sk)
                (items <- Scene.getItems id ;;
                 forEach items (ScenesService.removeOwnItem id) ;;;
                 allItems <- ScenesService.getSceneItems ;;
                 forEach allItems (ScenesService.removeReference id) ;;;
                 sceneModel <- ScenesService.sceneOfState id ;;
                 ScenesService.REMOVE_SCENE id ;;;
                 st' <- getState ;;
                 (if String.eqb (IScenesState.activeSceneId st') id then
                    match Dict.keys (IScenesState.scenes st') with
                    | k0 :: _ =>
                        if truthy k0
                        then ScenesService.makeSceneActive k0 ;;; ret tt
                        else ret tt
                    | [] => ret tt
                    end
                  else ret tt) ;;;
                 emit (sceneRemoved sceneModel) ;;;
                 ret sceneModel)
                (unlisted k sk)).
  { apply hoare_keep_bind; [now apply unlisted_pure | intros items].
    apply hoare_keep_bind; [now apply unlisted_own_items | intros _].
    apply hoare_bind_pure; [apply getSceneItems_pure | auto |].
    intros w allItems Hw Hres. revert w Hw Hres.
    intros w Hw Hres.
    assert (Hl : forall i, In i allItems -> SceneItem.sceneId i <> k).
    { intros i Hi E. apply (getSceneItems_listed w allItems Hres) in Hi.
      rewrite E in Hi. now destruct Hw. }
    revert w Hw Hres.
    assert (H : hoare (unlisted k sk)
                  (forEach allItems (ScenesService.removeReference id) ;;;
                   sceneModel <- ScenesService.sceneOfState id ;;
                   ScenesService.REMOVE_SCENE id ;;;
                   st' <- getState ;;
                   (if String.eqb (IScenesState.activeSceneId st') id then
                      match Dict.keys (IScenesState.scenes st') with
                      | k0 :: _ =>
                          if truthy k0
                          then ScenesService.makeSceneActive k0 ;;; ret tt
                          else ret tt
                      | [] => ret tt
                      end
                    else ret tt) ;;;
                   emit (sceneRemoved sceneModel) ;;;
                   ret sceneModel)
                  (unlisted k sk)).
    { apply hoare_keep_bind; [now apply unlisted_references | intros _].
      apply hoare_keep_bind; [now apply unlisted_pure | intros sceneModel].
      apply hoare_keep_bind; [now apply unlisted_REMOVE_SCENE | intros _].
      apply hoare_keep_bind; [now apply unlisted_pure | intros st'].
      apply hoare_keep_bind.
      - destruct (String.eqb _ id); [|now apply unlisted_pure].
        destruct (Dict.keys _) as [|k0 r]; [now apply unlisted_pure|].
        destruct (truthy k0); [|now apply unlisted_pure].
        apply hoare_keep_bind; [apply unlisted_makeSceneActive | intros _].
        now apply unlisted_pure.
      - intros _. apply hoare_keep_bind; [now apply unlisted_pure | intros _].
        now apply unlisted_pure. }
    intros w Hw _. now apply H. }
  intros w Hw _. now apply (H w).
Qed.

End Unlisted.

(** X18. [removeScene(id)] looks for items that use the removed scene only
    in the scenes of the display order.  A scene the display order does not
    list (which [setSceneOrder] allows) is left exactly as it was, with its
    items that reference the removed scene, however the call ends. *)
Theorem removeScene_skips_unlisted_scene
    (w : World) (id k : string) (force : bool) (sk : IScene.t) :
  k <> id ->
  ~ In k (IScenesState.displayOrder (state w)) ->
  Dict.get (IScenesState.scenes (state w)) k = Some sk ->
  Dict.get (IScenesState.scenes
              (state (run (ScenesService.removeScene id force) w))) k
  = Some sk.
Proof.
  intros Hk Hout Hget.
  assert (Hid : id <> k) by congruence.
  now destruct (unlisted_removeScene k sk id force Hid w (conj Hget Hout)).
Qed.

Lemma removeScene_skips_unlisted_scene_witness :
  let w' := run (ScenesService.removeScene "scene_1" false) hiddenWorld in
  Dict.get (IScenesState.scenes (state w')) "scene_1" = None
  /\ Dict.get (IScenesState.scenes (state w')) "scene_3"
     = Some (setNodes (freshScene "scene_3" "SceneC")
               [Item (ISceneItem.mk "5" "scene_1" defaultSettings None)])
  /\ result (ScenesService.removeScene "scene_1" false) hiddenWorld
     = Return (Some (freshScene "scene_1" "SceneA")).
Proof.
  assert (Hk : "scene_3" <> "scene_1") by discriminate.
  assert (Hord : IScenesState.displayOrder (state hiddenWorld)
                 = ["scene_0"; "scene_1"; "scene_2"])
    by (vm_compute; reflexivity).
  assert (Hout : ~ In "scene_3" (IScenesState.displayOrder (state hiddenWorld))).
  { rewrite Hord. intros [H|[H|[H|[]]]]; discriminate. }
  assert (Hget : Dict.get (IScenesState.scenes (state hiddenWorld)) "scene_3"
                 = Some (setNodes (freshScene "scene_3" "SceneC")
                           [Item (ISceneItem.mk "5" "scene_1" defaultSettings
                                    None)]))
    by (vm_compute; reflexivity).
  pose proof (removeScene_skips_unlisted_scene hiddenWorld "scene_1" "scene_3"
                false _ Hk Hout Hget) as H.
  split; [vm_compute; reflexivity|]. split; [exact H|].
  vm_compute. reflexivity.
Defined.

(** ** Scene records keep their id *)

Lemma stamped_pure {A} (m : M A) :
  (forall w, IScenesState.scenes (state (run m w))
             = IScenesState.scenes (state w)) ->
  hoare stamped m stamped.
Proof. intros H w Hw. unfold stamped. now rewrite H. Qed.

Lemma stamped_mapNodes k f : hoare stamped (modifyState (mapNodes k f)) stamped.
Proof.
  intros w Hw k' s. unfold run. simpl. rewrite get_mapNodes.
  destruct (String.eqb k k') eqn:E; [|apply Hw].
  apply String.eqb_eq in E. subst k'.
  destruct (Dict.get (IScenesState.scenes (state w)) k) as [sc|] eqn:G;
    [|discriminate].
  simpl. intros [= <-]. exact (Hw k sc G).
Qed.

Lemma stamped_ADD_SCENE id name :
  hoare stamped (ScenesService.ADD_SCENE id name) stamped.
Proof.
  intros w Hw k s. unfold run. simpl. rewrite get_set.
  destruct (String.eqb id k) eqn:E; [|apply Hw].
  apply String.eqb_eq in E. subst k. intros [= <-]. now split.
Qed.

Lemma stamped_REMOVE_SCENE id :
  hoare stamped (ScenesService.REMOVE_SCENE id) stamped.
Proof.
  intros w Hw k s. unfold run. simpl. rewrite get_delete.
  destruct (String.eqb id k); [discriminate | apply Hw].
Qed.

Ltac stamped_steps :=
  repeat match goal with
    | |- hoare stamped (bind _ _) stamped => apply hoare_keep_bind; [|intros ?]
    | |- hoare stamped (modifyState (mapNodes _ _)) stamped =>
        apply stamped_mapNodes
    | |- hoare stamped (ScenesService.ADD_SCENE _ _) stamped =>
        apply stamped_ADD_SCENE
    | |- hoare stamped (ScenesService.REMOVE_SCENE _) stamped =>
        apply stamped_REMOVE_SCENE
    | |- hoare stamped (deref ?o) stamped =>
        destruct o; apply stamped_pure; reflexivity
    | |- hoare stamped (ret _) stamped => apply stamped_pure; reflexivity
    | |- hoare stamped (throw _) stamped => apply stamped_pure; reflexivity
    | |- hoare stamped getState stamped => apply stamped_pure; reflexivity
    | |- hoare stamped getWorld stamped => apply stamped_pure; reflexivity
    | |- hoare stamped getUniqueId stamped => apply stamped_pure; reflexivity
    | |- hoare stamped (emit _) stamped => apply stamped_pure; reflexivity
    | |- hoare stamped (alert _) stamped => apply stamped_pure; reflexivity
    | |- hoare stamped (SourcesService.addSource _ _ _) stamped =>
        apply stamped_pure; reflexivity
    | |- hoare stamped (ScenesService.MAKE_SCENE_ACTIVE _) stamped =>
        apply stamped_pure; reflexivity
    | |- hoare stamped (ScenesService.SET_SCENE_ORDER _) stamped =>
        apply stamped_pure; reflexivity
    end.

Lemma stamped_forEach {A} (l : list A) (f : A -> M unit) :
  (forall a, hoare stamped (f a) stamped) -> hoare stamped (forEach l f) stamped.
Proof.
  intros Hf. induction l as [|a r IH]; simpl; stamped_steps; [apply Hf | exact IH].
Qed.

Lemma stamped_getScene id : hoare stamped (ScenesService.getScene id) stamped.
Proof. unfold ScenesService.getScene. stamped_steps. Qed.

Lemma stamped_getSceneByName name :
  hoare stamped (ScenesService.getSceneByName name) stamped.
Proof.
  unfold ScenesService.getSceneByName. stamped_steps.
  destruct (ScenesService.foundScene _ name);
    [apply stamped_getScene | stamped_steps].
Qed.

Lemma stamped_getItems scene : hoare stamped (Scene.getItems scene) stamped.
Proof. unfold Scene.getItems. stamped_steps. Qed.

Lemma stamped_addSource scene sourceId :
  hoare stamped (Scene.addSource scene sourceId) stamped.
Proof.
  unfold Scene.addSource. stamped_steps.
  destruct (Dict.get _ scene); [|stamped_steps].
  destruct (Scene.canAddSource _ scene sourceId); stamped_steps.
Qed.

Lemma stamped_createAndAddSource scene name type :
  hoare stamped (Scene.createAndAddSource scene name type) stamped.
Proof.
  unfold Scene.createAndAddSource. stamped_steps. cbv zeta. stamped_steps.
  apply stamped_addSource.
Qed.

Lemma stamped_removeItem scene itemId :
  hoare stamped (Scene.removeItem scene itemId) stamped.
Proof.
  unfold Scene.removeItem. stamped_steps.
  destruct (findItem _ itemId); stamped_steps.
Qed.

Lemma stamped_setSettings i p :
  hoare stamped (SceneItemApi.setSettings i p) stamped.
Proof.
  unfold SceneItemApi.setSettings. stamped_steps.
  destruct (findItem _ _); stamped_steps.
Qed.

Lemma stamped_getSceneItems : hoare stamped ScenesService.getSceneItems stamped.
Proof.
  apply stamped_pure. intros w. now rewrite getSceneItems_pure.
Qed.

Lemma stamped_makeSceneActive id :
  hoare stamped (ScenesService.makeSceneActive id) stamped.
Proof.
  unfold ScenesService.makeSceneActive. stamped_steps.
  - apply stamped_getScene.
  - match goal with |- hoare _ (match ?o with _ => _ end) _ => destruct o end;
      stamped_steps.
    unfold Scene.getModel. stamped_steps.
Qed.

Lemma stamped_createScene name options :
  hoare stamped (ScenesService.createScene name options) stamped.
Proof.
  unfold ScenesService.createScene. stamped_steps.
  - destruct (ISceneCreateOptions.sceneId options) as [s|];
      [destruct (truthy s)|]; stamped_steps.
  - destruct (ISceneCreateOptions.duplicateSourcesFromScene options)
      as [template|]; [|stamped_steps].
    destruct (truthy template); stamped_steps.
    + apply stamped_getSceneByName.
    + apply stamped_getScene.
    + apply stamped_getItems.
    + apply stamped_forEach. intros item.
      unfold ScenesService.duplicateItem. stamped_steps.
      * apply stamped_addSource.
      * apply stamped_setSettings.
  - unfold ScenesService.sceneOfState. stamped_steps.
  - destruct (ISceneCreateOptions.makeActive options); stamped_steps.
    apply stamped_makeSceneActive.
  - apply stamped_getSceneByName.
Qed.

Lemma stamped_removeScene id force :
  hoare stamped (ScenesService.removeScene id force) stamped.
Proof.
  unfold ScenesService.removeScene. stamped_steps.
  destruct (negb force && _); stamped_steps.
  - apply stamped_getScene.
  - apply stamped_getItems.
  - apply stamped_forEach. intros item. apply stamped_removeItem.
  - apply stamped_getSceneItems.
  - apply stamped_forEach. intros item.
    unfold ScenesService.removeReference. destruct (negb _); stamped_steps.
    + apply stamped_getScene.
    + apply stamped_removeItem.
  - unfold ScenesService.sceneOfState. stamped_steps.
  - destruct (String.eqb _ id); [|stamped_steps].
    destruct (Dict.keys _) as [|k0 r]; [stamped_steps|].
    destruct (truthy k0); stamped_steps.
    apply stamped_makeSceneActive.
Qed.

(** X19. No operation rewrites the identity of a scene.  In every world
    the services reach from the initial store, each scene record is stored
    under its own [id] and carries the [resourceId] that [ADD_SCENE] derived
    from it, ['Scene' + JSON.stringify([id])]. *)
Theorem scene_records_keep_their_id (w : World) (k : string) (s : IScene.t) :
  reachable w ->
  Dict.get (IScenesState.scenes (state w)) k = Some s ->
  IScene.id s = k
  /\ IScene.resourceId s = ("Scene" ++ JSON_stringify_singleton k)%string.
Proof.
  intros Hreach. revert k s. change (stamped w).
  induction Hreach as [ids | w name options _ IH | w id force _ IH Hforce
                 | w id _ IH | w order _ IH | w scene sourceId _ IH
                 | w scene name type _ IH | w scene itemId _ IH | w i p _ IH].
  - intros k s. discriminate.
  - now apply stamped_createScene.
  - now apply stamped_removeScene.
  - now apply stamped_makeSceneActive.
  - exact IH.
  - now apply stamped_addSource.
  - now apply stamped_createAndAddSource.
  - now apply stamped_removeItem.
  - now apply stamped_setSettings.
Qed.

Lemma scene_records_keep_their_id_witness :
  let w := run (ScenesService.removeScene "scene_0" false)
               (run (ScenesService.createScene "Scene2" ISceneCreateOptions.empty)
                    defaultWorld) in
  reachable w
  /\ Dict.get (IScenesState.scenes (state w)) "scene_1"
     = Some (freshScene "scene_1" "Scene2")
  /\ IScene.resourceId (freshScene "scene_1" "Scene2")
     = ("Scene" ++ JSON_stringify_singleton "scene_1")%string.
Proof.
  intros w.
  assert (Hr : reachable w).
  { apply reachable_removeScene; [|discriminate].
    apply reachable_createScene. apply reachable_createScene. constructor. }
  assert (Hs : Dict.get (IScenesState.scenes (state w)) "scene_1"
               = Some (freshScene "scene_1" "Scene2"))
    by (vm_compute; reflexivity).
  split; [exact Hr|]. split; [exact Hs|].
  exact (proj2 (scene_records_keep_their_id w "scene_1" _ Hr Hs)).
Defined.

(** ** Reordering with a permutation *)

(** X20. [setSceneOrder] checks nothing, but a caller that passes a
    permutation of the current display order keeps a consistent store
    consistent, and [getScenes] then lists the scenes in the new order,
    without a [null] entry. *)
Theorem setSceneOrder_permutation_keeps_consistent
    (w : World) (order : list string) :
  let w' := run (ScenesService.setSceneOrder order) w in
  consistent w ->
  Permutation order (IScenesState.displayOrder (state w)) ->
  consistent w'
  /\ result ScenesService.getScenes w' = Return (map Some order).
Proof.
  intros w' (Hnd & Hkeys & Hids & Hne) Hperm. subst w'.
  assert (Hc : consistent (run (ScenesService.setSceneOrder order) w)).
  { unfold consistent, run. simpl. repeat split.
    - apply (Permutation_NoDup (Permutation_sym Hperm) Hnd).
    - intros Hk. apply Hkeys. now apply (Permutation_in _ Hperm).
    - intros Hk. apply Hkeys in Hk.
      now apply (Permutation_in _ (Permutation_sym Hperm)).
    - exact Hids.
    - exact Hne. }
  split; [exact Hc|].
  unfold ScenesService.getScenes, result. rewrite scenes_run. cbn [snd].
  now rewrite (handles_stored _ (consistent_orderStored _ Hc)).
Qed.

Lemma setSceneOrder_permutation_keeps_consistent_witness :
  let order := ["scene_3"; "scene_2"; "scene_1"; "scene_0"] in
  let w' := run (ScenesService.setSceneOrder order) nestedWorld in
  consistent nestedWorld
  /\ Permutation order (IScenesState.displayOrder (state nestedWorld))
  /\ consistent w'
  /\ result ScenesService.getScenes w' = Return (map Some order).
Proof.
  intros order w'.
  assert (Hc : consistent nestedWorld)
    by (apply consistentb_sound; vm_compute; reflexivity).
  assert (Hord : IScenesState.displayOrder (state nestedWorld)
                 = ["scene_0"; "scene_1"; "scene_2"; "scene_3"])
    by (vm_compute; reflexivity).
  assert (Hp : Permutation order (IScenesState.displayOrder (state nestedWorld))).
  { rewrite Hord. apply Permutation_sym.
    exact (Permutation_rev ["scene_0"; "scene_1"; "scene_2"; "scene_3"]). }
  destruct (setSceneOrder_permutation_keeps_consistent nestedWorld order Hc Hp)
    as [H1 H2].
  split; [exact Hc|]. split; [exact Hp|]. split; [exact H1 | exact H2].
Defined.

(** ** The items of all scenes *)

(** X21. On a store whose display order names only scenes it has,
    [getSceneItems()] is a read that returns the items of the scenes
    flattened, scene by scene in display order and within a scene in the
    order of its node list: an item handle is returned exactly when its
    scene is listed and has that item. *)
Theorem getSceneItems_flattens (w : World) :
  orderStored (state w) ->
  let l := flat_map (fun k => map (SceneItem.mk k) (itemsOf (nodesOf (state w) k)))
                    (IScenesState.displayOrder (state w)) in
  ScenesService.getSceneItems w = (w, Return l)
  /\ forall i, In i l <->
       In (SceneItem.sceneId i) (IScenesState.displayOrder (state w))
       /\ In (SceneItem.model i)
             (itemsOf (nodesOf (state w) (SceneItem.sceneId i))).
Proof.
  intros Hex l. subst l. split.
  - rewrite getSceneItems_ok; [reflexivity|].
    intros k Hk. specialize (Hex k Hk).
    destruct (Dict.get (IScenesState.scenes (state w)) k) as [sc|];
      [now exists sc | contradiction].
  - intros [k m]. rewrite in_flat_map. simpl. split.
    + intros (k' & Hk' & Hin). apply in_map_iff in Hin.
      destruct Hin as (m' & [= -> ->] & Hm). now split.
    + intros [Hk Hm]. exists k. split; [exact Hk|]. now apply in_map.
Qed.

Lemma getSceneItems_flattens_witness :
  orderStored (state cascadeWorld)
  /\ ScenesService.getSceneItems cascadeWorld
     = (cascadeWorld,
        Return [SceneItem.mk "scene_1"
                  (ISceneItem.mk "4" "scene_2" defaultSettings None);
                SceneItem.mk "scene_3"
                  (ISceneItem.mk "5" "scene_1" defaultSettings None)]).
Proof.
  assert (Hc : consistent cascadeWorld)
    by (apply consistentb_sound; vm_compute; reflexivity).
  pose proof (consistent_orderStored _ Hc) as Ho.
  split; [exact Ho|].
  rewrite (proj1 (getSceneItems_flattens cascadeWorld Ho)).
  apply f_equal. apply f_equal. vm_compute. reflexivity.
Defined.

(** ** Without [force] a scene is always left *)

Lemma quiet_keeps_populated {A} n (m : M A) :
  quiet m -> hoare (populated n) m (populated n).
Proof.
  intros Hm w [Hnd Hn]. destruct (Hm w) as (_ & Hk & _).
  unfold populated, sceneCount in *. now rewrite Hk.
Qed.

Lemma makeSceneActive_populated n id :
  hoare (populated n) (ScenesService.makeSceneActive id) (populated n).
Proof.
  intros w Hw. unfold ScenesService.makeSceneActive, ScenesService.getScene,
    ScenesService.MAKE_SCENE_ACTIVE, Scene.getModel, run.
  msimpl. destruct (Dict.get (IScenesState.scenes (state w)) id); exact Hw.
Qed.

Lemma REMOVE_SCENE_populated id :
  hoare (populated 2) (ScenesService.REMOVE_SCENE id) (populated 1).
Proof.
  intros w [Hnd Hn]. unfold populated, sceneCount, run in *. simpl.
  rewrite keys_delete. pose proof (without_length _ id Hnd) as Hlen.
  split; [unfold without; now apply NoDup_filter | lia].
Qed.

(** X22. [removeScene] without [force] never removes the last scene: when
    the store has a scene, it has one after the call too, whatever id is
    passed and however the call ends (refused with the alert, completed, or
    a [TypeError] on the way). *)
Theorem removeScene_never_empties_store (w : World) (id : string) :
  NoDup (Dict.keys (IScenesState.scenes (state w))) ->
  (1 <= sceneCount w)%nat ->
  (1 <= sceneCount (run (ScenesService.removeScene id false) w))%nat.
Proof.
  intros Hnd Hn.
  assert (H : populated 1 (run (ScenesService.removeScene id false) w));
    [|now destruct H].
  unfold ScenesService.removeScene. rewrite run_bind. simpl.
  destruct (length (Dict.keys (IScenesState.scenes (state w))) <? 2)%nat eqn:G.
  - apply (quiet_keeps_populated 1 (alert _ ;;; ret None)); [|now split].
    quiet_steps. apply quiet_alert.
  - assert (Hspare : populated 2 w)
      by (split; [exact Hnd | now apply Nat.ltb_ge in G]).
    clear Hnd Hn G. revert w Hspare.
    change (hoare (populated 2)
              (scene <- ScenesService.getScene id ;;
               s <- deref scene ;;
               items <- Scene.getItems s ;;
               forEach items (ScenesService.removeOwnItem s) ;;;
               allItems <- ScenesService.getSceneItems ;;
               forEach allItems (ScenesService.removeReference s) ;;;
               sceneModel <- ScenesService.sceneOfState id ;;
               ScenesService.REMOVE_SCENE id ;;;
               st' <- getState ;;
               (if String.eqb (IScenesState.activeSceneId st') id then
                  match Dict.keys (IScenesState.scenes st') with
                  | k :: _ =>
                      if truthy k
                      then ScenesService.makeSceneActive k ;;; ret tt
                      else ret tt
                  | [] => ret tt
                  end
                else ret tt) ;;;
               emit (sceneRemoved sceneModel) ;;;
               ret sceneModel)
              (populated 1)).
    assert (Hdrop : forall w, populated 2 w -> populated 1 w)
      by (intros w [H1 H2]; split; [exact H1 | lia]).
    apply hoare_bind with (populated 2);
      [apply quiet_keeps_populated, quiet_getScene | exact Hdrop | intros scene].
    apply hoare_bind with (populated 2);
      [apply quiet_keeps_populated, quiet_deref | exact Hdrop | intros s].
    apply hoare_bind with (populated 2);
      [apply quiet_keeps_populated, quiet_getItems | exact Hdrop | intros items].
    apply hoare_bind with (populated 2);
      [apply quiet_keeps_populated, quiet_forEach; intros a;
       apply quiet_removeOwnItem
      | exact Hdrop | intros _].
    apply hoare_bind with (populated 2);
      [apply quiet_keeps_populated, quiet_getSceneItems | exact Hdrop
      | intros allItems].
    apply hoare_bind with (populated 2);
      [apply quiet_keeps_populated, quiet_forEach; intros a;
       apply quiet_removeReference
      | exact Hdrop | intros _].
    apply hoare_bind with (populated 2);
      [apply quiet_keeps_populated, quiet_sceneOfState | exact Hdrop
      | intros sceneModel].
    apply hoare_bind with (populated 1);
      [apply REMOVE_SCENE_populated | auto | intros _].
    apply hoare_keep_bind;
      [apply quiet_keeps_populated, quiet_getState | intros st'].
    apply hoare_keep_bind.
    + destruct (String.eqb _ id); [|apply quiet_keeps_populated, quiet_ret].
      destruct (Dict.keys _) as [|k r]; [apply quiet_keeps_populated, quiet_ret|].
      destruct (truthy k); [|apply quiet_keeps_populated, quiet_ret].
      apply hoare_keep_bind; [apply makeSceneActive_populated | intros _].
      apply quiet_keeps_populated, quiet_ret.
    + intros _. apply quiet_keeps_populated. quiet_steps.
Qed.

Lemma removeScene_never_empties_store_witness :
  let w1 := run (ScenesService.removeScene "scene_1" false) cascadeWorld in
  let w2 := run (ScenesService.removeScene "scene_0" false) defaultWorld in
  sceneCount cascadeWorld = 4%nat
  /\ (1 <= sceneCount w1)%nat
  /\ sceneCount defaultWorld = 1%nat
  /\ (1 <= sceneCount w2)%nat.
Proof.
  assert (Hnd : NoDup (Dict.keys (IScenesState.scenes (state cascadeWorld))))
    by (apply nodupb_NoDup; vm_compute; reflexivity).
  assert (Hn : (1 <= sceneCount cascadeWorld)%nat)
    by (apply Nat.leb_le; vm_compute; reflexivity).
  assert (Hnd' : NoDup (Dict.keys (IScenesState.scenes (state defaultWorld))))
    by (apply nodupb_NoDup; vm_compute; reflexivity).
  assert (Hn' : (1 <= sceneCount defaultWorld)%nat)
    by (apply Nat.leb_le; vm_compute; reflexivity).
  split; [vm_compute; reflexivity|].
  split; [exact (removeScene_never_empties_store cascadeWorld "scene_1" Hnd Hn)|].
  split; [vm_compute; reflexivity|].
  exact (removeScene_never_empties_store defaultWorld "scene_0" Hnd' Hn').
Defined.
